(** * ES6 promise debugging wrappers: a shallow embedding

    The repository holds four small wrappers around the native ES6 [Promise]:

    - timeout.js         [timeoutPromise]
    - double-fulfill.js  [detectDoubleFulfilledPromise]
    - domain.js          [domainProtectedPromise]
    - uncaught.js        [detectUncaughtPromise]

    All four are closures over a native promise, mutable booleans and
    timers, so the embedding is explicit state passing over a model of the
    JavaScript run time: a heap of promise cells, a heap of closure
    booleans, the nextTick queue, the promise job queue, the timer list and
    the console. Closures are first-order data: a function value or a
    scheduled callback is a constructor holding what the closure captured,
    and [call_fn] / [fire] / [obj_then] / [obj_catch] run its body.

    The collaborators are outside the repository; what the model takes
    from them:
    - promises follow the ES6 contract: the first settlement wins, [then]
      returns a new promise, reactions run as jobs after the current turn,
      a missing handler passes the settlement through, a handler that
      returns fulfils the derived promise and one that throws rejects it;
    - timers fire by due time, in registration order among equals, and a
      delay outside 1 .. 2^31 - 1 runs as 1; the nextTick queue runs before
      promise jobs, jobs before the next timer;
    - a callback deferred inside [domain.run] stays bound to the domain: an
      exception it throws goes to the domain's ['error'] listener; outside
      any domain it ends the process;
    - values are numbers, [undefined] and [Error] objects; no thenable is
      returned from a handler, and none is passed to [resolve] but in the
      module [Thenables], which has double-fulfill.js for calls that pass
      one;
    - a user handler is a function from the settled value to [Return] or
      [Throw]; a handler argument is a function or [undefined];
    - a construction function is a straight-line script: settlement calls,
      and callbacks deferred with [setTimeout] or [process.nextTick] whose
      body is a run of settlement calls that may end in a [throw]; it does
      not throw synchronously, but in the module [Abrupt], which has
      timeout.js and double-fulfill.js for one that does;
    - the error handler handed to [detectDoubleFulfilledPromise] and to
      [domainProtectedPromise] is the console ([console.trace] in the
      source), which returns normally. *)

From stdpp Require Import base list strings.
From Stdlib Require Import ZArith Lia.

Local Open Scope string_scope.
Local Open Scope list_scope.
Local Open Scope Z_scope.

(** ** Values, console output *)

Inductive value :=
| VUndefined
| VNum (n : Z)
| VError (message : string).

Inductive outcome :=
| Return (v : value)
| Throw (e : value).

(** A call stack as [new Error().stack] sees it, innermost frame first. *)
Inductive frame :=
| AtSite (label : string)
| InCreatePromise
| InDetectUncaught
| InWrappedThen
| InWrappedCatch
| InDeadlineCheck.

Definition trace := list frame.

(** What the wrappers write to the console:
    - [console.log('uncaught terminal promise detected.',
         'last then() was on:', stack)];
    - [console.log('exception occured inside error handler',
         'of last promise chain:', err)];
    - [errHandler(err)], with [console.trace] for [errHandler]. *)
Inductive report :=
| UncaughtTerminal (stack : trace)
| HandlerFault (err : value)
| Reported (err : value).

Definition is_uncaught_terminal (r : report) : bool :=
  match r with UncaughtTerminal _ => true | _ => false end.

Definition is_handler_fault (r : report) : bool :=
  match r with HandlerFault _ => true | _ => false end.

(** ** Native promises *)

Inductive handler :=
| UserFn (f : value → outcome)
| FaultObserver.

Inductive settled :=
| Fulfilled (v : value)
| Rejected (e : value).

Inductive pstate :=
| Pending
| Settled (r : settled).

Record reaction := Reaction {
  onFulfilled : option handler;
  onRejected : option handler;
  derived : nat
}.

Record pcell := PCell {
  settlement : pstate;
  reactions : list reaction
}.

Inductive job :=
| Job (h : option handler) (r : settled) (target : nat).

(** ** Function values and objects the wrappers build *)

(** [resolve] and [reject] of a native promise, and what [wrap(fulfill)] of
    double-fulfill.js returns: a closure over the boolean [fulfilled]. *)
Inductive fn :=
| NativeResolve (p : nat)
| NativeReject (p : nat)
| Wrap (fulfilled : nat) (fulfill : fn).

(** A native promise, or what [detectUncaughtPromise] returns: an object
    whose [then] and [catch] close over [chained], [promise] and [timeout]. *)
Inductive obj :=
| Native (p : nat)
| Wrapped (chained : nat) (promise : obj) (timeout : Z).

(** The fault-isolation context of domain.js; its ['error'] listener closes
    over [reject]. *)
Inductive domain :=
| Domain (reject : fn).

(** ** Construction functions *)

Inductive which := Resolve | Reject.

Record call := Call { callee : which; arg : value }.

Record body := Body { calls : list call; throws : option value }.

Inductive stmt :=
| Do (c : call)
| SetTimeout (b : body) (delay : Z)
| NextTick (b : body).

Definition script := list stmt.

(** ** Scheduled callbacks *)

Inductive callback :=
| DeadlineCheck (chained : nat) (promise : obj) (prevCaught : option bool)
    (stack : trace)
| ForceReject (reject : fn)
| Deferred (resolve reject : fn) (dom : option domain) (b : body).

Definition timer := (Z * callback)%type.

(** ** Run-time state *)

Record state := State {
  clock : Z;
  heap : list pcell;
  flags : list bool;
  ticks : list callback;
  jobs : list job;
  timers : list timer;
  sink : list report;
  crashed : option value
}.

Definition init : state := State 0 [] [] [] [] [] [] None.

Definition with_clock (t : Z) (s : state) : state :=
  State t (heap s) (flags s) (ticks s) (jobs s) (timers s) (sink s) (crashed s).
Definition with_heap (h : list pcell) (s : state) : state :=
  State (clock s) h (flags s) (ticks s) (jobs s) (timers s) (sink s) (crashed s).
Definition with_flags (f : list bool) (s : state) : state :=
  State (clock s) (heap s) f (ticks s) (jobs s) (timers s) (sink s) (crashed s).
Definition with_ticks (q : list callback) (s : state) : state :=
  State (clock s) (heap s) (flags s) q (jobs s) (timers s) (sink s) (crashed s).
Definition with_jobs (q : list job) (s : state) : state :=
  State (clock s) (heap s) (flags s) (ticks s) q (timers s) (sink s) (crashed s).
Definition with_timers (q : list timer) (s : state) : state :=
  State (clock s) (heap s) (flags s) (ticks s) (jobs s) q (sink s) (crashed s).
Definition with_sink (l : list report) (s : state) : state :=
  State (clock s) (heap s) (flags s) (ticks s) (jobs s) (timers s) l (crashed s).
Definition with_crashed (c : option value) (s : state) : state :=
  State (clock s) (heap s) (flags s) (ticks s) (jobs s) (timers s) (sink s) c.

(** [console.log] / [console.trace]. *)
Definition console (r : report) (s : state) : state :=
  with_sink (sink s ++ [r]) s.

Definition promise_state (p : nat) (s : state) : option pstate :=
  settlement <$> heap s !! p.

(** A closure boolean; [var b = false] allocates one. *)
Definition flag (i : nat) (s : state) : bool :=
  default false (flags s !! i).

Definition new_flag (s : state) : nat * state :=
  (length (flags s), with_flags (flags s ++ [false]) s).

Definition set_flag (i : nat) (s : state) : state :=
  with_flags (<[i := true]> (flags s)) s.

(** ** The promise contract *)

Definition reaction_job (r : settled) (k : reaction) : job :=
  match r with
  | Fulfilled _ => Job (onFulfilled k) r (derived k)
  | Rejected _ => Job (onRejected k) r (derived k)
  end.

(** First settlement wins; a later one is a no-op. *)
Definition settle (p : nat) (r : settled) (s : state) : state :=
  match heap s !! p with
  | Some (PCell Pending ks) =>
      with_jobs (jobs s ++ (reaction_job r <$> ks))
        (with_heap (<[p := PCell (Settled r) []]> (heap s)) s)
  | _ => s
  end.

Definition new_cell (s : state) : nat * state :=
  (length (heap s), with_heap (heap s ++ [PCell Pending []]) s).

(** [p.then(onFulfilled, onRejected)] on a native promise. *)
Definition native_then (p : nat) (onF onR : option handler) (s : state)
  : nat * state :=
  let '(q, s1) := new_cell s in
  let k := Reaction onF onR q in
  match heap s1 !! p with
  | Some (PCell Pending ks) =>
      (q, with_heap (<[p := PCell Pending (ks ++ [k])]> (heap s1)) s1)
  | Some (PCell (Settled r) _) =>
      (q, with_jobs (jobs s1 ++ [reaction_job r k]) s1)
  | None => (q, s1)
  end.

(** [p.catch(h)] is [p.then(undefined, h)]. *)
Definition native_catch (p : nat) (h : option handler) (s : state)
  : nat * state :=
  native_then p None h s.

Definition run_handler (h : handler) (x : value) (s : state)
  : outcome * state :=
  match h with
  | UserFn f => (f x, s)
  | FaultObserver => (Return VUndefined, console (HandlerFault x) s)
  end.

Definition settled_value (r : settled) : value :=
  match r with Fulfilled v => v | Rejected e => e end.

Definition run_job (j : job) (s : state) : state :=
  match j with
  | Job None r target => settle target r s
  | Job (Some h) r target =>
      let '(o, s1) := run_handler h (settled_value r) s in
      match o with
      | Return v => settle target (Fulfilled v) s1
      | Throw e => settle target (Rejected e) s1
      end
  end.

(** ** Timers *)

(** Timers fire by due time, and in registration order among equals. *)
Fixpoint insert_timer (t : timer) (l : list timer) : list timer :=
  match l with
  | [] => [t]
  | u :: l' => if u.1 <=? t.1 then u :: insert_timer t l' else t :: l
  end.

(** The largest delay of a timer, [TIMEOUT_MAX] of Node: 2^31 - 1. *)
Definition TIMEOUT_MAX : Z := 2147483647.

(** The delay a timer runs with: Node runs a delay below 1 or above
    [TIMEOUT_MAX] as 1. *)
Definition timer_delay (delay : Z) : Z :=
  if (1 <=? delay) && (delay <=? TIMEOUT_MAX) then delay else 1.

(** [setTimeout(cb, delay)]. *)
Definition set_timeout (cb : callback) (delay : Z) (s : state) : state :=
  with_timers (insert_timer (clock s + timer_delay delay, cb) (timers s)) s.

Definition next_tick (cb : callback) (s : state) : state :=
  with_ticks (ticks s ++ [cb]) s.

(** ** Calling function values *)

Definition multiple_fulfill : value :=
  VError "promise is fulfilled multiple time".

Definition timeout_error : value := VError "timeout error".

(** double-fulfill.js, the function returned by [wrap(fulfill)]:
    [if(fulfilled) errHandler(...); fulfilled = true; fulfill(val)]. *)
Definition note_call (fulfilled : nat) (s : state) : state :=
  set_flag fulfilled
    (if flag fulfilled s then console (Reported multiple_fulfill) s else s).

Fixpoint call_fn (f : fn) (val : value) (s : state) : state :=
  match f with
  | NativeResolve p => settle p (Fulfilled val) s
  | NativeReject p => settle p (Rejected val) s
  | Wrap fulfilled fulfill => call_fn fulfill val (note_call fulfilled s)
  end.

Definition do_call (resolve reject : fn) (s : state) (c : call) : state :=
  call_fn (match callee c with Resolve => resolve | Reject => reject end)
    (arg c) s.

Definition run_calls (resolve reject : fn) (cs : list call) (s : state)
  : state :=
  foldl (do_call resolve reject) s cs.

(** One statement of [construct(resolve, reject)]; [dom] is the domain the
    code runs in, which a deferred callback stays bound to. *)
Definition run_stmt (resolve reject : fn) (dom : option domain) (s : state)
  (st : stmt) : state :=
  match st with
  | Do c => do_call resolve reject s c
  | SetTimeout b delay => set_timeout (Deferred resolve reject dom b) delay s
  | NextTick b => next_tick (Deferred resolve reject dom b) s
  end.

Definition run_script (resolve reject : fn) (dom : option domain)
  (construct : script) (s : state) : state :=
  foldl (run_stmt resolve reject dom) s construct.

(** [new Promise(executor)]. *)
Definition new_promise (executor : fn → fn → state → state) (s : state)
  : nat * state :=
  let '(p, s1) := new_cell s in
  (p, executor (NativeResolve p) (NativeReject p) s1).

Definition call_result (c : call) : settled :=
  match callee c with
  | Resolve => Fulfilled (arg c)
  | Reject => Rejected (arg c)
  end.

(** The settlement a run of synchronous calls leaves: the first one. *)
Definition first_call (cs : list call) : pstate :=
  match cs with
  | [] => Pending
  | c :: _ => Settled (call_result c)
  end.

(** ** timeout.js *)

Definition timeoutPromise (timeout : Z) (construct : script) (s : state)
  : nat * state :=
  new_promise (λ resolve reject s,
    set_timeout (ForceReject reject) timeout
      (run_script resolve reject None construct s)) s.

(** ** double-fulfill.js *)

Definition detectDoubleFulfilledPromise (construct : script) (s : state)
  : nat * state :=
  new_promise (λ resolve reject s,
    let '(fulfilled, s1) := new_flag s in
    run_script (Wrap fulfilled resolve) (Wrap fulfilled reject) None
      construct s1) s.

(** ** domain.js *)

(** The listener of [domain.on('error', ...)]:
    [reject(err); errorHandler(err)]. *)
Definition on_domain_error (d : domain) (err : value) (s : state) : state :=
  match d with
  | Domain reject => console (Reported err) (call_fn reject err s)
  end.

Definition domainProtectedPromise (construct : script) (s : state)
  : nat * state :=
  new_promise (λ resolve reject s,
    run_script resolve reject (Some (Domain reject)) construct s) s.

(** ** uncaught.js *)

Definition truthy (b : option bool) : bool := default false b.

(** The body of [detectUncaughtPromise] outside the two methods; [callers]
    is the call stack the function was entered from. *)
Definition detectUncaughtPromise (promise : obj) (timeout : Z)
  (prevCaught : option bool) (callers : trace) (s : state) : obj * state :=
  let '(chained, s1) := new_flag s in
  let stack := InDetectUncaught :: callers in
  (Wrapped chained promise timeout,
   set_timeout (DeadlineCheck chained promise prevCaught stack) timeout s1).

(** [o.then(onResolved, onRejected)]: the native method on a native promise,
    [wrappedPromise.then] on a wrapped one. *)
Fixpoint obj_then (o : obj) (onResolved onRejected : option handler)
  (callers : trace) (s : state) : obj * state :=
  match o with
  | Native p =>
      let '(q, s1) := native_then p onResolved onRejected s in (Native q, s1)
  | Wrapped chained promise timeout =>
      let s1 := set_flag chained s in
      let nextCaught :=
        match onRejected with Some _ => true | None => false end in
      let '(newPromise, s2) :=
        obj_then promise onResolved onRejected (InWrappedThen :: callers) s1 in
      detectUncaughtPromise newPromise timeout (Some nextCaught)
        (InWrappedThen :: callers) s2
  end.

(** [o.catch(errHandler)]. *)
Fixpoint obj_catch (o : obj) (errHandler : option handler)
  (callers : trace) (s : state) : obj * state :=
  match o with
  | Native p =>
      let '(q, s1) := native_catch p errHandler s in (Native q, s1)
  | Wrapped chained promise timeout =>
      let s1 := set_flag chained s in
      let '(newPromise, s2) :=
        obj_catch promise errHandler (InWrappedCatch :: callers) s1 in
      detectUncaughtPromise newPromise timeout (Some true)
        (InWrappedCatch :: callers) s2
  end.

(** The function handed to [setTimeout] in [detectUncaughtPromise]. *)
Definition deadline_check (chained : nat) (promise : obj)
  (prevCaught : option bool) (stack : trace) (s : state) : state :=
  if flag chained s then s
  else if negb (truthy prevCaught) then console (UncaughtTerminal stack) s
  else (obj_catch promise (Some FaultObserver) [InDeadlineCheck] s).2.

(** ** The [createPromise] of each file *)

Module Timeout.

Definition createPromise (construct : script) (s : state) : nat * state :=
  timeoutPromise 1000 construct s.

End Timeout.

Module DoubleFulfill.

Definition createPromise (construct : script) (s : state) : nat * state :=
  detectDoubleFulfilledPromise construct s.

End DoubleFulfill.

Module Domain.

Definition createPromise (construct : script) (s : state) : nat * state :=
  domainProtectedPromise construct s.

End Domain.

Module Uncaught.

(** Called from [site]. *)
Definition createPromise (construct : script) (site : string) (s : state)
  : obj * state :=
  let '(p, s1) :=
    new_promise (λ resolve reject, run_script resolve reject None construct)
      s in
  detectUncaughtPromise (Native p) 1000 None [InCreatePromise; AtSite site] s1.

End Uncaught.

(** ** The event loop *)

Definition fire (cb : callback) (s : state) : state :=
  match cb with
  | DeadlineCheck chained promise prevCaught stack =>
      deadline_check chained promise prevCaught stack s
  | ForceReject reject => call_fn reject timeout_error s
  | Deferred resolve reject dom b =>
      let s1 := run_calls resolve reject (calls b) s in
      match throws b, dom with
      | None, _ => s1
      | Some err, Some d => on_domain_error d err s1
      | Some err, None => with_crashed (Some err) s1
      end
  end.

(** One turn: the nextTick queue first, then promise jobs, then the earliest
    timer. [None] when nothing is left to run, or the process died of an
    uncaught exception. *)
Definition step (s : state) : option state :=
  match crashed s with
  | Some _ => None
  | None =>
      match ticks s, jobs s, timers s with
      | cb :: q, _, _ => Some (fire cb (with_ticks q s))
      | [], j :: q, _ => Some (run_job j (with_jobs q s))
      | [], [], (due, cb) :: q =>
          Some (fire cb (with_clock (Z.max (clock s) due) (with_timers q s)))
      | [], [], [] => None
      end
  end.

Fixpoint run (fuel : nat) (s : state) : state :=
  match fuel with
  | O => s
  | S n => match step s with Some s' => run n s' | None => s end
  end.

(** As [step], but no timer due after [t] fires. *)
Definition step_until (t : Z) (s : state) : option state :=
  match ticks s, jobs s, timers s with
  | [], [], (due, _) :: _ => if due <=? t then step s else None
  | _, _, _ => step s
  end.

Fixpoint run_until (t : Z) (fuel : nat) (s : state) : state :=
  match fuel with
  | O => s
  | S n => match step_until t s with Some s' => run_until t n s' | None => s end
  end.

Definition quiescent (s : state) : Prop := step s = None.

(** ** Counting console output *)

Definition count_reports (f : report → bool) (s : state) : nat :=
  length (filter (λ r, f r = true) (sink s)).

(** ** Relations between states *)

(** A settled promise keeps its settlement and a closure boolean that is
    [true] stays [true]: nothing in the four files resets either. *)
Definition evolves (s s' : state) : Prop :=
  (∀ p r, promise_state p s = Some (Settled r) →
          promise_state p s' = Some (Settled r)) ∧
  (∀ i, flag i s = true → flag i s' = true) ∧
  (length (flags s) ≤ length (flags s'))%nat.

(** What the code around the wrapper can observe: everything but the
    wrapper's own boolean and the console. *)
Definition same_outside (s s' : state) : Prop :=
  clock s = clock s' ∧ heap s = heap s' ∧ ticks s = ticks s' ∧
  jobs s = jobs s' ∧ timers s = timers s' ∧ crashed s = crashed s'.

(** A deferred callback of a construction function run as it is, and the
    same callback of the same function run by
    [detectDoubleFulfilledPromise] with boolean [i]. *)
Definition cb_sim (i p : nat) (cb cb' : callback) : Prop :=
  ∃ b, cb = Deferred (NativeResolve p) (NativeReject p) None b ∧
       cb' = Deferred (Wrap i (NativeResolve p)) (Wrap i (NativeReject p))
               None b.

Definition timer_sim (i p : nat) (t t' : timer) : Prop :=
  t.1 = t'.1 ∧ cb_sim i p t.2 t'.2.

(** The run of [new Promise(construct)] and the run of
    [detectDoubleFulfilledPromise(construct)], turn by turn: the same but
    for the wrapper's boolean, the console and the callbacks captured. *)
Definition sim (i p : nat) (s s' : state) : Prop :=
  clock s = clock s' ∧ heap s = heap s' ∧ jobs s = jobs s' ∧
  crashed s = crashed s' ∧
  Forall2 (cb_sim i p) (ticks s) (ticks s') ∧
  Forall2 (timer_sim i p) (timers s) (timers s').

(** What the program and the event loop may do next. *)
Inductive later : state → state → Prop :=
| later_now s : later s s
| later_turn s s' s'' : step s = Some s' → later s' s'' → later s s''
| later_then o onResolved onRejected callers s s'' :
    later (obj_then o onResolved onRejected callers s).2 s'' → later s s''
| later_catch o errHandler callers s s'' :
    later (obj_catch o errHandler callers s).2 s'' → later s s''
| later_create construct site s s'' :
    later (Uncaught.createPromise construct site s).2 s'' → later s s''.

(** A registration on a wrapped promise: either method. *)
Inductive registered (w : obj) (s : state) : state → Prop :=
| registered_then onResolved onRejected callers :
    registered w s (obj_then w onResolved onRejected callers s).2
| registered_catch errHandler callers :
    registered w s (obj_catch w errHandler callers s).2.

(** ** Vocabulary of the statements *)

Definition then_stack (site : string) : trace :=
  [InDetectUncaught; InWrappedThen; AtSite site].

Definition root_stack (site : string) : trace :=
  [InDetectUncaught; InCreatePromise; AtSite site].

(** A statement that schedules its settlement calls for later than [D]:
    a timer that runs with a delay above [D]. *)
Definition settles_after (D : Z) (st : stmt) : bool :=
  match st with
  | SetTimeout _ delay => D <? timer_delay delay
  | _ => false
  end.

(** A deferred callback of [construct], bound to the domain of promise
    [p], that makes the calls [cs] and then throws [err]. *)
Definition faulty (p : nat) (cs : list call) (err : value) : callback :=
  Deferred (NativeResolve p) (NativeReject p)
    (Some (Domain (NativeReject p))) (Body cs (Some err)).

(** [detectUncaughtPromise(new Promise(construct), 1000, prevCaught)]. *)
Definition wrapped_once (construct : script) (prevCaught : option bool)
  (callers : trace) (s : state) : obj * state :=
  let '(p, s1) :=
    new_promise (λ resolve reject, run_script resolve reject None construct)
      s in
  detectUncaughtPromise (Native p) 1000 prevCaught callers s1.

(** The detector applied to its own result, same deadline. *)
Definition wrapped_twice (construct : script) (prevCaught : option bool)
  (callers1 callers2 : trace) (s : state) : obj * state :=
  let '(w, s1) := wrapped_once construct prevCaught callers1 s in
  detectUncaughtPromise w 1000 prevCaught callers2 s1.

(** Console lines once the event loop has nothing left to run. *)
Definition emitted (s : state) : nat := length (sink (run 12 s)).

Definition then_on (ws : obj * state) (onResolved onRejected : option handler)
  (callers : trace) : obj * state :=
  obj_then ws.1 onResolved onRejected callers ws.2.

Definition catch_on (ws : obj * state) (errHandler : option handler)
  (callers : trace) : obj * state :=
  obj_catch ws.1 errHandler callers ws.2.

(** What one wrapper reports for a link that is never chained. *)
Definition terminal_report (prevCaught : option bool) (st : pstate)
  (stack : trace) : list report :=
  if truthy prevCaught then
    match st with
    | Settled (Rejected e) => [HandlerFault e]
    | _ => []
    end
  else [UncaughtTerminal stack].

Definition body_calls (cb : callback) : list call :=
  match cb with
  | Deferred _ _ _ b => calls b
  | _ => []
  end.

(** The calls still to come, in the order the event loop will make them. *)
Definition scheduled_calls (s : state) : list call :=
  concat (body_calls <$> ticks s) ++ concat (body_calls <$> (snd <$> timers s)).

Fixpoint sync_calls (construct : script) : list call :=
  match construct with
  | [] => []
  | Do c :: rest => c :: sync_calls rest
  | _ :: rest => sync_calls rest
  end.

Definition never_throws (st : stmt) : bool :=
  match st with
  | Do _ => true
  | SetTimeout b _ | NextTick b =>
      match throws b with None => true | Some _ => false end
  end.

(** A callback of a construction function run by
    [detectDoubleFulfilledPromise] for promise [p] and boolean [i]. *)
Definition wrapped_cb (i p : nat) (cb : callback) : Prop :=
  ∃ cs, cb = Deferred (Wrap i (NativeResolve p)) (Wrap i (NativeReject p))
               None (Body cs None).

(** The detector's state after the calls [made]: one promise, one
    boolean, no reaction, one report for each call but the first. *)
Definition after_calls (made : list call) (s : state) : Prop :=
  heap s = [PCell (first_call made) []] ∧
  flags s = [match made with [] => false | _ => true end] ∧
  jobs s = [] ∧ crashed s = None ∧
  sink s = replicate (length made - 1) (Reported multiple_fulfill) ∧
  Forall (wrapped_cb 0 0) (ticks s) ∧
  Forall (λ t : timer, wrapped_cb 0 0 t.2) (timers s).

(** How many times a construction function calls [resolve] or [reject],
    now or later. *)
Fixpoint total_calls (construct : script) : nat :=
  match construct with
  | [] => 0
  | Do _ :: rest => S (total_calls rest)
  | SetTimeout b _ :: rest | NextTick b :: rest =>
      length (calls b) + total_calls rest
  end.

Definition scheduled (s : state) : nat := length (scheduled_calls s).

(** ** Runs in which no observer is attached *)

Definition native (f : fn) : Prop :=
  match f with Wrap _ _ => False | _ => True end.

Definition user_handler (h : option handler) : Prop :=
  h ≠ Some FaultObserver.

Definition quiet_reaction (k : reaction) : Prop :=
  user_handler (onFulfilled k) ∧ user_handler (onRejected k).

Definition quiet_cell (c : pcell) : Prop := Forall quiet_reaction (reactions c).

Definition quiet_job (j : job) : Prop :=
  match j with Job h _ _ => user_handler h end.

(** A callback that writes to the console only as an unchained deadline
    check without an error handler before it. *)
Definition quiet_cb (cb : callback) : Prop :=
  match cb with
  | DeadlineCheck _ _ prevCaught _ => truthy prevCaught = false
  | ForceReject reject => native reject
  | Deferred resolve reject _ b =>
      native resolve ∧ native reject ∧ throws b = None
  end.

Definition quiet_store (s : state) : Prop :=
  Forall quiet_cell (heap s) ∧ Forall quiet_job (jobs s).

Definition quiet (s : state) : Prop :=
  crashed s = None ∧ quiet_store s ∧
  Forall quiet_cb (ticks s) ∧ Forall (λ t : timer, quiet_cb t.2) (timers s).

(** What a scheduled callback will write, the booleans being [fl]. *)
Definition due_report (fl : list bool) (cb : callback) : list report :=
  match cb with
  | DeadlineCheck chained _ _ stack =>
      if default false (fl !! chained) then [] else [UncaughtTerminal stack]
  | _ => []
  end.

Definition pending_reports (s : state) : list report :=
  (ticks s ++ (snd <$> timers s)) ≫= due_report (flags s).

(** Reactions registered and not yet turned into jobs. *)
Fixpoint reaction_count (h : list pcell) : nat :=
  match h with
  | [] => 0
  | c :: h' => length (reactions c) + reaction_count h'
  end.

(** Turns left at most: callbacks, jobs, and reactions not yet jobs. *)
Definition weight (s : state) : nat :=
  (length (ticks s) + length (jobs s) + length (timers s)
   + reaction_count (heap s))%nat.

(** A change of the promise heap and the job queue alone, which keeps the
    weight. *)
Definition settles (s s' : state) : Prop :=
  clock s' = clock s ∧ sink s' = sink s ∧ flags s' = flags s ∧
  ticks s' = ticks s ∧ timers s' = timers s ∧ crashed s' = crashed s ∧
  (quiet_store s → quiet_store s') ∧
  (length (jobs s') + reaction_count (heap s')
   = length (jobs s) + reaction_count (heap s))%nat.

(** Nothing that may run by time [t] writes to the console. *)
Definition silent_until (t : Z) (s : state) : Prop :=
  Forall (λ cb, due_report (flags s) cb = []) (ticks s) ∧
  Forall (λ u : timer, u.1 ≤ t → due_report (flags s) u.2 = []) (timers s).

(** A callback deferred by a construction function run for promise [p]
    outside any wrapper, which does not throw. *)
Definition user_cb (p : nat) (cb : callback) : Prop :=
  ∃ cs, cb = Deferred (NativeResolve p) (NativeReject p) None (Body cs None).

(** The state [new Promise(construct)] leaves when run first: one promise,
    nothing else but the callbacks [construct] deferred. *)
Definition fresh_root (s : state) : Prop :=
  ∃ st, heap s = [PCell st []] ∧ jobs s = [] ∧ flags s = [] ∧ sink s = [] ∧
        crashed s = None ∧ clock s = 0 ∧
        Forall (user_cb 0) (ticks s) ∧
        Forall (λ t : timer, user_cb 0 t.2) (timers s).

(** ** One promise and the callbacks its construction function deferred *)

(** What a callback amounts to for its promise when it fires, as settlement
    calls: its own, then the [reject(err)] of the domain listener when it
    throws inside a domain; the timeout callback is one [reject]. *)
Definition effects (cb : callback) : list call :=
  match cb with
  | Deferred _ _ dom b =>
      calls b ++
      match throws b, dom with
      | Some err, Some _ => [Call Reject err]
      | _, _ => []
      end
  | ForceReject _ => [Call Reject timeout_error]
  | DeadlineCheck _ _ _ _ => []
  end.

(** What the domain listener hands to the error handler. *)
Definition faults (cb : callback) : list report :=
  match cb with
  | Deferred _ _ (Some _) b =>
      match throws b with Some err => [Reported err] | None => [] end
  | _ => []
  end.

(** The callbacks still to run, in the order the event loop takes them. *)
Definition timeline (s : state) : list callback :=
  ticks s ++ (snd <$> timers s).

(** The errors the deferred callbacks of a statement throw. *)
Definition thrown_by (st : stmt) : list value :=
  match st with
  | Do _ => []
  | SetTimeout b _ | NextTick b =>
      match throws b with Some err => [err] | None => [] end
  end.

(** A callback of [timeoutPromise] or [domainProtectedPromise] for promise
    [p]: it holds the native callbacks of [p], and when it may throw it is
    bound to the domain of [p]. *)
Definition owned (p : nat) (cb : callback) : Prop :=
  match cb with
  | Deferred resolve reject dom b =>
      resolve = NativeResolve p ∧ reject = NativeReject p ∧
      (dom = Some (Domain (NativeReject p)) ∨ throws b = None)
  | ForceReject reject => reject = NativeReject p
  | DeadlineCheck _ _ _ _ => False
  end.

(** The state of a program that made one promise and registered nothing on
    it, after the settlement calls [made] and the console lines [out]. *)
Definition lone (made : list call) (out : list report) (s : state) : Prop :=
  heap s = [PCell (first_call made) []] ∧ jobs s = [] ∧ crashed s = None ∧
  sink s = out ∧
  Forall (owned 0) (ticks s) ∧ Forall (λ t : timer, owned 0 t.2) (timers s).

(** Timers in firing order. *)
Fixpoint by_due (l : list timer) : Prop :=
  match l with
  | [] => True
  | t :: l' => Forall (λ u : timer, t.1 ≤ u.1) l' ∧ by_due l'
  end.

(** The books of [detectDoubleFulfilledPromise] after [n] calls of the
    wrapped callbacks, whatever else settled the promise. *)
Definition counted (n : nat) (s : state) : Prop :=
  (∃ st, heap s = [PCell st []]) ∧
  flags s = [match n with O => false | _ => true end] ∧
  jobs s = [] ∧ crashed s = None ∧
  sink s = replicate (n - 1) (Reported multiple_fulfill) ∧
  Forall (wrapped_cb 0 0) (ticks s) ∧
  Forall (λ t : timer, wrapped_cb 0 0 t.2) (timers s).

(** ** Construction functions that throw *)

(** timeout.js and double-fulfill.js once more, for a construction function
    that may end by throwing: [thrown] is what [construct] throws, if
    anything, after its statements. The exception leaves the executor at
    the call of [construct], and [new Promise] turns it into
    [reject(thrown)]. *)
Module Abrupt.

Definition new_promise (executor : fn → fn → state → option value * state)
  (s : state) : nat * state :=
  let '(p, s1) := new_cell s in
  let '(thrown, s2) := executor (NativeResolve p) (NativeReject p) s1 in
  (p, match thrown with
      | Some err => call_fn (NativeReject p) err s2
      | None => s2
      end).

Definition run_construct (resolve reject : fn) (dom : option domain)
  (construct : script) (thrown : option value) (s : state)
  : option value * state :=
  (thrown, run_script resolve reject dom construct s).

Definition timeoutPromise (timeout : Z) (construct : script)
  (thrown : option value) (s : state) : nat * state :=
  new_promise (λ resolve reject s,
    match run_construct resolve reject None construct thrown s with
    | (Some err, s1) => (Some err, s1)
    | (None, s1) => (None, set_timeout (ForceReject reject) timeout s1)
    end) s.

Definition detectDoubleFulfilledPromise (construct : script)
  (thrown : option value) (s : state) : nat * state :=
  new_promise (λ resolve reject s,
    let '(fulfilled, s1) := new_flag s in
    run_construct (Wrap fulfilled resolve) (Wrap fulfilled reject) None
      construct thrown s1) s.

End Abrupt.

(** ** Chains of registrations *)

(** One [.then(onResolved, onRejected)] or [.catch(errHandler)] of a
    chain, with the place it is written at; a handler left out is
    [undefined]. *)
Inductive link :=
| Then (onResolved onRejected : option (value → outcome)) (site : string)
| Catch (errHandler : option (value → outcome)) (site : string).

Definition register (ws : obj * state) (l : link) : obj * state :=
  match l with
  | Then onResolved onRejected site =>
      obj_then ws.1 (UserFn <$> onResolved) (UserFn <$> onRejected)
        [AtSite site] ws.2
  | Catch errHandler site =>
      obj_catch ws.1 (UserFn <$> errHandler) [AtSite site] ws.2
  end.

(** [w.then(...).catch(...)...]: each registration on what the one before
    returned. *)
Definition chain (ws : obj * state) (links : list link) : obj * state :=
  foldl register ws links.

(** The stack a link's wrap call captures. *)
Definition link_stack (l : link) : trace :=
  match l with
  | Then _ _ site => [InDetectUncaught; InWrappedThen; AtSite site]
  | Catch _ site => [InDetectUncaught; InWrappedCatch; AtSite site]
  end.

(** [nextCaught] of [wrappedPromise.then]; [true] in
    [wrappedPromise.catch]. *)
Definition caught (l : link) : bool :=
  match l with
  | Then _ (Some _) _ => true
  | Then _ None _ => false
  | Catch _ _ => true
  end.

(** The handlers a link registers. *)
Definition on_fulfilled (l : link) : option (value → outcome) :=
  match l with
  | Then onResolved _ _ => onResolved
  | Catch _ _ => None
  end.

Definition on_rejected (l : link) : option (value → outcome) :=
  match l with
  | Then _ onRejected _ => onRejected
  | Catch errHandler _ => errHandler
  end.

Definition link_reaction (l : link) (q : nat) : reaction :=
  Reaction (UserFn <$> on_fulfilled l) (UserFn <$> on_rejected l) q.

(** How a settlement passes a link, by the promise contract: the handler
    for it decides, a missing handler lets it through. *)
Definition through (r : settled) (l : link) : settled :=
  match
    match r with Fulfilled _ => on_fulfilled l | Rejected _ => on_rejected l end
  with
  | None => r
  | Some h =>
      match h (settled_value r) with
      | Return v => Fulfilled v
      | Throw e => Rejected e
      end
  end.

(** What the last promise of [p.then(...).catch(...)...] comes to, [p]
    being in state [st]. *)
Definition chain_result (st : pstate) (links : list link) : pstate :=
  match st with
  | Pending => Pending
  | Settled r => Settled (foldl through r links)
  end.

(** A deadline check that stays silent when the booleans below [n] are
    set. *)
Definition below (n : nat) (cb : callback) : Prop :=
  match cb with
  | DeadlineCheck chained _ _ _ => (chained < n)%nat
  | _ => True
  end.

(** A wrapped promise at the end of a chain without rejection handlers:
    its boolean is the only one not set. *)
Definition open_end (w : obj) (stack : trace) (s : state) : Prop :=
  ∃ i p prevCaught l,
    w = Wrapped i (Native p) 1000 ∧
    quiet s ∧ sink s = [] ∧ clock s = 0 ∧
    flags s = replicate i true ++ [false] ∧
    Forall (below i) (ticks s) ∧
    timers s
    = insert_timer (1000, DeadlineCheck i (Native p) prevCaught stack) l ∧
    Forall (λ u : timer, below i u.2) l.

(** The cells of promises [i], [i + 1], ..., each pending with the next
    link registered on it, the last with none. *)
Fixpoint pending_from (i : nat) (links : list link) : list pcell :=
  match links with
  | [] => [PCell Pending []]
  | l :: links' =>
      PCell Pending [link_reaction l (S i)] :: pending_from (S i) links'
  end.

(** The same cells once a settlement [r] has passed through. *)
Fixpoint settled_cells (r : settled) (links : list link) : list pcell :=
  PCell (Settled r) [] ::
  match links with
  | [] => []
  | l :: links' => settled_cells (through r l) links'
  end.

(** The deadline checks of the links made on promises [i], [i + 1], ... *)
Fixpoint checks_from (i : nat) (links : list link) : list timer :=
  match links with
  | [] => []
  | l :: links' =>
      (1000, DeadlineCheck (S i) (Native (S i)) (Some (caught l))
               (link_stack l)) :: checks_from (S i) links'
  end.

(** The state a chain on a promise made first, in state [st], is left in
    before the event loop runs. *)
Definition built (site : string) (st : pstate) (links : list link) : state :=
  State 0
    (match st, links with
     | Settled r, _ :: links' => PCell (Settled r) [] :: pending_from 1 links'
     | Settled r, [] => [PCell (Settled r) []]
     | Pending, _ => pending_from 0 links
     end)
    (replicate (length links) true ++ [false])
    []
    (match st, links with
     | Settled r, l :: _ => [reaction_job r (link_reaction l 1)]
     | _, _ => []
     end)
    ((1000, DeadlineCheck 0 (Native 0) None (root_stack site))
     :: checks_from 0 links)
    [] None.

(** ** Thenables *)

(** [resolve] handed an object with a [then] method. What the model takes
    from the promise contract (ECMAScript, Promise Resolve Functions and
    NewPromiseResolveThenableJob): the [resolve] and [reject] of one promise
    share an [alreadyResolved] record, which the first call of either sets
    and which turns every later call into a no-op; [resolve(thenable)]
    leaves the promise pending and queues a job that calls
    [thenable.then(resolvePromise, rejectPromise)] with a fresh pair of
    callbacks of the same promise; what [then] throws is handed to that
    [rejectPromise]. With plain values the record and the settlement go
    together, which is why the definitions above do without it. *)
Module Thenables.

(** [{then: function(resolvePromise, rejectPromise) { ... }}]: the method
    calls its arguments with plain values, [then_calls], and may end by
    throwing. *)
Record thenable := WithThen {
  then_calls : list call;
  then_throws : option value
}.

(** A settlement call of a construction function: one with a plain value,
    or [resolve(t)] for a thenable [t]. *)
Inductive xcall :=
| Plainly (c : call)
| ResolveWith (t : thenable).

Inductive pjob :=
| ReactionJob (j : job)
| ResolveThenableJob (p : nat) (t : thenable).

(** The run-time state with thenable jobs among the promise jobs: the jobs
    wait in [queue], in the order they were queued, and the job list of
    [base] is kept empty. *)
Record xstate := XState { base : state; queue : list pjob }.

Definition xinit : xstate := XState init [].

(** An operation of the model above, its new jobs moved to the queue. *)
Definition lift (f : state → state) (xs : xstate) : xstate :=
  let s := f (base xs) in
  XState (with_jobs [] s) (queue xs ++ (ReactionJob <$> jobs s)).

(** The pair [resolve], [reject] of promise [target] with its
    [alreadyResolved] record, under the [wrap] of double-fulfill.js for
    each boolean of [noted], outermost first. *)
Record callbacks := Callbacks {
  noted : list nat;
  already : nat;
  target : nat
}.

(** One call of [resolve] or [reject] of the pair: the bodies of the
    wrappers, then the native function. *)
Definition settle_call (cb : callbacks) (c : xcall) (xs : xstate) : xstate :=
  let xs1 :=
    foldl (λ x fulfilled, lift (note_call fulfilled) x) xs (noted cb) in
  if flag (already cb) (base xs1) then xs1
  else
    let xs2 := lift (set_flag (already cb)) xs1 in
    match c with
    | Plainly c => lift (settle (target cb) (call_result c)) xs2
    | ResolveWith t =>
        XState (base xs2) (queue xs2 ++ [ResolveThenableJob (target cb) t])
    end.

Definition run_xcalls (cb : callbacks) (cs : list xcall) (xs : xstate)
  : xstate :=
  foldl (λ x c, settle_call cb c x) xs cs.

(** [new Promise(executor)]. *)
Definition new_promise (executor : callbacks → xstate → xstate) (xs : xstate)
  : nat * xstate :=
  let '(p, s1) := new_cell (base xs) in
  let '(a, s2) := new_flag s1 in
  (p, executor (Callbacks [] a p) (XState s2 (queue xs))).

(** [wrap(resolve)] and [wrap(reject)] of double-fulfill.js. *)
Definition wrap (fulfilled : nat) (cb : callbacks) : callbacks :=
  Callbacks (fulfilled :: noted cb) (already cb) (target cb).

(** double-fulfill.js, for a construction function that makes the calls
    [construct]. *)
Definition detectDoubleFulfilledPromise (construct : list xcall)
  (xs : xstate) : nat * xstate :=
  new_promise (λ cb xs,
    let '(fulfilled, s1) := new_flag (base xs) in
    run_xcalls (wrap fulfilled cb) construct (XState s1 (queue xs))) xs.










(** The detector's state after its first call: the promise in state [st],
    the [alreadyResolved] record and the detector's boolean set, [n]
    reports, the jobs [q]. *)
Definition noted_state (st : pstate) (n : nat) (q : list pjob) : xstate :=
  XState
    (State 0 [PCell st []] [true; true] [] [] []
       (replicate n (Reported multiple_fulfill)) None) q.


(** [createPromise(construct).then(onResolved, onRejected)]. *)
Definition then_on (pxs : nat * xstate)
  (onResolved onRejected : option (value → outcome)) : nat * xstate :=
  let q := length (heap (base pxs.2)) in
  (q, lift (λ s, (native_then pxs.1 (UserFn <$> onResolved)
                    (UserFn <$> onRejected) s).2) pxs.2).

End Thenables.

(** ** The programs of the source files *)

Definition ex_reject1 : script := [Do (Call Reject (VNum 1))].

Definition ex_throwing (err : value) : outcome :=
  Throw (VError "error inside error handler").

Definition ex_recovering (err : value) : outcome := Return VUndefined.

(** A handler that only writes to the console. *)
Definition ex_logging (x : value) : outcome := Return VUndefined.

Definition ex_forgets : script := [].

Definition ex_async_error : script :=
  [NextTick (Body [] (Some (VError "async error")))].

Definition ex_root : nat * state :=
  new_promise (λ resolve reject, run_script resolve reject None ex_reject1)
    init.

Definition ex_wrapped : obj * state :=
  detectUncaughtPromise (Native ex_root.1) 1000 None
    [InCreatePromise; AtSite "uncaught.js:46"] ex_root.2.

Definition ex_chained : state :=
  (obj_then ex_wrapped.1 (Some (UserFn (λ _, Return VUndefined))) None
     [AtSite "uncaught.js:48"] ex_wrapped.2).2.

Definition ex_late_resolve : script :=
  [SetTimeout (Body [Call Resolve (VNum 1)] None) 2000].

Definition ex_site1 : trace := [InCreatePromise; AtSite "uncaught.js:46"].
Definition ex_site2 : trace := [AtSite "again"].

Definition ex_double_resolve : script :=
  [Do (Call Resolve (VNum 1)); Do (Call Resolve (VNum 2))].

Definition ex_resolve_once : script := [Do (Call Resolve (VNum 1))].

Definition ex_resolve_in (delay : Z) : script :=
  [SetTimeout (Body [Call Resolve (VNum 1)] None) delay].



(** * Properties *)

(** ** The delay of a timer *)

Lemma timer_delay_range (delay : Z) :
  1 ≤ delay ≤ TIMEOUT_MAX → timer_delay delay = delay.
Proof.
  intros [H1 H2]. unfold timer_delay.
  apply Z.leb_le in H1, H2. by rewrite H1, H2.
Qed.

Lemma timer_delay_bounds (delay : Z) : 1 ≤ timer_delay delay ≤ TIMEOUT_MAX.
Proof.
  unfold timer_delay.
  destruct (Z.leb_spec 1 delay), (Z.leb_spec delay TIMEOUT_MAX); simpl;
    unfold TIMEOUT_MAX in *; lia.
Qed.

Lemma timer_delay_out (delay : Z) :
  delay < 1 ∨ TIMEOUT_MAX < delay → timer_delay delay = 1.
Proof.
  intros H. unfold timer_delay.
  destruct (Z.leb_spec 1 delay), (Z.leb_spec delay TIMEOUT_MAX); simpl;
    try done; lia.
Qed.

Lemma timer_delay_le (delay : Z) : timer_delay delay ≤ Z.max 1 delay.
Proof.
  unfold timer_delay.
  destruct (Z.leb_spec 1 delay), (Z.leb_spec delay TIMEOUT_MAX); simpl; lia.
Qed.

(** ** What every operation preserves *)

Create HintDb evolve.

Lemma evolves_refl s : evolves s s.
Proof. by repeat split. Qed.

Lemma evolves_trans s1 s2 s3 : evolves s1 s2 → evolves s2 s3 → evolves s1 s3.
Proof. intros (H1 & H2 & H3) (H4 & H5 & H6); repeat split; eauto; lia. Qed.

Lemma evolves_same_stores s s' :
  heap s' = heap s → flags s' = flags s → evolves s s'.
Proof.
  intros Hh Hf; repeat split; unfold promise_state, flag;
    rewrite ?Hh, ?Hf; auto.
Qed.

Lemma evolves_heap s s' :
  flags s' = flags s →
  (∀ p r, promise_state p s = Some (Settled r) →
          promise_state p s' = Some (Settled r)) →
  evolves s s'.
Proof. intros Hf Hh; repeat split; unfold flag; rewrite ?Hf; auto. Qed.

Lemma evolves_flags s s' :
  heap s' = heap s →
  (∀ i, flag i s = true → flag i s' = true) →
  (length (flags s) ≤ length (flags s'))%nat →
  evolves s s'.
Proof. intros Hh Hf Hl; repeat split; unfold promise_state; rewrite ?Hh; auto. Qed.

Lemma evolves_console r s : evolves s (console r s).
Proof. by apply evolves_same_stores. Qed.

Lemma evolves_set_timeout cb d s : evolves s (set_timeout cb d s).
Proof. by apply evolves_same_stores. Qed.

Lemma evolves_next_tick cb s : evolves s (next_tick cb s).
Proof. by apply evolves_same_stores. Qed.

Lemma evolves_with_ticks q s : evolves s (with_ticks q s).
Proof. by apply evolves_same_stores. Qed.

Lemma evolves_with_jobs q s : evolves s (with_jobs q s).
Proof. by apply evolves_same_stores. Qed.

Lemma evolves_with_timers q s : evolves s (with_timers q s).
Proof. by apply evolves_same_stores. Qed.

Lemma evolves_with_clock t s : evolves s (with_clock t s).
Proof. by apply evolves_same_stores. Qed.

Lemma evolves_with_crashed c s : evolves s (with_crashed c s).
Proof. by apply evolves_same_stores. Qed.

Lemma flag_true_lt i s : flag i s = true → (i < length (flags s))%nat.
Proof.
  unfold flag; intros H. destruct (flags s !! i) eqn:E; [|done].
  by eapply lookup_lt_Some.
Qed.

Lemma evolves_set_flag i s : evolves s (set_flag i s).
Proof.
  apply evolves_flags; [done| |simpl; by rewrite length_insert].
  intros j Hj. unfold flag, set_flag in *; simpl.
  destruct (decide (i = j)) as [->|Hne].
  - rewrite list_lookup_insert_eq; [done|]. by apply flag_true_lt.
  - by rewrite list_lookup_insert_ne.
Qed.

Lemma evolves_new_flag s : evolves s (new_flag s).2.
Proof.
  apply evolves_flags; [done| |simpl; rewrite length_app; lia].
  intros j Hj. unfold flag in *; simpl.
  rewrite lookup_app_l; [done|]. by apply flag_true_lt.
Qed.

Lemma promise_state_lt p st s :
  promise_state p s = Some st → (p < length (heap s))%nat.
Proof.
  unfold promise_state; intros H.
  destruct (heap s !! p) eqn:E; [|done]. by eapply lookup_lt_Some.
Qed.

Lemma evolves_new_cell s : evolves s (new_cell s).2.
Proof.
  apply evolves_heap; [done|]. intros p r Hp. unfold promise_state in *; simpl.
  rewrite lookup_app_l; [done|]. by eapply promise_state_lt.
Qed.

Lemma evolves_settle p r s : evolves s (settle p r s).
Proof.
  unfold settle. destruct (heap s !! p) as [[[|r0] ks]|] eqn:E;
    try apply evolves_refl.
  apply evolves_heap; [done|].
  intros q r' Hq. unfold promise_state in *; simpl.
  destruct (decide (p = q)) as [->|Hne].
  - by rewrite E in Hq.
  - by rewrite list_lookup_insert_ne.
Qed.

Lemma evolves_native_then p onF onR s : evolves s (native_then p onF onR s).2.
Proof.
  unfold native_then.
  pose proof (evolves_new_cell s) as Hn.
  destruct (new_cell s) as [q s1] eqn:Eq; simpl in Hn.
  destruct (heap s1 !! p) as [[[|r0] ks]|] eqn:E; simpl; [| |done].
  - eapply evolves_trans; [exact Hn|].
    apply evolves_heap; [done|].
    intros q' r' Hq. unfold promise_state in *; simpl.
    destruct (decide (p = q')) as [->|Hne].
    + by rewrite E in Hq.
    + by rewrite list_lookup_insert_ne.
  - eapply evolves_trans; [exact Hn|]. apply evolves_with_jobs.
Qed.

Lemma evolves_note_call i s : evolves s (note_call i s).
Proof.
  unfold note_call. eapply evolves_trans; [|apply evolves_set_flag].
  destruct (flag i s); [apply evolves_console|apply evolves_refl].
Qed.

Lemma evolves_call_fn f v s : evolves s (call_fn f v s).
Proof.
  revert s; induction f as [p|p|i f IH]; intros s; simpl.
  - apply evolves_settle.
  - apply evolves_settle.
  - eapply evolves_trans; [apply evolves_note_call|apply IH].
Qed.

Lemma evolves_run_calls res rej cs s : evolves s (run_calls res rej cs s).
Proof.
  revert s; induction cs as [|c cs IH]; intros s; [apply evolves_refl|].
  simpl. eapply evolves_trans; [|apply IH]. apply evolves_call_fn.
Qed.

Lemma evolves_run_script res rej dom sc s :
  evolves s (run_script res rej dom sc s).
Proof.
  revert s; induction sc as [|st sc IH]; intros s; [apply evolves_refl|].
  simpl. eapply evolves_trans; [|apply IH].
  destruct st; simpl.
  - apply evolves_call_fn.
  - apply evolves_set_timeout.
  - apply evolves_next_tick.
Qed.

Lemma evolves_detectUncaughtPromise o t pc cs s :
  evolves s (detectUncaughtPromise o t pc cs s).2.
Proof.
  unfold detectUncaughtPromise. simpl.
  eapply evolves_trans; [apply evolves_new_flag|apply evolves_set_timeout].
Qed.

Lemma evolves_obj_then o onF onR cs s : evolves s (obj_then o onF onR cs s).2.
Proof.
  revert cs s; induction o as [p|i o IH t]; intros cs s; simpl.
  - pose proof (evolves_native_then p onF onR s).
    by destruct (native_then p onF onR s).
  - specialize (IH (InWrappedThen :: cs) (set_flag i s)).
    destruct (obj_then o onF onR (InWrappedThen :: cs) (set_flag i s))
      as [o' s2]; simpl in IH.
    eapply evolves_trans; [apply evolves_set_flag|].
    eapply evolves_trans; [exact IH|apply evolves_detectUncaughtPromise].
Qed.

Lemma evolves_obj_catch o h cs s : evolves s (obj_catch o h cs s).2.
Proof.
  revert cs s; induction o as [p|i o IH t]; intros cs s; simpl.
  - pose proof (evolves_native_then p None h s) as H. unfold native_catch.
    by destruct (native_then p None h s).
  - specialize (IH (InWrappedCatch :: cs) (set_flag i s)).
    destruct (obj_catch o h (InWrappedCatch :: cs) (set_flag i s))
      as [o' s2]; simpl in IH.
    eapply evolves_trans; [apply evolves_set_flag|].
    eapply evolves_trans; [exact IH|apply evolves_detectUncaughtPromise].
Qed.

Lemma evolves_deadline_check i o pc stk s :
  evolves s (deadline_check i o pc stk s).
Proof.
  unfold deadline_check. destruct (flag i s); [apply evolves_refl|].
  destruct (negb (truthy pc)); [apply evolves_console|apply evolves_obj_catch].
Qed.

Lemma evolves_fire cb s : evolves s (fire cb s).
Proof.
  destruct cb as [i o pc stk|rej|res rej dom [cs th]]; simpl.
  - apply evolves_deadline_check.
  - apply evolves_call_fn.
  - pose proof (evolves_run_calls res rej cs s) as H.
    destruct th as [err|]; [|done]. destruct dom as [[rej']|].
    + eapply evolves_trans; [exact H|]. simpl.
      eapply evolves_trans; [apply evolves_call_fn|apply evolves_console].
    + eapply evolves_trans; [exact H|apply evolves_with_crashed].
Qed.

Lemma evolves_run_job j s : evolves s (run_job j s).
Proof.
  destruct j as [[[f|]|] r tgt]; simpl.
  - destruct (f (settled_value r)); apply evolves_settle.
  - eapply evolves_trans; [apply evolves_console|apply evolves_settle].
  - apply evolves_settle.
Qed.

Lemma evolves_step s s' : step s = Some s' → evolves s s'.
Proof.
  unfold step. destruct (crashed s); [done|].
  destruct (ticks s) as [|cb q].
  - destruct (jobs s) as [|j q].
    + destruct (timers s) as [|[due cb] q]; [done|].
      intros [= <-]. eapply evolves_trans; [|apply evolves_fire].
      eapply evolves_trans; [apply evolves_with_timers|apply evolves_with_clock].
    + intros [= <-].
      eapply evolves_trans; [apply evolves_with_jobs|apply evolves_run_job].
  - intros [= <-].
    eapply evolves_trans; [apply evolves_with_ticks|apply evolves_fire].
Qed.

Lemma evolves_run n s : evolves s (run n s).
Proof.
  revert s; induction n as [|n IH]; intros s; simpl; [apply evolves_refl|].
  destruct (step s) as [s'|] eqn:E; [|apply evolves_refl].
  eapply evolves_trans; [by apply evolves_step|apply IH].
Qed.

#[export] Hint Resolve evolves_refl evolves_console evolves_set_timeout
  evolves_next_tick evolves_set_flag evolves_new_flag evolves_new_cell
  evolves_settle evolves_native_then evolves_call_fn evolves_run_calls
  evolves_run_script evolves_detectUncaughtPromise evolves_obj_then
  evolves_obj_catch evolves_deadline_check evolves_fire evolves_run_job
  evolves_run : evolve.

Lemma evolves_new_promise construct s :
  evolves s
    (new_promise (λ resolve reject, run_script resolve reject None construct)
       s).2.
Proof.
  unfold new_promise; simpl.
  eapply evolves_trans; [apply evolves_new_cell|]. auto with evolve.
Qed.

Lemma evolves_createPromise construct site s :
  evolves s (Uncaught.createPromise construct site s).2.
Proof.
  unfold Uncaught.createPromise.
  pose proof (evolves_new_promise construct s) as H.
  destruct (new_promise _ s) as [p s1]; simpl in H.
  eapply evolves_trans; [exact H|]. auto with evolve.
Qed.

Lemma later_evolves s s' : later s s' → evolves s s'.
Proof.
  induction 1 as [s|s s' s'' Hs _ IH|o f g cs s s'' _ IH|o h cs s s'' _ IH
                 |c site s s'' _ IH].
  - apply evolves_refl.
  - eapply evolves_trans; [by apply evolves_step|exact IH].
  - eapply evolves_trans; [apply evolves_obj_then|exact IH].
  - eapply evolves_trans; [apply evolves_obj_catch|exact IH].
  - eapply evolves_trans; [apply evolves_createPromise|exact IH].
Qed.

Lemma later_run n s : later s (run n s).
Proof.
  revert s; induction n as [|n IH]; intros s; simpl; [constructor|].
  destruct (step s) as [s'|] eqn:E; [|constructor].
  eapply later_turn; [exact E|apply IH].
Qed.

Lemma flag_set_flag i s :
  (i < length (flags s))%nat → flag i (set_flag i s) = true.
Proof.
  intros Hi. unfold flag, set_flag; simpl.
  by rewrite list_lookup_insert_eq.
Qed.

Lemma registered_sets_chained i o t s s' :
  (i < length (flags s))%nat → registered (Wrapped i o t) s s' →
  flag i s' = true.
Proof.
  intros Hi [f g cs|h cs]; simpl.
  - pose proof (evolves_obj_then o f g (InWrappedThen :: cs) (set_flag i s))
      as (_ & H & _).
    destruct (obj_then o f g _ (set_flag i s)) as [o' s2]; simpl in H.
    pose proof (evolves_detectUncaughtPromise o' t
      (Some (match g with Some _ => true | None => false end))
      (InWrappedThen :: cs) s2) as (_ & H' & _).
    apply H', H. by apply flag_set_flag.
  - pose proof (evolves_obj_catch o h (InWrappedCatch :: cs) (set_flag i s))
      as (_ & H & _).
    destruct (obj_catch o h _ (set_flag i s)) as [o' s2]; simpl in H.
    pose proof (evolves_detectUncaughtPromise o' t (Some true)
      (InWrappedCatch :: cs) s2) as (_ & H' & _).
    apply H', H. by apply flag_set_flag.
Qed.

(** ** Running to quiescence *)

Lemma run_quiescent n s : quiescent s → run n s = s.
Proof. unfold quiescent; intros H. destruct n; simpl; [done|by rewrite H]. Qed.

Lemma run_add n m s : run (n + m) s = run m (run n s).
Proof.
  revert s; induction n as [|n IH]; intros s; simpl; [done|].
  destruct (step s) as [s'|] eqn:E; [apply IH|].
  symmetry. by apply run_quiescent.
Qed.

Lemma run_settled n m s :
  quiescent (run n s) → (n ≤ m)%nat → run m s = run n s.
Proof.
  intros Hq Hle. replace m with (n + (m - n))%nat by lia.
  rewrite run_add. by apply run_quiescent.
Qed.

Lemma run_until_stuck t n s : step_until t s = None → run_until t n s = s.
Proof. intros H. destruct n; simpl; [done|by rewrite H]. Qed.

Lemma run_script_sync res rej dom cs s :
  run_script res rej dom (Do <$> cs) s = run_calls res rej cs s.
Proof. unfold run_script, run_calls. by rewrite foldl_fmap. Qed.

Lemma do_call_native p c s :
  do_call (NativeResolve p) (NativeReject p) s c = settle p (call_result c) s.
Proof. destruct c as [[] v]; reflexivity. Qed.

Lemma settle_settled p r r' ks s :
  heap s !! p = Some (PCell (Settled r') ks) → settle p r s = s.
Proof. intros H. unfold settle. by rewrite H. Qed.

Lemma run_calls_settled p r ks cs s :
  heap s !! p = Some (PCell (Settled r) ks) →
  run_calls (NativeResolve p) (NativeReject p) cs s = s.
Proof.
  intros H. induction cs as [|c cs IH]; [done|].
  simpl. rewrite do_call_native. by erewrite settle_settled.
Qed.

Lemma with_heap_new_cell (h : list pcell) c c' :
  <[length h := c']> (h ++ [c]) = h ++ [c'].
Proof.
  induction h as [|x h IH]; simpl; [done|]. by rewrite IH.
Qed.

Lemma new_promise_sync dom cs s :
  new_promise (λ resolve reject, run_script resolve reject dom (Do <$> cs)) s
  = (length (heap s), with_heap (heap s ++ [PCell (first_call cs) []]) s).
Proof.
  unfold new_promise; simpl. rewrite run_script_sync.
  destruct cs as [|c cs]; [done|]. simpl. rewrite do_call_native.
  unfold settle at 1; simpl.
  rewrite lookup_app_r, Nat.sub_diag by done. simpl.
  rewrite with_heap_new_cell, app_nil_r.
  erewrite run_calls_settled.
  - by destruct s.
  - simpl. by rewrite lookup_app_r, Nat.sub_diag by done.
Qed.

Lemma run_until_S t n s :
  run_until t (S n) s =
  match step_until t s with Some s' => run_until t n s' | None => s end.
Proof. reflexivity. Qed.

(** Evaluation of the event loop on a state known up to the values and
    handlers in it; [tac] rewrites with what is known of the handlers. *)
Ltac norm_until tac :=
  match goal with
  | |- context [step_until ?t ?s] =>
      let r := eval vm_compute in (step_until t s) in
      let H := fresh in
      assert (H : step_until t s = r) by (vm_compute; reflexivity);
      rewrite H; clear H; tac; cbv beta iota
  end.

Ltac solve_until tac :=
  let n := fresh "n" in
  intros n;
  repeat (destruct n as [|n]; [vm_compute; reflexivity|];
          rewrite run_until_S; norm_until tac);
  vm_compute; reflexivity.

Lemma run_S n s :
  run (S n) s = match step s with Some s' => run n s' | None => s end.
Proof. reflexivity. Qed.

Lemma run_0 s : run 0 s = s.
Proof. reflexivity. Qed.

Ltac norm_step tac :=
  match goal with
  | |- context [step ?s] =>
      let r := eval vm_compute in (step s) in
      let H := fresh in
      assert (H : step s = r) by (vm_compute; reflexivity);
      rewrite H; clear H; tac; cbv beta iota
  end.

Ltac eval_run tac := repeat (rewrite run_S; norm_step tac); rewrite ?run_0.

Ltac solve_always tac :=
  let n := fresh "n" in
  intros n;
  repeat (destruct n as [|n]; [vm_compute; reflexivity|];
          rewrite run_S; norm_step tac);
  vm_compute; reflexivity.

Ltac vm_norm t :=
  let r := eval vm_compute in t in
  let H := fresh in
  assert (H : t = r) by (vm_compute; reflexivity);
  rewrite H; clear H.

(** Evaluates the outermost wrap or registration call of the goal. *)
Ltac norm_call :=
  match goal with
  | |- context [detectUncaughtPromise ?a ?b ?c ?d ?e] =>
      vm_norm (detectUncaughtPromise a b c d e)
  | |- context [obj_then ?a ?b ?c ?d ?e] => vm_norm (obj_then a b c d e)
  | |- context [obj_catch ?a ?b ?c ?d] => vm_norm (obj_catch a b c d)
  end;
  cbv beta iota.

Lemma createPromise_sync cs site s :
  Uncaught.createPromise (Do <$> cs) site s
  = detectUncaughtPromise (Native (length (heap s))) 1000 None
      [InCreatePromise; AtSite site]
      (with_heap (heap s ++ [PCell (first_call cs) []]) s).
Proof. unfold Uncaught.createPromise. by rewrite new_promise_sync. Qed.

(** ** Timers *)

Lemma insert_timer_elem t l : t ∈ insert_timer t l.
Proof.
  induction l as [|u l IH]; simpl; [constructor|].
  destruct (u.1 <=? t.1); by constructor.
Qed.

Lemma insert_timer_Forall (P : timer → Prop) t l :
  P t → Forall P l → Forall P (insert_timer t l).
Proof.
  intros Ht Hl. induction Hl as [|u l Hu Hl IH]; simpl.
  - by constructor.
  - destruct (u.1 <=? t.1); repeat constructor; done.
Qed.

Lemma insert_timer_front t l :
  Forall (λ u : timer, t.1 < u.1) l → insert_timer t l = t :: l.
Proof.
  intros [|u l' Hu _]; simpl; [done|].
  destruct (Z.leb_spec u.1 t.1); [lia|done].
Qed.

(** ** Runs in which no observer is attached *)

Lemma settles_refl s : settles s s.
Proof. unfold settles. tauto. Qed.

Lemma settles_trans s1 s2 s3 : settles s1 s2 → settles s2 s3 → settles s1 s3.
Proof.
  intros (?&?&?&?&?&?&Hq&Hw) (?&?&?&?&?&?&Hq'&Hw').
  unfold settles. repeat (split; [congruence|]). split; [tauto|lia].
Qed.

Lemma reaction_count_insert (h : list pcell) p c c' :
  h !! p = Some c →
  (reaction_count (<[p := c']> h) + length (reactions c)
   = reaction_count h + length (reactions c'))%nat.
Proof.
  revert p; induction h as [|x h IH]; intros [|p] H; simpl in *; try done.
  - injection H as ->. lia.
  - specialize (IH p H). lia.
Qed.

Lemma quiet_reaction_job r k : quiet_reaction k → quiet_job (reaction_job r k).
Proof. intros [Hf Hr]. by destruct r. Qed.

Lemma settles_settle p r s : settles s (settle p r s).
Proof.
  unfold settle. destruct (heap s !! p) as [[[|r0] ks]|] eqn:E;
    try apply settles_refl.
  split; [done|]. split; [done|]. split; [done|]. split; [done|].
  split; [done|]. split; [done|]. split.
  - intros [Hh Hj]. split; simpl.
    + apply Forall_insert; [done|]. by constructor.
    + apply Forall_app. split; [done|]. apply Forall_fmap.
      eapply Forall_lookup_1 in Hh; [|exact E]. unfold quiet_cell in Hh.
      simpl in Hh. eapply Forall_impl; [exact Hh|].
      intros k Hk. by apply quiet_reaction_job.
  - simpl. rewrite length_app, length_fmap.
    pose proof (reaction_count_insert (heap s) p _ (PCell (Settled r) []) E).
    simpl in *. lia.
Qed.

Lemma settles_call_fn f v s : native f → settles s (call_fn f v s).
Proof. destruct f; [intros _|intros _|done]; apply settles_settle. Qed.

Lemma settles_run_calls res rej cs s :
  native res → native rej → settles s (run_calls res rej cs s).
Proof.
  intros Hres Hrej. revert s; induction cs as [|c cs IH]; intros s;
    [apply settles_refl|].
  simpl. eapply settles_trans; [|apply IH].
  unfold do_call. destruct (callee c); by apply settles_call_fn.
Qed.

Lemma quiet_fire cb s :
  quiet_cb cb → crashed s = None →
  let s' := fire cb s in
  crashed s' = None ∧ (quiet_store s → quiet_store s') ∧
  flags s' = flags s ∧ ticks s' = ticks s ∧ timers s' = timers s ∧
  sink s' = sink s ++ due_report (flags s) cb ∧
  (length (jobs s') + reaction_count (heap s')
   = length (jobs s) + reaction_count (heap s))%nat.
Proof.
  intros Hcb Hx. destruct cb as [i o pc stk|rej|res rej dom [cs th]];
    simpl in *.
  - unfold deadline_check, flag. rewrite Hcb.
    destruct (default false (flags s !! i)); simpl.
    + rewrite app_nil_r. tauto.
    + tauto.
  - destruct (settles_call_fn rej timeout_error s Hcb)
      as (?&?&?&?&?&?&?&?).
    rewrite app_nil_r. repeat (split; [congruence || done|]). done.
  - destruct Hcb as (Hres & Hrej & ->).
    destruct (settles_run_calls res rej cs s Hres Hrej)
      as (?&?&?&?&?&?&?&?).
    rewrite app_nil_r. repeat (split; [congruence || done|]). done.
Qed.

Lemma quiet_run_job j s : quiet_job j → settles s (run_job j s).
Proof.
  destruct j as [[[f|]|] r tgt]; simpl; intros Hj.
  - destruct (f (settled_value r)); apply settles_settle.
  - by destruct Hj.
  - apply settles_settle.
Qed.

Lemma quiet_step s s' :
  quiet s → step s = Some s' →
  quiet s' ∧ flags s' = flags s ∧ S (weight s') = weight s ∧
  sink s' ++ pending_reports s' = sink s ++ pending_reports s.
Proof.
  intros (Hx & Hst & Ht & Hm). unfold step. rewrite Hx.
  unfold weight, pending_reports.
  destruct (ticks s) as [|cb q] eqn:Et.
  - destruct (jobs s) as [|j js] eqn:Ej.
    + destruct (timers s) as [|[due cb] q] eqn:Em; [done|].
      intros [= <-]. apply Forall_cons in Hm as [Hcb Hq].
      destruct (quiet_fire cb
        (with_clock (Z.max (clock s) due) (with_timers q s)) Hcb Hx)
        as (Hx' & Hst' & Hf & Et' & Em' & Hs & Hw).
      unfold quiet. simpl in *. rewrite Et', Em', Hf, Hs, Et, Ej in *.
      simpl in *.
      split; [|split; [done|split; [lia|rewrite <- app_assoc; reflexivity]]].
      split; [done|]. split; [by apply Hst'|]. split; [constructor|done].
    + intros [= <-]. destruct Hst as [Hh Hj]. rewrite Ej in Hj.
      apply Forall_cons in Hj as [Hj Hjs].
      destruct (quiet_run_job j (with_jobs js s) Hj)
        as (_ & Hs & Hf & Et' & Em' & Hx' & Hst' & Hw).
      unfold quiet. simpl in *. rewrite Et', Em', Hf, Hs, Et in *.
      simpl in *.
      split; [|split; [done|split; [lia|done]]].
      split; [congruence|]. split; [by apply Hst'|].
      split; [constructor|done].
  - intros [= <-]. apply Forall_cons in Ht as [Hcb Hq].
    destruct (quiet_fire cb (with_ticks q s) Hcb Hx)
      as (Hx' & Hst' & Hf & Et' & Em' & Hs & Hw).
    unfold quiet. simpl in *. rewrite Et', Em', Hf, Hs in *. simpl in *.
    split; [|split; [done|split; [lia|rewrite <- app_assoc; reflexivity]]].
    split; [done|]. split; [by apply Hst'|]. by split.
Qed.

(** With no observer anywhere, the console ends with what the unchained
    deadline checks still scheduled will write, and the loop stops. *)
Lemma quiet_run n s :
  quiet s → (weight s ≤ n)%nat →
  quiescent (run n s) ∧ flags (run n s) = flags s ∧
  sink (run n s) = sink s ++ pending_reports s.
Proof.
  revert s; induction n as [|n IH]; intros s Hq Hw.
  - unfold weight in Hw.
    destruct (ticks s) eqn:Et; [|simpl in Hw; lia].
    destruct (jobs s) eqn:Ej; [|simpl in Hw; lia].
    destruct (timers s) eqn:Em; [|simpl in Hw; lia].
    destruct Hq as (Hx & _). simpl. unfold quiescent, step, pending_reports.
    rewrite Hx, Et, Ej, Em. simpl. by rewrite app_nil_r.
  - simpl. destruct (step s) as [s'|] eqn:E.
    + destruct (quiet_step s s' Hq E) as (Hq' & Hf & Hw' & Hs).
      destruct (IH s' Hq' ltac:(lia)) as (? & ? & ?).
      split; [done|]. split; [congruence|]. congruence.
    + split; [done|]. split; [done|].
      destruct Hq as (Hx & _). unfold step in E. rewrite Hx in E.
      unfold pending_reports.
      destruct (ticks s); [|done]. destruct (jobs s); [|done].
      destruct (timers s) as [|[] ?]; [|done]. simpl. by rewrite app_nil_r.
Qed.

Lemma quiet_run_until t n s :
  quiet s → silent_until t s → sink (run_until t n s) = sink s.
Proof.
  revert s; induction n as [|n IH]; intros s Hq [Ht Hm]; [done|].
  simpl. destruct (step_until t s) as [s'|] eqn:E; [|done].
  assert (Hstep : step s = Some s' ∧
    sink s' = sink s ∧ silent_until t s').
  { pose proof Hq as (Hx & Hst & Hqt & Hqm).
    unfold step_until in E. unfold step in *. rewrite Hx in *.
    destruct (ticks s) as [|cb q] eqn:Et.
    - destruct (jobs s) as [|j js] eqn:Ej.
      + destruct (timers s) as [|[due cb] q] eqn:Em; [done|].
        destruct (Z.leb_spec due t); [|done]. split; [done|].
        injection E as <-.
        apply Forall_cons in Hqm as [Hcb Hq'], Hm as [Hr Hm].
        destruct (quiet_fire cb
          (with_clock (Z.max (clock s) due) (with_timers q s)) Hcb Hx)
          as (_ & _ & Hf & Et' & Em' & Hs & _).
        simpl in *. rewrite Hs, Hr, app_nil_r by done.
        split; [done|]. unfold silent_until. rewrite Hf, Et', Em', Et.
        by split.
      + split; [done|]. injection E as <-.
        destruct Hst as [_ Hj]. rewrite Ej in Hj.
        apply Forall_cons in Hj as [Hj _].
        destruct (quiet_run_job j (with_jobs js s) Hj)
          as (_ & Hs & Hf & Et' & Em' & _).
        simpl in *. split; [done|]. unfold silent_until.
        rewrite Hf, Et', Em', Et. by split.
    - split; [done|]. injection E as <-.
      apply Forall_cons in Hqt as [Hcb _], Ht as [Hr Ht].
      destruct (quiet_fire cb (with_ticks q s) Hcb Hx)
        as (_ & _ & Hf & Et' & Em' & Hs & _).
      simpl in *. rewrite Hs, Hr, app_nil_r.
      split; [done|]. unfold silent_until. rewrite Hf, Et', Em'. by split. }
  destruct Hstep as (Hs & Hk & Hsil).
  destruct (quiet_step s s' Hq Hs) as (Hq' & _).
  rewrite IH by done. done.
Qed.

Lemma fresh_root_settle r s : fresh_root s → fresh_root (settle 0 r s).
Proof.
  intros (st & Hh & Hj & Hf & Hs & Hx & Hc & Ht & Hm).
  unfold settle. rewrite Hh. simpl. destruct st as [|r0].
  - exists (Settled r). simpl. rewrite Hj. by repeat split.
  - exists (Settled r0). by repeat split.
Qed.

Lemma fresh_root_script construct s :
  Forall (λ st, never_throws st = true) construct → fresh_root s →
  fresh_root (run_script (NativeResolve 0) (NativeReject 0) None construct s).
Proof.
  intros Hc. revert s. induction Hc as [|st construct Hst _ IH]; intros s H;
    [done|].
  simpl. apply IH. destruct st as [c|[cs th] delay|[cs th]]; simpl in *.
  - rewrite do_call_native. by apply fresh_root_settle.
  - destruct th; [done|].
    destruct H as (st & Hh & Hj & Hf & Hs & Hx & Hk & Ht & Hm).
    exists st. repeat split; simpl; try done.
    apply insert_timer_Forall; [by exists cs|done].
  - destruct th; [done|].
    destruct H as (st & Hh & Hj & Hf & Hs & Hx & Hk & Ht & Hm).
    exists st. repeat split; simpl; try done.
    apply Forall_app. split; [done|]. constructor; [by exists cs|constructor].
Qed.

Lemma fresh_root_new_promise construct :
  Forall (λ st, never_throws st = true) construct →
  let '(p, s) :=
    new_promise (λ resolve reject, run_script resolve reject None construct)
      init in
  p = 0%nat ∧ fresh_root s.
Proof.
  intros Hc. unfold new_promise; simpl. split; [done|].
  apply fresh_root_script; [done|].
  exists Pending. repeat split; simpl; done || constructor.
Qed.

Lemma user_cb_quiet p cb : user_cb p cb → quiet_cb cb.
Proof. by intros [cs ->]. Qed.

Lemma user_cb_silent p fl cb : user_cb p cb → due_report fl cb = [].
Proof. by intros [cs ->]. Qed.

Lemma bind_silent fl (l : list callback) :
  Forall (λ cb, due_report fl cb = []) l → l ≫= due_report fl = [].
Proof.
  induction 1 as [|cb l H _ IH]; [done|].
  change ((cb :: l) ≫= due_report fl) with (due_report fl cb ++ l ≫= due_report fl).
  by rewrite H, IH.
Qed.

Lemma bind_insert_timer fl t l :
  Forall (λ u : timer, due_report fl u.2 = []) l →
  (snd <$> insert_timer t l) ≫= due_report fl = due_report fl t.2.
Proof.
  induction 1 as [|u l H Hl IH]; simpl.
  - by rewrite app_nil_r.
  - destruct (u.1 <=? t.1).
    + change ((snd <$> u :: insert_timer t l) ≫= due_report fl)
        with (due_report fl u.2
              ++ (snd <$> insert_timer t l) ≫= due_report fl).
      by rewrite H, IH.
    + change ((snd <$> t :: u :: l) ≫= due_report fl)
        with (due_report fl t.2 ++ (snd <$> u :: l) ≫= due_report fl).
      rewrite (bind_silent fl (snd <$> u :: l)).
      * by rewrite app_nil_r.
      * apply Forall_fmap. by constructor.
Qed.

Lemma quiet_cb_users p (l : list callback) :
  Forall (user_cb p) l → Forall quiet_cb l.
Proof.
  intros H. eapply Forall_impl; [exact H|]. intros cb. apply user_cb_quiet.
Qed.

Lemma quiet_timer_users p (l : list timer) :
  Forall (λ t : timer, user_cb p t.2) l → Forall (λ t : timer, quiet_cb t.2) l.
Proof.
  intros H. eapply Forall_impl; [exact H|]. intros t. apply user_cb_quiet.
Qed.

Lemma silent_cb_users p fl (l : list callback) :
  Forall (user_cb p) l → Forall (λ cb, due_report fl cb = []) l.
Proof.
  intros H. eapply Forall_impl; [exact H|]. intros cb. apply user_cb_silent.
Qed.

Lemma silent_timer_users p fl (l : list timer) :
  Forall (λ t : timer, user_cb p t.2) l →
  Forall (λ t : timer, due_report fl t.2 = []) l.
Proof.
  intros H. eapply Forall_impl; [exact H|]. intros t. apply user_cb_silent.
Qed.

Lemma pending_reports_one s t l :
  timers s = insert_timer t l →
  Forall (λ cb, due_report (flags s) cb = []) (ticks s) →
  Forall (λ u : timer, due_report (flags s) u.2 = []) l →
  pending_reports s = due_report (flags s) t.2.
Proof.
  intros Hm Ht Hl. unfold pending_reports.
  rewrite bind_app, Hm, bind_insert_timer, bind_silent by done. done.
Qed.

Lemma silent_until_one t0 s t l :
  timers s = insert_timer t l →
  Forall (λ cb, due_report (flags s) cb = []) (ticks s) →
  Forall (λ u : timer, due_report (flags s) u.2 = []) l →
  t0 < t.1 → silent_until t0 s.
Proof.
  intros Hm Ht Hl Hlt. split; [done|]. rewrite Hm.
  apply insert_timer_Forall; [lia|].
  eapply Forall_impl; [exact Hl|]. auto.
Qed.

(** The run of a state without observers, in one statement. *)
Lemma quiet_outcome s t l :
  quiet s → sink s = [] →
  timers s = insert_timer t l →
  Forall (λ cb, due_report (flags s) cb = []) (ticks s) →
  Forall (λ u : timer, due_report (flags s) u.2 = []) l →
  999 < t.1 →
  (∀ n, sink (run_until 999 n s) = []) ∧
  quiescent (run (weight s) s) ∧
  (∀ n, (weight s ≤ n)%nat → run n s = run (weight s) s) ∧
  sink (run (weight s) s) = due_report (flags s) t.2.
Proof.
  intros Hq Hs Hm Ht Hl Hlt.
  destruct (quiet_run (weight s) s Hq ltac:(done)) as (Hqu & _ & Hsink).
  split; [|split; [done|split]].
  - intros n. rewrite quiet_run_until; [done|done|].
    by eapply silent_until_one.
  - intros n Hn. by apply run_settled.
  - rewrite Hsink, Hs. by eapply pending_reports_one.
Qed.

(** * uncaught.js *)

Lemma deadline_check_chained i o pc stk s :
  flag i s = true → deadline_check i o pc stk s = s.
Proof. intros H. unfold deadline_check. by rewrite H. Qed.

(** C9: a link on which [then] or [catch] was called before its deadline
    timer fires is never reported: whatever the program and the event loop
    do between the wrap call, the registration and the deadline, the
    deadline callback scheduled by that wrap call leaves the state as it is
    (no console output, no observer attached). *)
Theorem chained_link_is_never_reported
  (promise : obj) (timeout : Z) (prevCaught : option bool) (callers : trace)
  (s0 s1 s2 s3 : state) :
  let w := (detectUncaughtPromise promise timeout prevCaught callers s0).1 in
  let sA := (detectUncaughtPromise promise timeout prevCaught callers s0).2 in
  let cb := DeadlineCheck (length (flags s0)) promise prevCaught
              (InDetectUncaught :: callers) in
  later sA s1 → registered w s1 s2 → later s2 s3 →
  (clock s0 + timer_delay timeout, cb) ∈ timers sA ∧ fire cb s3 = s3.
Proof.
  intros w sA cb H1 H2 H3. split.
  - subst sA cb. unfold detectUncaughtPromise; simpl. apply insert_timer_elem.
  - simpl. apply deadline_check_chained.
    apply later_evolves in H1 as (_ & _ & Hlen), H3 as (_ & Hflag & _).
    apply Hflag. eapply registered_sets_chained; [|exact H2].
    subst sA. unfold detectUncaughtPromise in Hlen; simpl in Hlen.
    rewrite length_app in Hlen; simpl in Hlen. lia.
Qed.

Lemma chained_link_is_never_reported_witness :
  fire (DeadlineCheck 0 (Native 0) None
          [InDetectUncaught; InCreatePromise; AtSite "uncaught.js:46"])
    (run 1 ex_chained) = run 1 ex_chained.
Proof.
  refine (proj2 (chained_link_is_never_reported (Native 0) 1000 None
    [InCreatePromise; AtSite "uncaught.js:46"] ex_root.2 ex_wrapped.2
    ex_chained (run 1 ex_chained) _ _ _)).
  - apply later_now.
  - apply registered_then.
  - apply later_run.
Defined.

(** A root that is never chained, for a construction function that only
    makes calls: one turn, one report, the settlement untouched. *)
Lemma unchained_root_one_turn (cs : list call) (site : string) :
  let '(root, s) := Uncaught.createPromise (Do <$> cs) site init in
  let stack := [InDetectUncaught; InCreatePromise; AtSite site] in
  root = Wrapped 0 (Native 0) 1000 ∧
  promise_state 0 s = Some (first_call cs) ∧
  timers s = [(1000, DeadlineCheck 0 (Native 0) None stack)] ∧
  (∀ n, sink (run_until 999 n s) = []) ∧
  quiescent (run 1 s) ∧
  (∀ n, (1 ≤ n)%nat → run n s = run 1 s) ∧
  sink (run 1 s) = [UncaughtTerminal stack] ∧
  promise_state 0 (run 1 s) = Some (first_call cs) ∧
  (∀ i o stk s', flag i s' = false →
     deadline_check i o None stk s' = console (UncaughtTerminal stk) s').
Proof.
  unfold Uncaught.createPromise. rewrite new_promise_sync.
  generalize (first_call cs) as st; intros st.
  cbn -[run run_until]. 
  assert (Hq : quiescent (run 1 (State 0 [PCell st []] [false] [] []
    [(1000, DeadlineCheck 0 (Native 0) None
       [InDetectUncaught; InCreatePromise; AtSite site])] [] None))) by done.
  repeat split; try done.
  - intros n. by rewrite run_until_stuck.
  - intros n Hn. by apply run_settled.
  - intros i o stk s' Hf. unfold deadline_check. by rewrite Hf.
Qed.

(** [createPromise(construct).then(onFulfilled)] for a construction
    function that calls [reject] first: three turns. *)
Lemma rejected_then_three_turns
  (e : value) (rest : list call) (onFulfilled : value → outcome)
  (rootSite thenSite : string) :
  let construct := Do <$> Call Reject e :: rest in
  let '(root, s0) := Uncaught.createPromise construct rootSite init in
  let '(link, s1) :=
    obj_then root (Some (UserFn onFulfilled)) None [AtSite thenSite] s0 in
  timers s1
  = [(1000, DeadlineCheck 0 (Native 0) None (root_stack rootSite));
     (1000, DeadlineCheck 1 (Native 1) (Some false) (then_stack thenSite))] ∧
  (∀ n, sink (run_until 999 n s1) = []) ∧
  quiescent (run 3 s1) ∧
  (∀ n, (3 ≤ n)%nat → run n s1 = run 3 s1) ∧
  sink (run 3 s1) = [UncaughtTerminal (then_stack thenSite)] ∧
  then_stack thenSite ≠ root_stack rootSite.
Proof.
  intros construct. subst construct.
  rewrite createPromise_sync. do 2 norm_call.
  match goal with |- context [run 3 ?s] => set (s1 := s) end.
  assert (Hq : quiescent (run 3 s1)) by (vm_compute; reflexivity).
  repeat split; try done.
  - solve_until idtac.
  - intros n Hn. by apply run_settled.
Qed.

(** C10: [createPromise] wraps the root with [prevCaught] left undefined,
    which the deadline check reads as false; for every construction
    function, whether it fulfils the promise, rejects it or leaves it
    pending, now or from a deferred callback, a root that is never chained
    gets exactly one "uncaught terminal promise" report, at the deadline
    and not before: the check does not look at the settlement. *)
Theorem unchained_root_reported_once (construct : script) (site : string) :
  Forall (λ st, never_throws st = true) construct →
  let '(root, s) := Uncaught.createPromise construct site init in
  root = Wrapped 0 (Native 0) 1000 ∧
  (1000, DeadlineCheck 0 (Native 0) None (root_stack site)) ∈ timers s ∧
  (∀ n, sink (run_until 999 n s) = []) ∧
  quiescent (run (weight s) s) ∧
  (∀ n, (weight s ≤ n)%nat → run n s = run (weight s) s) ∧
  sink (run (weight s) s) = [UncaughtTerminal (root_stack site)] ∧
  (∀ i o stk s', flag i s' = false →
     deadline_check i o None stk s' = console (UncaughtTerminal stk) s').
Proof.
  intros Hc. unfold Uncaught.createPromise.
  pose proof (fresh_root_new_promise construct Hc) as H.
  destruct (new_promise _ init) as [p s0].
  destruct H as (-> & st & Hh & Hj & Hf & Hs & Hx & Hk & Ht & Hm).
  destruct s0 as [c h f tk jb tm sk cr]; simpl in * |-; subst.
  cbv beta iota.
  set (dc0 := DeadlineCheck 0 (Native 0) None (root_stack site)).
  set (s := State 0 [PCell st []] [false] tk [] (insert_timer (1000, dc0) tm)
              [] None).
  change (detectUncaughtPromise _ _ _ _ _) with (Wrapped 0 (Native 0) 1000, s).
  cbv beta iota.
  split; [done|]. split; [apply insert_timer_elem|].
  destruct (quiet_outcome s (1000, dc0) tm) as (H1 & H2 & H3 & H4);
    try done.
  - split; [done|]. split; [split; simpl; repeat constructor|].
    split; simpl; [by eapply quiet_cb_users|].
    apply insert_timer_Forall; [done|by eapply quiet_timer_users].
  - by eapply silent_cb_users.
  - by eapply silent_timer_users.
  - repeat split; try done.
    intros i o stk s' Hfl. unfold deadline_check. by rewrite Hfl.
Qed.

(** C1: [createPromise(construct).then(onFulfilled)], no rejection handler
    anywhere: nothing is reported before the deadline; once the event loop
    has nothing left to run there is exactly one report, an "uncaught
    terminal promise" one, and its stack is the one captured by the wrap
    call made inside [then] (the [.then] call site), not the root's. This
    holds for every construction function, the rejecting ones included:
    the report does not depend on the settlement. *)
Theorem rejected_then_reports_then_site
  (construct : script) (onFulfilled : value → outcome)
  (rootSite thenSite : string) :
  Forall (λ st, never_throws st = true) construct →
  let '(root, s0) := Uncaught.createPromise construct rootSite init in
  let '(link, s1) :=
    obj_then root (Some (UserFn onFulfilled)) None [AtSite thenSite] s0 in
  link = Wrapped 1 (Native 1) 1000 ∧
  (1000, DeadlineCheck 1 (Native 1) (Some false) (then_stack thenSite))
    ∈ timers s1 ∧
  (∀ n, sink (run_until 999 n s1) = []) ∧
  quiescent (run (weight s1) s1) ∧
  (∀ n, (weight s1 ≤ n)%nat → run n s1 = run (weight s1) s1) ∧
  sink (run (weight s1) s1) = [UncaughtTerminal (then_stack thenSite)] ∧
  then_stack thenSite ≠ root_stack rootSite.
Proof.
  intros Hc. unfold Uncaught.createPromise.
  pose proof (fresh_root_new_promise construct Hc) as H.
  destruct (new_promise _ init) as [p s0].
  destruct H as (-> & st & Hh & Hj & Hf & Hs & Hx & Hk & Ht & Hm).
  destruct s0 as [c h f tk jb tm sk cr]; simpl in * |-; subst.
  cbv beta iota.
  set (dc0 := DeadlineCheck 0 (Native 0) None (root_stack rootSite)).
  set (dc1 := DeadlineCheck 1 (Native 1) (Some false) (then_stack thenSite)).
  assert (Hq0 : Forall (λ t : timer, quiet_cb t.2)
                  (insert_timer (1000, dc0) tm)).
  { apply insert_timer_Forall; [done|by eapply quiet_timer_users]. }
  assert (Hs0 : Forall (λ u : timer, due_report [true; false] u.2 = [])
                  (insert_timer (1000, dc0) tm)).
  { apply insert_timer_Forall; [done|by eapply silent_timer_users]. }
  set (k := Reaction (Some (UserFn onFulfilled)) None 1).
  change (detectUncaughtPromise _ _ _ _ _)
    with (Wrapped 0 (Native 0) 1000,
          State 0 [PCell st []] [false] tk [] (insert_timer (1000, dc0) tm)
            [] None).
  cbv beta iota.
  destruct st as [|r].
  - set (s := State 0 [PCell Pending [k]; PCell Pending []] [true; false] tk
                [] (insert_timer (1000, dc1) (insert_timer (1000, dc0) tm))
                [] None).
    change (obj_then _ _ _ _ _) with (Wrapped 1 (Native 1) 1000, s).
    cbv beta iota.
    split; [done|]. split; [apply insert_timer_elem|].
    destruct (quiet_outcome s (1000, dc1) (insert_timer (1000, dc0) tm))
      as (H1 & H2 & H3 & H4); try done.
    + split; [done|]. split.
      { split; simpl; [|constructor].
        repeat constructor; simpl; done. }
      split; simpl; [by eapply quiet_cb_users|].
      apply insert_timer_Forall; done.
    + by eapply silent_cb_users.
  - set (s := State 0 [PCell (Settled r) []; PCell Pending []] [true; false]
                tk [reaction_job r k]
                (insert_timer (1000, dc1) (insert_timer (1000, dc0) tm))
                [] None).
    change (obj_then _ _ _ _ _) with (Wrapped 1 (Native 1) 1000, s).
    cbv beta iota.
    split; [done|]. split; [apply insert_timer_elem|].
    destruct (quiet_outcome s (1000, dc1) (insert_timer (1000, dc0) tm))
      as (H1 & H2 & H3 & H4); try done.
    + split; [done|]. split.
      { split; simpl; [repeat constructor|].
        constructor; [|constructor]. by destruct r. }
      split; simpl; [by eapply quiet_cb_users|].
      apply insert_timer_Forall; done.
    + by eapply silent_cb_users.
Qed.

Lemma unchained_root_reported_once_witness :
  let '(root, s) := Uncaught.createPromise ex_reject1 "uncaught.js:46" init in
  root = Wrapped 0 (Native 0) 1000 ∧
  (1000, DeadlineCheck 0 (Native 0) None (root_stack "uncaught.js:46"))
    ∈ timers s ∧
  (∀ n, sink (run_until 999 n s) = []) ∧
  quiescent (run (weight s) s) ∧
  (∀ n, (weight s ≤ n)%nat → run n s = run (weight s) s) ∧
  sink (run (weight s) s) = [UncaughtTerminal (root_stack "uncaught.js:46")] ∧
  (∀ i o stk s', flag i s' = false →
     deadline_check i o None stk s' = console (UncaughtTerminal stk) s').
Proof.
  apply (unchained_root_reported_once ex_reject1 "uncaught.js:46").
  repeat constructor.
Defined.

Lemma rejected_then_reports_then_site_witness :
  let '(root, s0) :=
    Uncaught.createPromise ex_reject1 "uncaught.js:46" init in
  let '(link, s1) :=
    obj_then root (Some (UserFn ex_logging)) None [AtSite "uncaught.js:48"]
      s0 in
  link = Wrapped 1 (Native 1) 1000 ∧
  (1000, DeadlineCheck 1 (Native 1) (Some false) (then_stack "uncaught.js:48"))
    ∈ timers s1 ∧
  (∀ n, sink (run_until 999 n s1) = []) ∧
  quiescent (run (weight s1) s1) ∧
  (∀ n, (weight s1 ≤ n)%nat → run n s1 = run (weight s1) s1) ∧
  sink (run (weight s1) s1) = [UncaughtTerminal (then_stack "uncaught.js:48")] ∧
  then_stack "uncaught.js:48" ≠ root_stack "uncaught.js:46".
Proof.
  apply (rejected_then_reports_then_site ex_reject1 ex_logging
    "uncaught.js:46" "uncaught.js:48").
  repeat constructor.
Defined.

Lemma deadline_check_native i p stk s :
  flag i s = false →
  deadline_check i (Native p) (Some true) stk s
  = (native_catch p (Some FaultObserver) s).2.
Proof.
  intros H. unfold deadline_check. rewrite H. simpl.
  by destruct (native_catch p (Some FaultObserver) s).
Qed.

(** C2: [createPromise(construct).catch(handler)] with a rejecting
    [construct] and a [handler] that throws [x]: nothing is reported before
    the deadline; once the timers and the jobs they start have run there is
    exactly one report, "exception occured inside error handler" with [x],
    and no "uncaught terminal promise" report. The observer is attached
    with the native [catch] of the promise that [promise.catch(handler)]
    returned, so no further link and no further timer is created. *)
Theorem rejected_catch_throw_reports_fault
  (e x : value) (rest : list call) (handler : value → outcome)
  (rootSite catchSite : string) :
  handler e = Throw x →
  let construct := Do <$> Call Reject e :: rest in
  let '(root, s0) := Uncaught.createPromise construct rootSite init in
  let '(link, s1) :=
    obj_catch root (Some (UserFn handler)) [AtSite catchSite] s0 in
  (∀ n, sink (run_until 999 n s1) = []) ∧
  quiescent (run 4 s1) ∧
  (∀ n, (4 ≤ n)%nat → run n s1 = run 4 s1) ∧
  sink (run 4 s1) = [HandlerFault x] ∧
  count_reports is_handler_fault (run 4 s1) = 1%nat ∧
  count_reports is_uncaught_terminal (run 4 s1) = 0%nat ∧
  link = Wrapped 1 (Native 1) 1000 ∧
  promise_state 1 (run 4 s1) = Some (Settled (Rejected x)) ∧
  length (flags (run 4 s1)) = length (flags s1) ∧
  (∀ i p stk s, flag i s = false →
     deadline_check i (Native p) (Some true) stk s
     = (native_catch p (Some FaultObserver) s).2).
Proof.
  intros Hthrow construct. subst construct.
  rewrite createPromise_sync. do 2 norm_call.
  match goal with |- context [run 4 ?s] => set (s1 := s) end.
  assert (Hrun : run 4 s1 =
    State 1000
      [PCell (Settled (Rejected e)) []; PCell (Settled (Rejected x)) [];
       PCell (Settled (Fulfilled VUndefined)) []]
      [true; false] [] [] [] [HandlerFault x] None).
  { eval_run ltac:(rewrite ?Hthrow). reflexivity. }
  rewrite Hrun.
  repeat split; try done.
  - solve_until ltac:(rewrite ?Hthrow).
  - intros n Hn. rewrite <- Hrun. apply run_settled; [|done]. by rewrite Hrun.
  - apply deadline_check_native.
Qed.

Lemma rejected_catch_throw_reports_fault_witness :
  let construct := Do <$> Call Reject (VNum 1) :: [] in
  let '(root, s0) := Uncaught.createPromise construct "uncaught.js:52" init in
  let '(link, s1) :=
    obj_catch root (Some (UserFn ex_throwing)) [AtSite "uncaught.js:54"] s0 in
  sink (run 4 s1) = [HandlerFault (VError "error inside error handler")].
Proof.
  pose proof (rejected_catch_throw_reports_fault (VNum 1)
    (VError "error inside error handler") [] ex_throwing
    "uncaught.js:52" "uncaught.js:54" eq_refl) as H.
  cbv zeta in H |- *.
  destruct (Uncaught.createPromise _ _ _) as [root s0].
  destruct (obj_catch _ _ _ _) as [link s1].
  exact (proj1 (proj2 (proj2 (proj2 H)))).
Defined.

(** C3: [createPromise(construct).catch(h1).catch(h2)] with a rejecting
    [construct], [h1] throwing [x] and [h2] returning normally on [x]:
    nothing is ever written to the console, before or after the deadline. *)
Theorem double_catch_reports_nothing
  (e x v : value) (rest : list call) (h1 h2 : value → outcome)
  (rootSite site1 site2 : string) :
  h1 e = Throw x → h2 x = Return v →
  let construct := Do <$> Call Reject e :: rest in
  let '(root, s0) := Uncaught.createPromise construct rootSite init in
  let '(link1, s1) := obj_catch root (Some (UserFn h1)) [AtSite site1] s0 in
  let '(link2, s2) := obj_catch link1 (Some (UserFn h2)) [AtSite site2] s1 in
  quiescent (run 6 s2) ∧
  (∀ n, (6 ≤ n)%nat → run n s2 = run 6 s2) ∧
  (∀ n, sink (run n s2) = []) ∧
  promise_state 2 (run 6 s2) = Some (Settled (Fulfilled v)).
Proof.
  intros H1 H2 construct. subst construct.
  rewrite createPromise_sync. do 3 norm_call.
  match goal with |- context [run 6 ?s] => set (s2 := s) end.
  assert (Hrun : run 6 s2 =
    State 1000
      [PCell (Settled (Rejected e)) []; PCell (Settled (Rejected x)) [];
       PCell (Settled (Fulfilled v)) []; PCell (Settled (Fulfilled v)) []]
      [true; true; false] [] [] [] [] None).
  { eval_run ltac:(rewrite ?H1, ?H2). reflexivity. }
  assert (Hq : quiescent (run 6 s2)) by (by rewrite Hrun).
  repeat split; try done.
  - intros n Hn. by apply run_settled.
  - solve_always ltac:(rewrite ?H1, ?H2).
  - by rewrite Hrun.
Qed.

Lemma double_catch_reports_nothing_witness :
  let construct := Do <$> Call Reject (VNum 1) :: [] in
  let '(root, s0) := Uncaught.createPromise construct "README.md:199" init in
  let '(link1, s1) :=
    obj_catch root (Some (UserFn ex_throwing)) [AtSite "README.md:201"] s0 in
  let '(link2, s2) :=
    obj_catch link1 (Some (UserFn ex_recovering)) [AtSite "README.md:204"]
      s1 in
  quiescent (run 6 s2) ∧
  (∀ n, (6 ≤ n)%nat → run n s2 = run 6 s2) ∧
  (∀ n, sink (run n s2) = []) ∧
  promise_state 2 (run 6 s2) = Some (Settled (Fulfilled VUndefined)).
Proof.
  exact (double_catch_reports_nothing (VNum 1)
    (VError "error inside error handler") VUndefined [] ex_throwing
    ex_recovering "README.md:199" "README.md:201" "README.md:204"
    eq_refl eq_refl).
Defined.

(** * Wrapping twice *)

Lemma createPromise_wrapped_once construct site s :
  Uncaught.createPromise construct site s
  = wrapped_once construct None [InCreatePromise; AtSite site] s.
Proof. reflexivity. Qed.

(** C7, as stated, fails: the root of uncaught.js, never chained, is
    reported once when wrapped once and twice when wrapped twice. *)
Lemma double_wrap_duplicates_report :
  let once := (wrapped_once ex_reject1 None ex_site1 init).2 in
  let twice := (wrapped_twice ex_reject1 None ex_site1 ex_site2 init).2 in
  quiescent (run 12 once) ∧ quiescent (run 12 twice) ∧
  emitted once = 1%nat ∧ emitted twice = 2%nat ∧
  ¬ (emitted twice = emitted once).
Proof. by vm_compute. Qed.

(** C7, amended: each of the two wrappers runs its own deadline check, so
    a twice-wrapped promise that is never chained gets every report of the
    once-wrapped one a second time: two "uncaught terminal promise"
    reports instead of one when [prevCaught] is falsy, two "exception
    occured inside error handler" reports instead of one when it is true
    and the promise is rejected, none either way otherwise. The two chains
    of uncaught.js show the same one link further down: [then] and [catch]
    of a twice-wrapped promise return a twice-wrapped promise. *)
Theorem double_wrap_doubles_reports
  (cs : list call) (prevCaught : option bool) (callers1 callers2 : trace) :
  (let st := first_call cs in
   let once := (wrapped_once (Do <$> cs) prevCaught callers1 init).2 in
   let twice :=
     (wrapped_twice (Do <$> cs) prevCaught callers1 callers2 init).2 in
   quiescent (run 12 once) ∧ quiescent (run 12 twice) ∧
   sink (run 12 once)
   = terminal_report prevCaught st (InDetectUncaught :: callers1) ∧
   sink (run 12 twice)
   = terminal_report prevCaught st (InDetectUncaught :: callers1)
     ++ terminal_report prevCaught st (InDetectUncaught :: callers2) ∧
   emitted twice = (2 * emitted once)%nat) ∧
  (∀ e rest onFulfilled site,
   let construct := Do <$> Call Reject e :: rest in
   let once :=
     (then_on (wrapped_once construct None callers1 init)
        (Some (UserFn onFulfilled)) None [AtSite site]).2 in
   let twice :=
     (then_on (wrapped_twice construct None callers1 callers2 init)
        (Some (UserFn onFulfilled)) None [AtSite site]).2 in
   (then_on (wrapped_twice construct None callers1 callers2 init)
      (Some (UserFn onFulfilled)) None [AtSite site]).1
   = Wrapped 3 (Wrapped 2 (Native 1) 1000) 1000 ∧
   quiescent (run 12 once) ∧ quiescent (run 12 twice) ∧
   sink (run 12 once)
   = [UncaughtTerminal [InDetectUncaught; InWrappedThen; AtSite site]] ∧
   sink (run 12 twice)
   = [UncaughtTerminal
        [InDetectUncaught; InWrappedThen; InWrappedThen; AtSite site];
      UncaughtTerminal [InDetectUncaught; InWrappedThen; AtSite site]] ∧
   emitted twice = (2 * emitted once)%nat) ∧
  (∀ e x rest site,
   let construct := Do <$> Call Reject e :: rest in
   let handler := UserFn (λ _, Throw x) in
   let once :=
     (catch_on (wrapped_once construct None callers1 init)
        (Some handler) [AtSite site]).2 in
   let twice :=
     (catch_on (wrapped_twice construct None callers1 callers2 init)
        (Some handler) [AtSite site]).2 in
   (catch_on (wrapped_twice construct None callers1 callers2 init)
      (Some handler) [AtSite site]).1
   = Wrapped 3 (Wrapped 2 (Native 1) 1000) 1000 ∧
   quiescent (run 12 once) ∧ quiescent (run 12 twice) ∧
   sink (run 12 once) = [HandlerFault x] ∧
   sink (run 12 twice) = [HandlerFault x; HandlerFault x] ∧
   emitted twice = (2 * emitted once)%nat).
Proof.
  unfold emitted, then_on, catch_on, wrapped_twice, wrapped_once.
  split; [|split].
  - rewrite new_promise_sync. generalize (first_call cs) as st.
    intros st. cbv zeta.
    destruct prevCaught as [[]|]; destruct st as [|[v|e]]; by vm_compute.
  - intros e rest onFulfilled site. cbv zeta. rewrite new_promise_sync.
    by vm_compute.
  - intros e x rest site. cbv zeta. rewrite new_promise_sync.
    by vm_compute.
Qed.

(** * double-fulfill.js *)

Lemma sink_settle p r s : sink (settle p r s) = sink s.
Proof. unfold settle. by destruct (heap s !! p) as [[[] ?]|]. Qed.

Lemma settle_pending p r ks s :
  heap s !! p = Some (PCell Pending ks) →
  promise_state p (settle p r s) = Some (Settled r).
Proof.
  intros H. unfold settle, promise_state. rewrite H; simpl.
  rewrite list_lookup_insert_eq; [done|]. by eapply lookup_lt_Some.
Qed.

Lemma sink_note_call i s :
  sink (note_call i s)
  = sink s ++ (if flag i s then [Reported multiple_fulfill] else []).
Proof.
  unfold note_call. destruct (flag i s); simpl; [done|by rewrite app_nil_r].
Qed.

(** One call of a wrapped callback of promise [p]. *)
Lemma do_call_wrapped i p c s :
  do_call (Wrap i (NativeResolve p)) (Wrap i (NativeReject p)) s c
  = settle p (call_result c) (note_call i s).
Proof. destruct c as [[] v]; reflexivity. Qed.

Lemma note_call_again i s :
  flag i s = true → note_call i s = console (Reported multiple_fulfill) s.
Proof.
  intros Hf. unfold note_call. rewrite Hf. unfold set_flag; simpl.
  rewrite list_insert_id; [done|].
  unfold flag in Hf. by destruct (flags s !! i) as [[]|].
Qed.

Lemma note_call_first i s :
  flag i s = false → note_call i s = set_flag i s.
Proof. intros Hf. unfold note_call. by rewrite Hf. Qed.

(** Calls after the first: each one reports, none changes the promise. *)
Lemma wrapped_calls_after_first i p r ks cs s :
  flag i s = true → heap s !! p = Some (PCell (Settled r) ks) →
  run_calls (Wrap i (NativeResolve p)) (Wrap i (NativeReject p)) cs s
  = with_sink (sink s ++ replicate (length cs) (Reported multiple_fulfill)) s.
Proof.
  revert s; induction cs as [|c cs IH]; intros s Hf Hp; simpl.
  - rewrite app_nil_r. by destruct s.
  - rewrite do_call_wrapped, note_call_again by done.
    erewrite settle_settled by exact Hp.
    rewrite IH by done. simpl. by rewrite <- app_assoc.
Qed.

(** The closure right after [var fulfilled = false], promise still
    pending: the calls may come at any later time, in this order. *)
Lemma wrapped_calls_fresh i p ks c cs s :
  (i < length (flags s))%nat → flag i s = false →
  heap s !! p = Some (PCell Pending ks) →
  run_calls (Wrap i (NativeResolve p)) (Wrap i (NativeReject p)) (c :: cs) s
  = State (clock s) (<[p := PCell (Settled (call_result c)) []]> (heap s))
      (<[i := true]> (flags s)) (ticks s)
      (jobs s ++ (reaction_job (call_result c) <$> ks)) (timers s)
      (sink s ++ replicate (length cs) (Reported multiple_fulfill))
      (crashed s).
Proof.
  intros Hi Hf Hp. simpl. rewrite do_call_wrapped, note_call_first by done.
  unfold settle at 1. simpl. rewrite Hp.
  erewrite wrapped_calls_after_first; [done| |].
  - unfold flag; simpl. by rewrite list_lookup_insert_eq.
  - simpl. rewrite list_lookup_insert_eq; [done|]. by eapply lookup_lt_Some.
Qed.

(** The calls made inside [construct], or all from one deferred callback,
    from any state the detector is started in. *)
Lemma wrapped_calls_in_construct (cs : list call) (first : call) :
  (1 < length cs)%nat → head cs = Some first →
  (∀ s, let '(p, s') := detectDoubleFulfilledPromise (Do <$> cs) s in
     sink s' = sink s ++ replicate (length cs - 1) (Reported multiple_fulfill)
     ∧ promise_state p s' = Some (Settled (call_result first))) ∧
  (∀ delay,
     let '(p, s') :=
       detectDoubleFulfilledPromise [SetTimeout (Body cs None) delay] init in
     sink s' = [] ∧ promise_state p s' = Some Pending ∧
     quiescent (run 1 s') ∧
     sink (run 1 s') = replicate (length cs - 1) (Reported multiple_fulfill)
     ∧ promise_state p (run 1 s') = Some (Settled (call_result first))).
Proof.
  intros Hn Hhd. destruct cs as [|c cs]; [done|].
  injection Hhd as ->. simpl length. rewrite Nat.sub_1_r; simpl Nat.pred.
  split.
  - intros s. unfold detectDoubleFulfilledPromise, new_promise.
    cbn -[run_calls fmap]. rewrite run_script_sync.
    erewrite (wrapped_calls_fresh _ _ []).
    + split; [done|]. unfold promise_state; simpl.
      rewrite list_lookup_insert_eq; [done|]. rewrite length_app; simpl; lia.
    + simpl. rewrite length_app; simpl; lia.
    + unfold flag; simpl. by rewrite lookup_app_r, Nat.sub_diag.
    + simpl. by rewrite lookup_app_r, Nat.sub_diag.
  - intros delay. cbn -[run_calls].
    by erewrite (wrapped_calls_fresh 0 0 []) by (done || simpl; lia).
Qed.

Lemma same_outside_note_call i s : same_outside s (note_call i s).
Proof. unfold note_call. by destruct (flag i s). Qed.

Lemma same_outside_settle p r s s' :
  same_outside s s' → same_outside (settle p r s) (settle p r s').
Proof.
  intros (Hc & Hh & Ht & Hj & Hm & Hx). unfold settle. rewrite <- Hh.
  destruct (heap s !! p) as [[[] ?]|]; repeat split; simpl; congruence.
Qed.

Lemma same_outside_trans s1 s2 s3 :
  same_outside s1 s2 → same_outside s2 s3 → same_outside s1 s3.
Proof. unfold same_outside. intuition congruence. Qed.

Lemma same_outside_run_calls i p cs s s' :
  same_outside s s' →
  same_outside (run_calls (NativeResolve p) (NativeReject p) cs s)
    (run_calls (Wrap i (NativeResolve p)) (Wrap i (NativeReject p)) cs s').
Proof.
  revert s s'; induction cs as [|c cs IH]; intros s s' H; [done|].
  simpl. apply IH. rewrite do_call_native, do_call_wrapped.
  apply same_outside_settle.
  eapply same_outside_trans; [exact H|apply same_outside_note_call].
Qed.

(** ** The wrapped and the plain construction, side by side *)

Lemma sim_settle i p q r s s' :
  sim i p s s' → sim i p (settle q r s) (settle q r s').
Proof.
  intros (Hc & Hh & Hj & Hx & Ht & Hm). unfold settle. rewrite <- Hh.
  destruct (heap s !! q) as [[[] ?]|]; repeat split; simpl; try done.
  by rewrite Hj.
Qed.

Lemma sim_note_call i p s s' :
  sim i p s s' → sim i p s (note_call i s').
Proof.
  intros (Hc & Hh & Hj & Hx & Ht & Hm). unfold note_call.
  by destruct (flag i s').
Qed.

Lemma sim_console i p r s s' : sim i p s s' → sim i p (console r s) (console r s').
Proof. intros (Hc & Hh & Hj & Hx & Ht & Hm). by repeat split. Qed.

Lemma sim_run_calls i p cs s s' :
  sim i p s s' →
  sim i p (run_calls (NativeResolve p) (NativeReject p) cs s)
    (run_calls (Wrap i (NativeResolve p)) (Wrap i (NativeReject p)) cs s').
Proof.
  revert s s'; induction cs as [|c cs IH]; intros s s' H; [done|].
  simpl. apply IH. rewrite do_call_native, do_call_wrapped.
  by apply sim_settle, sim_note_call.
Qed.

Lemma insert_timer_sim i p t t' l l' :
  timer_sim i p t t' → Forall2 (timer_sim i p) l l' →
  Forall2 (timer_sim i p) (insert_timer t l) (insert_timer t' l').
Proof.
  intros Ht Hl. induction Hl as [|u u' l l' Hu Hl IH]; simpl.
  - constructor; [done|constructor].
  - pose proof Ht as [Ht1 _]. pose proof Hu as [Hu1 _].
    rewrite <- Ht1, <- Hu1.
    destruct (u.1 <=? t.1); [by constructor|].
    constructor; [done|]. by constructor.
Qed.

Lemma sim_run_script i p construct s s' :
  sim i p s s' →
  sim i p (run_script (NativeResolve p) (NativeReject p) None construct s)
    (run_script (Wrap i (NativeResolve p)) (Wrap i (NativeReject p)) None
       construct s').
Proof.
  revert s s'; induction construct as [|st construct IH]; intros s s' H;
    [done|].
  simpl. apply IH. destruct st as [c|b delay|b]; simpl.
  - rewrite do_call_native, do_call_wrapped.
    by apply sim_settle, sim_note_call.
  - destruct H as (Hc & Hh & Hj & Hx & Ht & Hm).
    repeat split; simpl; try done.
    apply insert_timer_sim; [|done]. split; simpl; [by rewrite Hc|by exists b].
  - destruct H as (Hc & Hh & Hj & Hx & Ht & Hm).
    repeat split; simpl; try done.
    apply Forall2_app; [done|]. constructor; [by exists b|constructor].
Qed.

Lemma sim_fire i p cb cb' s s' :
  cb_sim i p cb cb' → sim i p s s' → sim i p (fire cb s) (fire cb' s').
Proof.
  intros (b & -> & ->) H. simpl.
  pose proof (sim_run_calls i p (calls b) s s' H) as H'.
  destruct (throws b); [|done].
  destruct H' as (Hc & Hh & Hj & Hx & Ht & Hm). by repeat split.
Qed.

Lemma sim_run_job i p j s s' :
  sim i p s s' → sim i p (run_job j s) (run_job j s').
Proof.
  intros H. destruct j as [[[f|]|] r tgt]; simpl.
  - destruct (f (settled_value r)); by apply sim_settle.
  - by apply sim_settle, sim_console.
  - by apply sim_settle.
Qed.

Lemma sim_step i p s s' :
  sim i p s s' →
  match step s, step s' with
  | Some t, Some t' => sim i p t t'
  | None, None => True
  | _, _ => False
  end.
Proof.
  intros (Hc & Hh & Hj & Hx & Ht & Hm).
  destruct s as [c h f tk jb tm sk cr], s' as [c' h' f' tk' jb' tm' sk' cr'];
    simpl in *; subst.
  unfold step; simpl. destruct cr'; [done|].
  destruct Ht as [|cb cb' q q' Hcb Hq].
  - destruct jb' as [|j js].
    + destruct Hm as [|[due cb] [due' cb'] q q' [Hd Hcb] Hq]; [done|].
      simpl in Hd, Hcb; subst. apply sim_fire; [done|]. by repeat split.
    + apply sim_run_job. by repeat split.
  - apply sim_fire; [done|]. by repeat split.
Qed.

Lemma sim_run i p n s s' : sim i p s s' → sim i p (run n s) (run n s').
Proof.
  revert s s'; induction n as [|n IH]; intros s s' H; [done|].
  simpl. pose proof (sim_step i p s s' H) as Hs.
  destruct (step s), (step s'); try done. by apply IH.
Qed.

(** C8: a call of a wrapped callback, the first or a later one, is the
    wrapper's bookkeeping followed by a call of the real callback it wraps
    ([resolve] for [wrap(resolve)], [reject] for [wrap(reject)]) with the
    value it was given; the bookkeeping touches the wrapper's boolean and
    the console only; so any run of calls leaves promises, queues and
    timers exactly as the same calls on the real callbacks would, and the
    event loop run on [detectDoubleFulfilledPromise(construct)] goes turn
    by turn as the one on [new Promise(construct)]. *)
Theorem wrapped_call_is_forwarded :
  (∀ fulfilled resolve reject c s,
     do_call (Wrap fulfilled resolve) (Wrap fulfilled reject) s c
     = do_call resolve reject (note_call fulfilled s) c) ∧
  (∀ fulfilled s,
     same_outside s (note_call fulfilled s) ∧
     (sink (note_call fulfilled s) = sink s ∨
      sink (note_call fulfilled s) = sink s ++ [Reported multiple_fulfill])) ∧
  (∀ fulfilled p cs s s',
     same_outside s s' →
     same_outside (run_calls (NativeResolve p) (NativeReject p) cs s)
       (run_calls (Wrap fulfilled (NativeResolve p))
          (Wrap fulfilled (NativeReject p)) cs s')) ∧
  (∀ construct n,
     let '(p, s1) :=
       new_promise (λ resolve reject,
         run_script resolve reject None construct) init in
     let '(q, s2) := detectDoubleFulfilledPromise construct init in
     p = q ∧
     clock (run n s1) = clock (run n s2) ∧
     heap (run n s1) = heap (run n s2) ∧
     jobs (run n s1) = jobs (run n s2) ∧
     crashed (run n s1) = crashed (run n s2) ∧
     promise_state p (run n s1) = promise_state q (run n s2) ∧
     (quiescent (run n s1) ↔ quiescent (run n s2))).
Proof.
  split; [|split; [|split]].
  - intros fulfilled resolve reject c s. by destruct c as [[] v].
  - intros fulfilled s. split; [apply same_outside_note_call|].
    rewrite sink_note_call. destruct (flag fulfilled s); [by right|left].
    by rewrite app_nil_r.
  - intros. by apply same_outside_run_calls.
  - intros construct n. unfold detectDoubleFulfilledPromise, new_promise.
    cbn -[run_script run].
    pose proof (sim_run_script 0 0 construct
      (with_heap [PCell Pending []] init)
      (with_flags [false] (with_heap [PCell Pending []] init))
      ltac:(repeat split; simpl; constructor)) as H0.
    pose proof (sim_run 0 0 n _ _ H0) as (Hc & Hh & Hj & Hx & Ht & Hm).
    pose proof (sim_step 0 0 _ _ (sim_run 0 0 n _ _ H0)) as Hs.
    repeat split; try done.
    + unfold promise_state. by rewrite Hh.
    + unfold quiescent. intros Hq. rewrite Hq in Hs. by destruct (step _).
    + unfold quiescent. intros Hq. rewrite Hq in Hs. by destruct (step _).
Qed.

Lemma after_calls_do made c s :
  after_calls made s →
  let s' := do_call (Wrap 0 (NativeResolve 0)) (Wrap 0 (NativeReject 0)) s c in
  after_calls (made ++ [c]) s' ∧ ticks s' = ticks s ∧ timers s' = timers s.
Proof.
  intros (Hh & Hf & Hj & Hc & Hs & Ht & Hm). cbv zeta.
  rewrite do_call_wrapped.
  destruct s as [clk hp fl tk jb tm sk cr]; simpl in *; subst.
  destruct made as [|c0 made]; [by repeat split|].
  repeat split; try done. cbn.
  rewrite length_app, Nat.sub_0_r. simpl.
  replace (length made + 1 - 0)%nat with (S (length made)) by lia.
  by rewrite replicate_S_end.
Qed.

Lemma after_calls_run_calls made cs s :
  after_calls made s →
  let s' :=
    run_calls (Wrap 0 (NativeResolve 0)) (Wrap 0 (NativeReject 0)) cs s in
  after_calls (made ++ cs) s' ∧ ticks s' = ticks s ∧ timers s' = timers s.
Proof.
  revert made s; induction cs as [|c cs IH]; intros made s H; cbv zeta.
  - by rewrite app_nil_r.
  - simpl. destruct (after_calls_do made c s H) as (H1 & Ht & Hm).
    destruct (IH (made ++ [c]) _ H1) as (H2 & Ht' & Hm').
    rewrite <- app_assoc in H2. by rewrite <- Ht, <- Hm.
Qed.

Lemma after_calls_with_ticks made q s :
  after_calls made s → Forall (wrapped_cb 0 0) q →
  after_calls made (with_ticks q s).
Proof. intros (?&?&?&?&?&?&?) Hq. by repeat split. Qed.

Lemma after_calls_with_timers made q s :
  after_calls made s → Forall (λ t : timer, wrapped_cb 0 0 t.2) q →
  after_calls made (with_timers q s).
Proof. intros (?&?&?&?&?&?&?) Hq. by repeat split. Qed.

Lemma after_calls_with_clock made t s :
  after_calls made s → after_calls made (with_clock t s).
Proof. intros (?&?&?&?&?&?&?). by repeat split. Qed.

Lemma after_calls_script made construct s :
  Forall (λ st, never_throws st = true) construct →
  after_calls made s →
  after_calls (made ++ sync_calls construct)
    (run_script (Wrap 0 (NativeResolve 0)) (Wrap 0 (NativeReject 0)) None
       construct s).
Proof.
  intros Hc. revert made s.
  induction Hc as [|st construct Hst _ IH]; intros made s H.
  - simpl. by rewrite app_nil_r.
  - simpl.
    destruct st as [c|[cs th] delay|[cs th]]; simpl in *.
    + replace (made ++ c :: sync_calls construct)
        with ((made ++ [c]) ++ sync_calls construct)
        by (by rewrite <- app_assoc).
      apply IH. by apply after_calls_do.
    + destruct th; [done|]. apply IH. apply after_calls_with_timers; [done|].
      apply insert_timer_Forall; [by exists cs|]. by destruct H as (?&?&?&?&?&?&?).
    + destruct th; [done|]. apply IH. apply after_calls_with_ticks; [done|].
      apply Forall_app. split; [by destruct H as (?&?&?&?&?&?&?)|].
      repeat constructor. by exists cs.
Qed.

Lemma after_calls_fire made cb s :
  after_calls made s → wrapped_cb 0 0 cb →
  after_calls (made ++ body_calls cb) (fire cb s) ∧
  ticks (fire cb s) = ticks s ∧ timers (fire cb s) = timers s.
Proof.
  intros H [cs ->]. simpl. by apply after_calls_run_calls.
Qed.

Lemma after_calls_loop made s :
  after_calls made s →
  let s' := run (length (ticks s) + length (timers s)) s in
  after_calls (made ++ scheduled_calls s) s' ∧ ticks s' = [] ∧ timers s' = [].
Proof.
  remember (length (ticks s) + length (timers s))%nat as n eqn:Hn.
  revert made s Hn. induction n as [|n IH]; intros made s Hn H; cbv zeta.
  - destruct (ticks s) as [|? ?] eqn:Et; [|done].
    destruct (timers s) as [|? ?] eqn:Em; [|done].
    unfold scheduled_calls. rewrite Et, Em. simpl. by rewrite app_nil_r.
  - pose proof H as (Hh & Hf & Hj & Hc & Hs & Ht & Hm).
    rewrite run_S. unfold step. rewrite Hc, Hj.
    destruct (ticks s) as [|cb q] eqn:Et.
    + destruct (timers s) as [|[due cb] q] eqn:Em; [done|].
      apply Forall_cons in Hm as [Hcb Hq]. simpl in Hcb.
      destruct (after_calls_fire made cb
        (with_clock (Z.max (clock s) due) (with_timers q s))) as (H1 & E1 & E2);
        [|done|].
      { apply after_calls_with_clock. by apply after_calls_with_timers. }
      simpl in E1, E2. rewrite Et in E1.
      destruct (IH (made ++ body_calls cb) _
        ltac:(rewrite E1, E2; simpl in *; lia) H1) as (H2 & ? & ?).
      split; [|done]. unfold scheduled_calls in *.
      rewrite E1, E2 in H2. rewrite Et, Em. simpl in *.
      by rewrite <- app_assoc in H2.
    + apply Forall_cons in Ht as [Hcb Hq].
      destruct (after_calls_fire made cb (with_ticks q s)) as (H1 & E1 & E2);
        [by apply after_calls_with_ticks|done|].
      simpl in E1, E2.
      destruct (IH (made ++ body_calls cb) _
        ltac:(rewrite E1, E2; simpl in *; lia) H1) as (H2 & ? & ?).
      split; [|done]. unfold scheduled_calls in *.
      rewrite E1, E2 in H2. rewrite Et. simpl in *.
      by rewrite <- !app_assoc in *.
Qed.

Lemma scheduled_insert_timer t l :
  length (concat (body_calls <$> (snd <$> insert_timer t l)))
  = (length (body_calls t.2)
     + length (concat (body_calls <$> (snd <$> l))))%nat.
Proof.
  induction l as [|u l IH]; cbn [insert_timer].
  - simpl. rewrite app_nil_r. lia.
  - destruct (u.1 <=? t.1);
      rewrite ?fmap_cons; cbn [concat]; rewrite ?length_app, ?IH; lia.
Qed.

Lemma scheduled_do_call res rej s c :
  scheduled (do_call res rej s c) = scheduled s.
Proof.
  assert (H : ∀ f v s, scheduled (call_fn f v s) = scheduled s).
  { clear. induction f as [p|p|i f IH]; intros v s; simpl.
    - unfold settle. by destruct (heap s !! p) as [[[] ?]|].
    - unfold settle. by destruct (heap s !! p) as [[[] ?]|].
    - rewrite IH. unfold note_call. by destruct (flag i s). }
  apply H.
Qed.

Lemma scheduled_run_script res rej dom construct s :
  (length (sync_calls construct)
   + scheduled (run_script res rej dom construct s))%nat
  = (total_calls construct + scheduled s)%nat.
Proof.
  revert s; induction construct as [|st construct IH]; intros s; [done|].
  change (run_script res rej dom (st :: construct) s)
    with (run_script res rej dom construct (run_stmt res rej dom s st)).
  destruct st as [c|b delay|b]; cbn [sync_calls total_calls length run_stmt].
  - rewrite Nat.add_succ_l, IH, scheduled_do_call. lia.
  - rewrite IH. unfold scheduled, scheduled_calls, set_timeout.
    cbn [ticks timers with_timers].
    rewrite !length_app, scheduled_insert_timer. cbn [snd body_calls]. lia.
  - rewrite IH. unfold scheduled, scheduled_calls, next_tick.
    cbn [ticks timers with_ticks].
    rewrite fmap_app, concat_app, !length_app. simpl.
    rewrite length_app. simpl. lia.
Qed.


(** * timeout.js *)

Lemma run_script_late D res rej dom construct s :
  Forall (λ st, settles_after D st = true) construct →
  0 ≤ clock s → Forall (λ u : timer, D < u.1) (timers s) →
  ∃ T, run_script res rej dom construct s = with_timers T s ∧
       Forall (λ u : timer, D < u.1) T.
Proof.
  intros Hc. revert s. induction Hc as [|st construct Hst _ IH]; intros s Hs HT.
  - exists (timers s). split; [by destruct s|done].
  - destruct st as [c|b delay|b]; try done. simpl in Hst.
    apply Z.ltb_lt in Hst. simpl.
    destruct (IH (set_timeout (Deferred res rej dom b) delay s)) as (T & E & HF).
    + done.
    + simpl. apply insert_timer_Forall; [simpl; lia|done].
    + exists T. split; [|done]. rewrite E. done.
Qed.



(** * domain.js *)

Lemma sink_run_calls_native p cs s :
  sink (run_calls (NativeResolve p) (NativeReject p) cs s) = sink s.
Proof.
  revert s; induction cs as [|c cs IH]; intros s; [done|].
  simpl. by rewrite IH, do_call_native, sink_settle.
Qed.

(** C6: when a deferred callback of [construct] throws [err], the domain
    listener rejects the promise with [err] and calls the error handler
    with [err], once. The handler call does not depend on the promise:
    it is made as well when the promise is already settled and [reject] is
    a no-op. For a [construct] that only schedules a throwing callback,
    the promise ends rejected with [err] and the console holds that one
    report. *)
Theorem isolated_fault_rejects_and_reports (err : value) :
  (∀ p cs s, sink (fire (faulty p cs err) s) = sink s ++ [Reported err]) ∧
  (∀ p s, promise_state p s = Some Pending →
     promise_state p (fire (faulty p [] err) s)
     = Some (Settled (Rejected err))) ∧
  (∀ p cs r s, promise_state p s = Some (Settled r) →
     promise_state p (fire (faulty p cs err) s) = Some (Settled r) ∧
     sink (fire (faulty p cs err) s) = sink s ++ [Reported err]) ∧
  (let '(p, s) :=
     domainProtectedPromise [NextTick (Body [] (Some err))] init in
   promise_state p s = Some Pending ∧ sink s = [] ∧
   ticks s = [faulty p [] err] ∧
   quiescent (run 1 s) ∧
   promise_state p (run 1 s) = Some (Settled (Rejected err)) ∧
   sink (run 1 s) = [Reported err] ∧ crashed (run 1 s) = None) ∧
  (∀ delay,
   let '(p, s) :=
     domainProtectedPromise [SetTimeout (Body [] (Some err)) delay] init in
   promise_state p s = Some Pending ∧ sink s = [] ∧
   timers s = [(timer_delay delay, faulty p [] err)] ∧
   quiescent (run 1 s) ∧
   promise_state p (run 1 s) = Some (Settled (Rejected err)) ∧
   sink (run 1 s) = [Reported err] ∧ crashed (run 1 s) = None).
Proof.
  assert (Hsink : ∀ p cs s,
    sink (fire (faulty p cs err) s) = sink s ++ [Reported err]).
  { intros p cs s. simpl.
    by rewrite sink_settle, sink_run_calls_native. }
  split; [exact Hsink|]. split; [|split; [|split]].
  - intros p s Hp. simpl. unfold promise_state in *.
    destruct (heap s !! p) as [[st ks]|] eqn:E; [|done].
    simpl in Hp. injection Hp as ->.
    change (promise_state p (settle p (Rejected err) s)
            = Some (Settled (Rejected err))).
    by eapply settle_pending.
  - intros p cs r s Hp. split; [|apply Hsink].
    by apply evolves_fire.
  - by vm_compute.
  - intros delay. cbn -[timer_delay]. by repeat split.
Qed.

(** * The clock and the queues *)

(** A turn of the loop runs the first callback of the nextTick queue; with
    none, the first job; with neither, the earliest timer. *)
Lemma step_tick c h fl cb q jb tm sk :
  step (State c h fl (cb :: q) jb tm sk None)
  = Some (fire cb (State c h fl q jb tm sk None)).
Proof. reflexivity. Qed.

Lemma step_job c h fl j js tm sk :
  step (State c h fl [] (j :: js) tm sk None)
  = Some (run_job j (State c h fl [] js tm sk None)).
Proof. reflexivity. Qed.

Lemma step_timer c h fl due cb tm sk :
  step (State c h fl [] [] ((due, cb) :: tm) sk None)
  = Some (fire cb (State (Z.max c due) h fl [] [] tm sk None)).
Proof. reflexivity. Qed.

(** Only the event loop moves the clock and takes callbacks off the
    queues. *)
Lemma queues_settle p r s :
  clock (settle p r s) = clock s ∧ ticks (settle p r s) = ticks s ∧
  timers (settle p r s) = timers s.
Proof. unfold settle. by destruct (heap s !! p) as [[[] ?]|]. Qed.

Lemma queues_call_fn f v s :
  clock (call_fn f v s) = clock s ∧ ticks (call_fn f v s) = ticks s ∧
  timers (call_fn f v s) = timers s.
Proof.
  revert v s. induction f as [p|p|i f IH]; intros v s; simpl;
    try apply queues_settle.
  destruct (IH v (note_call i s)) as (-> & -> & ->).
  unfold note_call. by destruct (flag i s).
Qed.

Lemma queues_run_calls res rej cs s :
  clock (run_calls res rej cs s) = clock s ∧
  ticks (run_calls res rej cs s) = ticks s ∧
  timers (run_calls res rej cs s) = timers s.
Proof.
  revert s; induction cs as [|c cs IH]; intros s; [done|].
  simpl. destruct (IH (do_call res rej s c)) as (-> & -> & ->).
  apply queues_call_fn.
Qed.

Lemma clock_native_then p f g s : clock (native_then p f g s).2 = clock s.
Proof.
  unfold native_then. simpl.
  by destruct ((heap s ++ [PCell Pending []]) !! p) as [[[] ?]|].
Qed.

Lemma clock_obj_catch o h cs s : clock (obj_catch o h cs s).2 = clock s.
Proof.
  revert cs s; induction o as [p|i o IH t]; intros cs s; simpl.
  - pose proof (clock_native_then p None h s) as H.
    unfold native_catch. by destruct (native_then p None h s).
  - specialize (IH (InWrappedCatch :: cs) (set_flag i s)).
    destruct (obj_catch o h _ _) as [w s2]. simpl in *. done.
Qed.

Lemma clock_fire cb s : clock (fire cb s) = clock s.
Proof.
  destruct cb as [i o pc stk|rej|res rej dom [cs th]]; simpl.
  - unfold deadline_check. destruct (flag i s); [done|].
    destruct (negb (truthy pc)); [done|]. apply clock_obj_catch.
  - apply queues_call_fn.
  - destruct (queues_run_calls res rej cs s) as (E & _).
    destruct th as [err|], dom as [[r]|]; simpl; try done.
    by destruct (queues_call_fn r err (run_calls res rej cs s)) as (-> & _).
Qed.

Lemma clock_run_job j s : clock (run_job j s) = clock s.
Proof.
  assert (H : ∀ p r s, clock (settle p r s) = clock s)
    by (intros; apply queues_settle).
  destruct j as [[[f|]|] r tgt]; simpl; rewrite ?H; [|done|done].
  destruct (f (settled_value r)); by rewrite H.
Qed.

Lemma step_until_step t s s' : step_until t s = Some s' → step s = Some s'.
Proof.
  unfold step_until.
  destruct (ticks s), (jobs s), (timers s) as [|[due ?] ?]; try done.
  by destruct (due <=? t).
Qed.

Lemma clock_step_until t s s' :
  step_until t s = Some s' → clock s ≤ t → clock s' ≤ t.
Proof.
  unfold step_until, step. destruct (crashed s).
  { destruct (ticks s), (jobs s), (timers s) as [|[due ?] ?]; try done.
    by destruct (due <=? t). }
  destruct (ticks s) as [|cb q].
  - destruct (jobs s) as [|j js].
    + destruct (timers s) as [|[due cb] q]; [done|].
      destruct (Z.leb_spec due t); [|done].
      intros [= <-] Hc. rewrite clock_fire. simpl. lia.
    + intros [= <-] Hc. by rewrite clock_run_job.
  - intros [= <-] Hc. by rewrite clock_fire.
Qed.

Lemma clock_run_until t n s : clock s ≤ t → clock (run_until t n s) ≤ t.
Proof.
  revert s; induction n as [|n IH]; intros s H; [done|].
  simpl. destruct (step_until t s) as [s'|] eqn:E; [|done].
  apply IH. by eapply clock_step_until.
Qed.

Lemma evolves_run_until t n s : evolves s (run_until t n s).
Proof.
  revert s; induction n as [|n IH]; intros s; [apply evolves_refl|].
  simpl. destruct (step_until t s) as [s'|] eqn:E; [|apply evolves_refl].
  eapply evolves_trans; [|apply IH]. apply evolves_step.
  by eapply step_until_step.
Qed.

(** * One promise, no registration *)

Lemma first_call_app made c :
  first_call (made ++ [c])
  = match first_call made with Pending => Settled (call_result c) | st => st end.
Proof. by destruct made. Qed.

Lemma lone_settle made out c s :
  lone made out s →
  lone (made ++ [c]) out (settle 0 (call_result c) s) ∧
  ticks (settle 0 (call_result c) s) = ticks s ∧
  timers (settle 0 (call_result c) s) = timers s.
Proof.
  intros (Hh & Hj & Hx & Hs & Ht & Hm).
  unfold lone, settle. rewrite first_call_app, Hh. simpl.
  destruct (first_call made) as [|r]; simpl; rewrite ?Hj; by repeat split.
Qed.

Lemma lone_run_calls made out cs s :
  lone made out s →
  let s' := run_calls (NativeResolve 0) (NativeReject 0) cs s in
  lone (made ++ cs) out s' ∧ ticks s' = ticks s ∧ timers s' = timers s.
Proof.
  revert made s; induction cs as [|c cs IH]; intros made s H; cbv zeta.
  - by rewrite app_nil_r.
  - simpl. rewrite do_call_native.
    destruct (lone_settle made out c s H) as (H1 & Ht & Hm).
    destruct (IH (made ++ [c]) _ H1) as (H2 & Ht' & Hm').
    rewrite <- app_assoc in H2. by rewrite <- Ht, <- Hm.
Qed.

Lemma lone_console made out r s :
  lone made out s → lone made (out ++ [r]) (console r s).
Proof. intros (?&?&?&?&?&?). repeat split; simpl; congruence. Qed.

Lemma lone_fire made out cb s :
  lone made out s → owned 0 cb →
  lone (made ++ effects cb) (out ++ faults cb) (fire cb s) ∧
  ticks (fire cb s) = ticks s ∧ timers (fire cb s) = timers s.
Proof.
  intros H Hcb. destruct cb as [| rej | res rej dom [cs th]]; [done| |].
  - simpl in Hcb; subst. simpl. rewrite app_nil_r.
    apply (lone_settle made out (Call Reject timeout_error) s H).
  - destruct Hcb as (-> & -> & Hd). simpl.
    destruct (lone_run_calls made out cs s H) as (H1 & Ht & Hm).
    destruct th as [err|].
    + destruct Hd as [->|Hd]; [|done]. simpl.
      destruct (lone_settle (made ++ cs) out (Call Reject err) _ H1)
        as (H2 & Ht' & Hm').
      rewrite <- app_assoc in H2. split; [by apply lone_console|].
      change (call_result (Call Reject err)) with (Rejected err) in Ht', Hm'.
      simpl. split; congruence.
    + destruct dom; simpl; rewrite !app_nil_r; done.
Qed.

Lemma lone_with_ticks made out q s :
  lone made out s → Forall (owned 0) q → lone made out (with_ticks q s).
Proof. intros (?&?&?&?&?&?) Hq. by repeat split. Qed.

Lemma lone_with_timers made out q s :
  lone made out s → Forall (λ t : timer, owned 0 t.2) q →
  lone made out (with_timers q s).
Proof. intros (?&?&?&?&?&?) Hq. by repeat split. Qed.

Lemma lone_with_clock made out t s :
  lone made out s → lone made out (with_clock t s).
Proof. intros (?&?&?&?&?&?). by repeat split. Qed.

Lemma lone_loop made out s :
  lone made out s →
  let s' := run (length (ticks s) + length (timers s)) s in
  lone (made ++ timeline s ≫= effects) (out ++ timeline s ≫= faults) s' ∧
  ticks s' = [] ∧ timers s' = [].
Proof.
  remember (length (ticks s) + length (timers s))%nat as n eqn:Hn.
  revert made out s Hn. induction n as [|n IH]; intros made out s Hn H; cbv zeta.
  - destruct (ticks s) as [|? ?] eqn:Et; [|done].
    destruct (timers s) as [|? ?] eqn:Em; [|done].
    unfold timeline. rewrite Et, Em. simpl. by rewrite !app_nil_r.
  - pose proof H as (Hh & Hj & Hc & Hs & Ht & Hm).
    rewrite run_S. unfold step. rewrite Hc, Hj.
    destruct (ticks s) as [|cb q] eqn:Et.
    + destruct (timers s) as [|[due cb] q] eqn:Em; [done|].
      apply Forall_cons in Hm as [Hcb Hq]. simpl in Hcb.
      destruct (lone_fire made out cb
        (with_clock (Z.max (clock s) due) (with_timers q s))) as (H1 & E1 & E2);
        [|done|].
      { apply lone_with_clock. by apply lone_with_timers. }
      simpl in E1, E2. rewrite Et in E1.
      destruct (IH (made ++ effects cb) (out ++ faults cb) _
        ltac:(rewrite E1, E2; simpl in *; lia) H1) as (H2 & ? & ?).
      split; [|done]. unfold timeline in *.
      rewrite E1, E2 in H2. rewrite Et, Em. simpl in *.
      by rewrite <- !app_assoc in H2.
    + apply Forall_cons in Ht as [Hcb Hq].
      destruct (lone_fire made out cb (with_ticks q s)) as (H1 & E1 & E2);
        [by apply lone_with_ticks|done|].
      simpl in E1, E2.
      destruct (IH (made ++ effects cb) (out ++ faults cb) _
        ltac:(rewrite E1, E2; simpl in *; lia) H1) as (H2 & ? & ?).
      split; [|done]. unfold timeline in *.
      rewrite E1, E2 in H2. rewrite Et. simpl in *.
      by rewrite <- !app_assoc in *.
Qed.

(** * domain.js: every fault *)

Lemma lone_script made out dom construct s :
  dom = Some (Domain (NativeReject 0)) ∨
    Forall (λ st, never_throws st = true) construct →
  lone made out s →
  lone (made ++ sync_calls construct) out
    (run_script (NativeResolve 0) (NativeReject 0) dom construct s).
Proof.
  revert made s. induction construct as [|st construct IH]; intros made s Hd H.
  - simpl. by rewrite app_nil_r.
  - assert (Hd' : dom = Some (Domain (NativeReject 0)) ∨
                  Forall (λ st, never_throws st = true) construct).
    { destruct Hd as [->|Hc]; [by left|right]. by inversion Hc. }
    change (run_script ?r ?j dom (st :: construct) s)
      with (run_script r j dom construct (run_stmt r j dom s st)).
    destruct st as [c|b delay|b]; cbn [sync_calls run_stmt].
    + replace (made ++ c :: sync_calls construct)
        with ((made ++ [c]) ++ sync_calls construct)
        by (by rewrite <- app_assoc).
      apply IH; [done|]. rewrite do_call_native. by apply lone_settle.
    + apply IH; [done|]. apply lone_with_timers; [done|].
      apply insert_timer_Forall; [|by destruct H as (?&?&?&?&?&?)].
      simpl. split; [done|]. split; [done|].
      destruct Hd as [->|Hc]; [by left|right].
      inversion Hc as [|? ? Hb _]; subst. simpl in Hb. by destruct (throws b).
    + apply IH; [done|]. apply lone_with_ticks; [done|].
      apply Forall_app. split; [by destruct H as (?&?&?&?&?&?)|].
      constructor; [|constructor].
      simpl. split; [done|]. split; [done|].
      destruct Hd as [->|Hc]; [by left|right].
      inversion Hc as [|? ? Hb _]; subst. simpl in Hb. by destruct (throws b).
Qed.

Lemma insert_timer_Permutation t l : insert_timer t l ≡ₚ t :: l.
Proof.
  induction l as [|u l IH]; simpl; [done|].
  destruct (u.1 <=? t.1); [|done].
  rewrite IH. apply Permutation_swap.
Qed.

(** Every callback deferred inside the domain is on the timeline with the
    error it throws. *)
Lemma faults_run_script res rej d construct s :
  timeline (run_script res rej (Some d) construct s) ≫= faults
  ≡ₚ (timeline s ≫= faults) ++ (Reported <$> construct ≫= thrown_by).
Proof.
  revert s; induction construct as [|st construct IH]; intros s.
  - simpl. by rewrite app_nil_r.
  - change (run_script res rej (Some d) (st :: construct) s)
      with (run_script res rej (Some d) construct
              (run_stmt res rej (Some d) s st)).
    rewrite IH. clear IH.
    change ((st :: construct) ≫= thrown_by)
      with (thrown_by st ++ construct ≫= thrown_by).
    rewrite fmap_app, app_assoc. f_equiv.
    destruct st as [c|b delay|b]; cbn [run_stmt thrown_by].
    + rewrite app_nil_r. unfold do_call, timeline.
      by destruct (queues_call_fn
        (match callee c with Resolve => res | Reject => rej end) (arg c) s)
        as (_ & -> & ->).
    + unfold timeline, set_timeout. cbn [ticks timers with_timers].
      rewrite !bind_app, insert_timer_Permutation, fmap_cons, bind_cons.
      cbn [snd faults]. rewrite <- app_assoc.
      f_equiv. rewrite Permutation_app_comm. f_equiv.
      by destruct (throws b).
    + unfold timeline, next_tick. cbn [ticks timers with_ticks].
      rewrite !bind_app, <- !app_assoc. f_equiv.
      rewrite Permutation_app_comm. f_equiv. rewrite bind_cons.
      cbn [faults]. destruct (throws b); by simpl.
Qed.

(** X10, domain.js: every construction function, whatever its deferred
    callbacks throw: the process survives, each fault is handed to the error
    handler once, and the promise is settled by the first settlement in
    execution order, the listener's [reject(err)] counting as one. *)
Theorem domain_hands_over_every_fault (construct : script) :
  let '(p, s0) := Domain.createPromise construct init in
  let final := run (length (ticks s0) + length (timers s0)) s0 in
  quiescent final ∧ crashed final = None ∧
  sink final = timeline s0 ≫= faults ∧
  sink final ≡ₚ Reported <$> construct ≫= thrown_by ∧
  promise_state p final
  = Some (first_call (sync_calls construct ++ timeline s0 ≫= effects)).
Proof.
  unfold Domain.createPromise, domainProtectedPromise, new_promise.
  cbn -[run_script run].
  set (s1 := with_heap _ _).
  assert (H1 : lone [] [] s1) by (by repeat split).
  pose proof (lone_script [] [] (Some (Domain (NativeReject 0))) construct s1
    ltac:(by left) H1) as H0. simpl in H0.
  pose proof (faults_run_script (NativeResolve 0) (NativeReject 0)
    (Domain (NativeReject 0)) construct s1) as Hp.
  set (s0 := run_script _ _ _ _ _) in *.
  destruct (lone_loop _ _ s0 H0) as (Hf & Et & Em).
  set (final := run _ s0) in *.
  destruct Hf as (Hh & Hj & Hx & Hs & _ & _).
  split; [|split; [done|split; [done|split]]].
  - unfold quiescent, step. by rewrite Hx, Et, Hj, Em.
  - by rewrite Hs, Hp.
  - unfold promise_state. by rewrite Hh.
Qed.

(** The native callbacks on a pending promise with one registration: the
    first call settles it and queues the job, the others do nothing. *)
Lemma run_calls_registered k cs c (s : state) pre post :
  heap s = pre ++ PCell Pending [k] :: post →
  run_calls (NativeResolve (length pre)) (NativeReject (length pre))
    (c :: cs) s
  = with_jobs (jobs s ++ [reaction_job (call_result c) k])
      (with_heap (pre ++ PCell (Settled (call_result c)) [] :: post) s).
Proof.
  intros Hh.
  change (run_calls ?r ?j (c :: cs) s) with (run_calls r j cs (do_call r j s c)).
  rewrite do_call_native.
  unfold settle at 1. rewrite Hh.
  rewrite lookup_app_r, Nat.sub_diag by done. cbn [lookup list_lookup].
  rewrite insert_app_r_alt, Nat.sub_diag by done. cbn [insert list_insert].
  cbn [fmap list_fmap].
  erewrite run_calls_settled; [done|].
  cbn [heap with_jobs with_heap].
  by rewrite lookup_app_r, Nat.sub_diag.
Qed.

(** X11, domain.js: a fault in a deferred callback of [construct] reaches both
    sides. The error handler is called with the error; the consumer registered
    with [then] is called through the promise: with the error, by its
    rejection handler, or, when the callback had settled the promise before it
    threw, with that settlement. *)
Theorem fault_reaches_handler_and_consumer
  (cs : list call) (err : value)
  (onResolved onRejected : option (value → outcome)) (site : string) :
  let '(p, s) := Domain.createPromise [NextTick (Body cs (Some err))] init in
  let '(q, s1) :=
    native_then p (UserFn <$> onResolved) (UserFn <$> onRejected) s in
  let r := match cs with [] => Rejected err | c :: _ => call_result c end in
  promise_state p s1 = Some Pending ∧ sink s1 = [] ∧
  quiescent (run 2 s1) ∧ crashed (run 2 s1) = None ∧
  sink (run 2 s1) = [Reported err] ∧
  promise_state p (run 2 s1) = Some (Settled r) ∧
  promise_state q (run 2 s1)
  = Some (Settled (through r (Then onResolved onRejected site))).
Proof.
  unfold Domain.createPromise, domainProtectedPromise, new_promise.
  cbn -[run]. split; [done|]. split; [done|].
  set (k := Reaction (UserFn <$> onResolved) (UserFn <$> onRejected) 1).
  set (r := match cs with [] => Rejected err | c :: _ => call_result c end).
  assert (E1 : fire (Deferred (NativeResolve 0) (NativeReject 0)
                       (Some (Domain (NativeReject 0))) (Body cs (Some err)))
                 (State 0 [PCell Pending [k]; PCell Pending []] [] [] [] [] []
                    None)
               = State 0 [PCell (Settled r) []; PCell Pending []] [] []
                   [reaction_job r k] [] [Reported err] None).
  { unfold fire. cbn [calls throws on_domain_error]. destruct cs as [|c cs].
    - reflexivity.
    - rewrite (run_calls_registered k cs c _ [] [PCell Pending []]) by done.
      reflexivity. }
  assert (E2 : run_job (reaction_job r k)
                 (State 0 [PCell (Settled r) []; PCell Pending []] [] [] []
                    [] [Reported err] None)
               = State 0 [PCell (Settled r) [];
                          PCell (Settled
                            (through r (Then onResolved onRejected site))) []]
                   [] [] [] [] [Reported err] None).
  { unfold through, k. destruct r as [v|v];
      [destruct onResolved as [f|]|destruct onRejected as [f|]];
      simpl; try reflexivity; by destruct (f v). }
  match goal with |- context [run 2 ?s] =>
    change s with
      (State 0 [PCell Pending [k]; PCell Pending []] []
         [Deferred (NativeResolve 0) (NativeReject 0)
            (Some (Domain (NativeReject 0))) (Body cs (Some err))] [] [] []
         None)
  end.
  rewrite run_S, step_tick, E1, run_S, step_job, E2. by repeat split.
Qed.

(** * timeout.js: the timeout among the settlement calls *)

Lemma by_due_insert t l : by_due l → by_due (insert_timer t l).
Proof.
  induction l as [|u l IH]; simpl; [done|]. intros [Hu Hl].
  destruct (Z.leb_spec u.1 t.1); simpl.
  - split; [|by apply IH]. apply insert_timer_Forall; [done|done].
  - split; [|done]. constructor; [lia|].
    eapply Forall_impl; [exact Hu|]. simpl. intros; lia.
Qed.

Lemma by_due_run_script res rej dom construct s :
  by_due (timers s) →
  by_due (timers (run_script res rej dom construct s)) ∧
  clock (run_script res rej dom construct s) = clock s.
Proof.
  revert s; induction construct as [|st construct IH]; intros s H; [done|].
  change (run_script res rej dom (st :: construct) s)
    with (run_script res rej dom construct (run_stmt res rej dom s st)).
  destruct st as [c|b delay|b]; cbn [run_stmt].
  - unfold do_call.
    destruct (queues_call_fn
      (match callee c with Resolve => res | Reject => rej end) (arg c) s)
      as (Hc & _ & Hm).
    destruct (IH (call_fn
      (match callee c with Resolve => res | Reject => rej end) (arg c) s))
      as [H1 H2]; [by rewrite Hm|]. split; [done|congruence].
  - destruct (IH (set_timeout (Deferred res rej dom b) delay s)) as [H1 H2];
      [by apply by_due_insert|done].
  - destruct (IH (next_tick (Deferred res rej dom b) s)) as [H1 H2]; done.
Qed.

(** The timeout callback fires by its due time, whatever else is queued. *)
Lemma lone_by_deadline T due made out n s :
  lone made out s → by_due (timers s) →
  (due, ForceReject (NativeReject 0)) ∈ timers s → due ≤ T →
  (length (ticks s) + length (timers s) ≤ n)%nat →
  ∃ r, promise_state 0 (run_until T n s) = Some (Settled r).
Proof.
  revert made out s. induction n as [|n IH]; intros made out s H Hs Hin HT Hn.
  - destruct (timers s); [by apply elem_of_nil in Hin|simpl in Hn; lia].
  - pose proof H as (Hh & Hj & Hx & Hk & Ht & Hm).
    rewrite run_until_S. unfold step_until, step. rewrite Hx, Hj.
    destruct (ticks s) as [|cb q] eqn:Et.
    + destruct (timers s) as [|[d0 cb0] q] eqn:Em;
        [by apply elem_of_nil in Hin|].
      destruct Hs as [Hle Hs]. apply Forall_cons in Hm as [Hcb Hq].
      assert (Hd0 : d0 ≤ T).
      { apply elem_of_cons in Hin as [[= <- <-]|Hin]; [done|].
        rewrite Forall_forall in Hle. specialize (Hle _ Hin). simpl in Hle.
        lia. }
      destruct (Z.leb_spec d0 T); [|lia].
      set (s1 := with_clock (Z.max (clock s) d0) (with_timers q s)).
      assert (H1 : lone made out s1).
      { apply lone_with_clock. by apply lone_with_timers. }
      destruct (lone_fire made out cb0 s1 H1 Hcb) as (H2 & E1 & E2).
      apply elem_of_cons in Hin as [[= <- <-]|Hin].
      * assert (∃ r, promise_state 0 (fire (ForceReject (NativeReject 0)) s1)
                     = Some (Settled r)) as [r Hr].
        { simpl. unfold settle, promise_state.
          destruct H1 as (Hh1 & _). rewrite Hh1. simpl.
          destruct (first_call made) eqn:E; simpl; rewrite ?Hh, ?E; simpl;
            eauto. }
        exists r. by apply evolves_run_until.
      * apply (IH _ _ _ H2); try done.
        -- by rewrite E2.
        -- by rewrite E2.
        -- rewrite E1, E2. simpl in *. rewrite Et. simpl. lia.
    + apply Forall_cons in Ht as [Hcb Hq].
      destruct (lone_fire made out cb (with_ticks q s)) as (H1 & E1 & E2);
        [by apply lone_with_ticks|done|].
      assert (Hgo : ∃ r, promise_state 0
                (run_until T n (fire cb (with_ticks q s))) = Some (Settled r)).
      { apply (IH _ _ _ H1); try done.
        -- by rewrite E2.
        -- by rewrite E2.
        -- rewrite E1, E2. simpl in *. lia. }
      destruct (jobs s), (timers s) as [|[d0 cb0] q0]; try done.
Qed.

Lemma faultless_run_script res rej construct s :
  Forall (λ cb, faults cb = []) (timeline s) →
  Forall (λ cb, faults cb = [])
    (timeline (run_script res rej None construct s)).
Proof.
  revert s; induction construct as [|st construct IH]; intros s H; [done|].
  change (run_script res rej None (st :: construct) s)
    with (run_script res rej None construct (run_stmt res rej None s st)).
  apply IH. unfold timeline in *. apply Forall_app in H as [Ht Hm].
  destruct st as [c|b delay|b]; cbn [run_stmt].
  - unfold do_call.
    destruct (queues_call_fn
      (match callee c with Resolve => res | Reject => rej end) (arg c) s)
      as (_ & -> & ->). by apply Forall_app.
  - apply Forall_app. split; [done|]. apply Forall_fmap. simpl.
    apply insert_timer_Forall; [done|]. by apply Forall_fmap in Hm.
  - apply Forall_app. split; [|done]. simpl. apply Forall_app.
    split; [done|]. by constructor.
Qed.

Lemma faultless_bind (l : list callback) :
  Forall (λ cb, faults cb = []) l → l ≫= faults = [].
Proof.
  induction 1 as [|cb l H _ IH]; [done|]. by rewrite bind_cons, H, IH.
Qed.

Lemma first_call_settled made c :
  c ∈ made → ∃ r, first_call made = Settled r.
Proof. destruct made; [by intros ?%elem_of_nil|simpl; eauto]. Qed.

Lemma timeout_is_scheduled D construct :
  (timer_delay D, ForceReject (NativeReject 0))
  ∈ timers (timeoutPromise D construct init).2.
Proof.
  unfold timeoutPromise, new_promise, set_timeout.
  cbn -[run_script timer_delay].
  destruct (by_due_run_script (NativeResolve 0) (NativeReject 0) None
    construct (with_heap [PCell Pending []] init) I) as [_ ->].
  apply insert_timer_elem.
Qed.

(** X1, timeout.js: the promise is settled by the first settlement call in
    execution order, the timeout's [reject] being one of them; so it never
    stays pending, and a settlement made inside [construct] is final. *)
Theorem timeout_is_one_more_settlement_call (D : Z) (construct : script) :
  Forall (λ st, never_throws st = true) construct →
  let '(p, s0) := timeoutPromise D construct init in
  let final := run (length (ticks s0) + length (timers s0)) s0 in
  (timer_delay D, ForceReject (NativeReject p)) ∈ timers s0 ∧
  quiescent final ∧ crashed final = None ∧ sink final = [] ∧
  promise_state p final
  = Some (first_call (sync_calls construct ++ timeline s0 ≫= effects)) ∧
  (∃ r, promise_state p final = Some (Settled r)) ∧
  (∀ c rest n, sync_calls construct = c :: rest →
     promise_state p (run n s0) = Some (Settled (call_result c))).
Proof.
  intros Hc. unfold timeoutPromise, new_promise.
  cbn -[run_script run].
  set (s1 := with_heap _ _).
  assert (H1 : lone [] [] s1) by (by repeat split).
  pose proof (lone_script [] [] None construct s1 ltac:(by right) H1) as H0.
  simpl in H0.
  set (s2 := run_script _ _ _ _ _) in *.
  set (fr := (timer_delay D, ForceReject (NativeReject 0))).
  assert (Hin : fr ∈ timers (set_timeout (ForceReject (NativeReject 0)) D s2))
    by apply (timeout_is_scheduled D construct).
  assert (H3 : lone (sync_calls construct) []
                 (set_timeout (ForceReject (NativeReject 0)) D s2)).
  { apply lone_with_timers; [done|].
    apply insert_timer_Forall; [done|by destruct H0 as (?&?&?&?&?&?)]. }
  set (s0 := set_timeout _ D s2) in *.
  destruct (lone_loop _ _ s0 H3) as (Hf & Et & Em).
  set (final := run _ s0) in *.
  destruct Hf as (Hh & Hj & Hx & Hs & _ & _).
  assert (Hp : promise_state 0 final
    = Some (first_call (sync_calls construct ++ timeline s0 ≫= effects))).
  { unfold promise_state. by rewrite Hh. }
  assert (Hq : timeline s0 ≫= faults = []).
  { apply faultless_bind. unfold timeline, s0, set_timeout. simpl.
    pose proof (faultless_run_script (NativeResolve 0) (NativeReject 0)
      construct s1 ltac:(constructor)) as Hfl.
    fold s2 in Hfl. unfold timeline in Hfl.
    apply Forall_app in Hfl as [Ht Hm]. apply Forall_app. split; [done|].
    apply Forall_fmap. apply insert_timer_Forall; [done|].
    by apply Forall_fmap in Hm. }
  split; [done|]. split; [|split; [done|split; [|split; [done|split]]]].
  - unfold quiescent, step. by rewrite Hx, Et, Hj, Em.
  - by rewrite Hs, Hq.
  - rewrite Hp.
    destruct (first_call_settled
      (sync_calls construct ++ timeline s0 ≫= effects)
      (Call Reject timeout_error)) as [r ->]; [|by exists r].
    apply elem_of_app. right. apply list_elem_of_bind.
    exists (ForceReject (NativeReject 0)). split; [by left|].
    unfold timeline. apply elem_of_app. right.
    apply list_elem_of_fmap. by exists fr.
  - intros c rest n E. apply evolves_run.
    destruct H3 as (Hh3 & _). unfold promise_state. rewrite Hh3, E. done.
Qed.

Lemma timeout_is_one_more_settlement_call_witness :
  let '(p, s0) := timeoutPromise 1000 (ex_resolve_in 10) init in
  let final := run (length (ticks s0) + length (timers s0)) s0 in
  (timer_delay 1000, ForceReject (NativeReject p)) ∈ timers s0 ∧
  quiescent final ∧ crashed final = None ∧ sink final = [] ∧
  promise_state p final
  = Some (first_call (sync_calls (ex_resolve_in 10)
                      ++ timeline s0 ≫= effects)) ∧
  (∃ r, promise_state p final = Some (Settled r)) ∧
  (∀ c rest n, sync_calls (ex_resolve_in 10) = c :: rest →
     promise_state p (run n s0) = Some (Settled (call_result c))).
Proof.
  apply (timeout_is_one_more_settlement_call 1000 (ex_resolve_in 10)).
  repeat constructor.
Defined.

(** X2, timeout.js: whatever [construct] defers, the promise is settled when
    the timers due by the deadline have run, and no later. *)
Theorem timeout_settles_by_deadline (D : Z) (construct : script) :
  Forall (λ st, never_throws st = true) construct →
  let '(p, s0) := timeoutPromise D construct init in
  ∀ n, (length (ticks s0) + length (timers s0) ≤ n)%nat →
    (∃ r, promise_state p (run_until (Z.max 1 D) n s0) = Some (Settled r)) ∧
    clock (run_until (Z.max 1 D) n s0) ≤ Z.max 1 D.
Proof.
  intros Hc. unfold timeoutPromise, new_promise.
  cbn -[run_script run_until].
  set (s1 := with_heap _ _).
  assert (H1 : lone [] [] s1) by (by repeat split).
  pose proof (lone_script [] [] None construct s1 ltac:(by right) H1) as H0.
  destruct (by_due_run_script (NativeResolve 0) (NativeReject 0) None
    construct s1 I) as [Hs Hk].
  simpl in H0, Hk.
  set (s2 := run_script _ _ _ _ _) in *.
  intros n Hn. split.
  - eapply (lone_by_deadline (Z.max 1 D) (timer_delay D)
              (sync_calls construct) []); try done.
    + apply lone_with_timers; [done|].
      apply insert_timer_Forall; [done|by destruct H0 as (?&?&?&?&?&?)].
    + by apply by_due_insert.
    + unfold set_timeout; cbn -[timer_delay]. rewrite Hk.
      apply insert_timer_elem.
    + apply timer_delay_le.
  - apply clock_run_until. simpl. lia.
Qed.

Lemma timeout_settles_by_deadline_witness :
  let '(p, s0) := timeoutPromise 1000 ex_late_resolve init in
  ∀ n, (length (ticks s0) + length (timers s0) ≤ n)%nat →
    (∃ r, promise_state p (run_until (Z.max 1 1000) n s0)
          = Some (Settled r)) ∧
    clock (run_until (Z.max 1 1000) n s0) ≤ Z.max 1 1000.
Proof.
  apply (timeout_settles_by_deadline 1000 ex_late_resolve).
  repeat constructor.
Defined.

(** X3, timeout.js: [construct] runs before the wrapper's [setTimeout], so a
    settlement call it schedules with a timer that runs with the delay of
    the timeout's timer, or a shorter one, is made before the timeout's
    [reject] and wins. *)
Theorem call_due_at_deadline_wins (D delay : Z) (c : call) (cs : list call) :
  timer_delay delay ≤ timer_delay D →
  let '(p, s0) :=
    timeoutPromise D [SetTimeout (Body (c :: cs) None) delay] init in
  promise_state p s0 = Some Pending ∧
  quiescent (run 2 s0) ∧
  promise_state p (run 2 s0) = Some (Settled (call_result c)) ∧
  clock (run 2 s0) = timer_delay D.
Proof.
  intros Hle. unfold timeoutPromise, new_promise, set_timeout.
  cbn -[run Z.max timer_delay].
  assert (H1 : 1 ≤ timer_delay delay) by apply timer_delay_bounds.
  generalize dependent (timer_delay D).
  generalize dependent (timer_delay delay).
  intros dl Hdl D' Hle. rewrite !Z.add_0_l.
  destruct (Z.leb_spec dl D'); [|lia].
  split; [done|].
  assert (Hrun : run 2 (State 0 [PCell Pending []] [] [] []
      [(dl, Deferred (NativeResolve 0) (NativeReject 0) None
              (Body (c :: cs) None));
       (D', ForceReject (NativeReject 0))] [] None)
    = State D' [PCell (Settled (call_result c)) []] [] [] [] [] [] None).
  { rewrite run_S. unfold step. cbn -[Z.max run run_calls].
    change (run_calls ?r ?j (c :: cs) ?s)
      with (run_calls r j cs (do_call r j s c)).
    rewrite do_call_native. unfold settle at 1. cbn -[Z.max run run_calls].
    erewrite run_calls_settled by done.
    rewrite run_S. unfold step. cbn -[Z.max run].
    unfold settle. cbn -[Z.max].
    replace (Z.max (Z.max 0 dl) D') with D' by lia. reflexivity. }
  match goal with |- context [run 2 ?s] =>
    change s with (State 0 [PCell Pending []] [] [] []
      [(dl, Deferred (NativeResolve 0) (NativeReject 0) None
              (Body (c :: cs) None));
       (D', ForceReject (NativeReject 0))] [] None)
  end.
  rewrite Hrun. by repeat split.
Qed.

Lemma call_due_at_deadline_wins_witness :
  let '(p, s0) :=
    timeoutPromise 1000
      [SetTimeout (Body (Call Resolve (VNum 1) :: []) None) 1000] init in
  promise_state p s0 = Some Pending ∧
  quiescent (run 2 s0) ∧
  promise_state p (run 2 s0)
  = Some (Settled (call_result (Call Resolve (VNum 1)))) ∧
  clock (run 2 s0) = timer_delay 1000.
Proof.
  apply (call_due_at_deadline_wins 1000 1000 (Call Resolve (VNum 1)) []).
  by vm_compute.
Defined.

(** X4, timeout.js: a chain on a promise that its construction function does
    not settle in time does not halt: by the deadline, one a timer can run
    with, the rejection handler has been called with the timeout error, or,
    when there is none, the next promise is rejected with it; the fulfilment
    handler plays no part. *)
Theorem chain_on_timed_out_promise_goes_on
  (D : Z) (construct : script)
  (onResolved onRejected : option (value → outcome)) :
  0 < D ≤ TIMEOUT_MAX →
  Forall (λ st, settles_after D st = true) construct →
  let '(p, s) := timeoutPromise D construct init in
  let '(q, s1) :=
    native_then p (UserFn <$> onResolved) (UserFn <$> onRejected) s in
  (∀ n, promise_state q (run_until (D - 1) n s1) = Some Pending) ∧
  (∀ n, (2 ≤ n)%nat →
     promise_state q (run_until D n s1)
     = Some (Settled
         match onRejected with
         | None => Rejected timeout_error
         | Some h =>
             match h timeout_error with
             | Return v => Fulfilled v
             | Throw e => Rejected e
             end
         end) ∧
     clock (run_until D n s1) = D).
Proof.
  intros HD Hc. unfold timeoutPromise, new_promise. cbn -[run_script].
  destruct (run_script_late D (NativeResolve 0) (NativeReject 0) None construct
    (with_heap [PCell Pending []] init) Hc) as (T & -> & HT);
    [done|by constructor|].
  unfold set_timeout; cbn -[timer_delay].
  rewrite timer_delay_range by lia.
  rewrite insert_timer_front
    by (eapply Forall_impl; [exact HT|simpl; intros; lia]).
  set (cb := ForceReject (NativeReject 0)).
  set (k := Reaction (UserFn <$> onResolved) (UserFn <$> onRejected) 1).
  set (res := match onRejected with
              | None => Rejected timeout_error
              | Some h => match h timeout_error with
                          | Return v => Fulfilled v
                          | Throw e => Rejected e
                          end
              end).
  set (s1 := State 0 [PCell Pending [k]; PCell Pending []] [] [] []
               ((D, cb) :: T) [] None).
  set (s2 := State D [PCell (Settled (Rejected timeout_error)) [];
                      PCell Pending []] [] []
               [Job (UserFn <$> onRejected) (Rejected timeout_error) 1]
               T [] None).
  set (s3 := State D [PCell (Settled (Rejected timeout_error)) [];
                      PCell (Settled res) []] [] [] [] T [] None).
  assert (H1 : step_until D s1 = Some s2).
  { unfold step_until, s1; simpl. rewrite Z.leb_refl. unfold step; simpl.
    unfold s2. by replace (Z.max 0 D) with D by lia. }
  assert (H2 : step_until D s2 = Some s3).
  { unfold step_until, step, s2, s3, res; simpl.
    destruct onRejected as [h|]; simpl; [|done].
    by destruct (h timeout_error). }
  assert (H3 : step_until D s3 = None).
  { unfold step_until, s3; simpl. destruct T as [|[due cb'] T]; [done|].
    apply Forall_cons in HT as [Hdue _]; simpl in Hdue.
    by destruct (Z.leb_spec due D); [lia|]. }
  match goal with |- context [run_until D _ ?s] => change s with s1 end.
  split.
  - intros n. rewrite run_until_stuck; [done|].
    unfold step_until, s1; simpl. by destruct (Z.leb_spec D (D - 1)); [lia|].
  - intros [|[|n]] Hn; try lia.
    assert (E : run_until D (S (S n)) s1 = s3).
    { rewrite run_until_S, H1, run_until_S, H2. by apply run_until_stuck. }
    rewrite E. done.
Qed.

Lemma chain_on_timed_out_promise_goes_on_witness :
  let '(p, s) := timeoutPromise 1000 ex_late_resolve init in
  let '(q, s1) :=
    native_then p (UserFn <$> Some ex_logging) (UserFn <$> Some ex_logging)
      s in
  (∀ n, promise_state q (run_until (1000 - 1) n s1) = Some Pending) ∧
  (∀ n, (2 ≤ n)%nat →
     promise_state q (run_until 1000 n s1)
     = Some (Settled
         match Some ex_logging with
         | None => Rejected timeout_error
         | Some h =>
             match h timeout_error with
             | Return v => Fulfilled v
             | Throw e => Rejected e
             end
         end) ∧
     clock (run_until 1000 n s1) = 1000).
Proof.
  apply (chain_on_timed_out_promise_goes_on 1000 ex_late_resolve
    (Some ex_logging) (Some ex_logging)).
  - by vm_compute.
  - repeat constructor.
Defined.

(** X18, timeout.js: a timeout outside the range of [setTimeout], below 1
    or above [TIMEOUT_MAX], runs after one millisecond. A promise that its
    construction function would settle later than that is rejected with
    the timeout error at time 1, however long the timeout asked for, and
    the settlement call made afterwards changes nothing. *)
Theorem timeout_out_of_range_runs_at_once
  (D delay : Z) (c : call) (cs : list call) :
  D < 1 ∨ TIMEOUT_MAX < D →
  1 < timer_delay delay →
  let '(p, s0) :=
    timeoutPromise D [SetTimeout (Body (c :: cs) None) delay] init in
  promise_state p s0 = Some Pending ∧
  promise_state p (run 1 s0) = Some (Settled (Rejected timeout_error)) ∧
  clock (run 1 s0) = 1 ∧
  quiescent (run 2 s0) ∧
  promise_state p (run 2 s0) = Some (Settled (Rejected timeout_error)) ∧
  clock (run 2 s0) = timer_delay delay.
Proof.
  intros HD Hdl. unfold timeoutPromise, new_promise, set_timeout.
  cbn -[run timer_delay].
  rewrite (timer_delay_out D HD), !Z.add_0_l.
  generalize dependent (timer_delay delay). intros dl Hdl.
  destruct (Z.leb_spec dl 1); [lia|].
  set (df := Deferred (NativeResolve 0) (NativeReject 0) None
               (Body (c :: cs) None)).
  match goal with |- context [run 2 ?s] =>
    change s with (State 0 [PCell Pending []] [] [] []
      [(1, ForceReject (NativeReject 0)); (dl, df)] [] None)
  end.
  split; [done|].
  assert (E1 : run 1 (State 0 [PCell Pending []] [] [] []
                  [(1, ForceReject (NativeReject 0)); (dl, df)] [] None)
               = State 1 [PCell (Settled (Rejected timeout_error)) []] [] []
                   [] [(dl, df)] [] None) by reflexivity.
  assert (E2 : run 2 (State 0 [PCell Pending []] [] [] []
                  [(1, ForceReject (NativeReject 0)); (dl, df)] [] None)
               = State dl [PCell (Settled (Rejected timeout_error)) []] [] []
                   [] [] [] None).
  { rewrite run_S, step_timer.
    replace (fire (ForceReject (NativeReject 0)) _)
      with (State 1 [PCell (Settled (Rejected timeout_error)) []] [] []
              [] [(dl, df)] [] None) by reflexivity.
    rewrite run_S, step_timer. replace (Z.max 1 dl) with dl by lia.
    unfold df, fire. cbn [calls throws].
    by erewrite run_calls_settled. }
  rewrite E1, E2. by repeat split.
Qed.

Lemma timeout_out_of_range_runs_at_once_witness :
  let '(p, s0) :=
    timeoutPromise 2147483648
      [SetTimeout (Body (Call Resolve (VNum 1) :: []) None) 100] init in
  promise_state p s0 = Some Pending ∧
  promise_state p (run 1 s0) = Some (Settled (Rejected timeout_error)) ∧
  clock (run 1 s0) = 1 ∧
  quiescent (run 2 s0) ∧
  promise_state p (run 2 s0) = Some (Settled (Rejected timeout_error)) ∧
  clock (run 2 s0) = timer_delay 100.
Proof.
  apply (timeout_out_of_range_runs_at_once 2147483648 100
           (Call Resolve (VNum 1)) []).
  - right. by vm_compute.
  - by vm_compute.
Defined.

(** * double-fulfill.js: no call too many *)

(** At any turn of the run the calls made so far are the first ones of
    the schedule. *)
Lemma after_calls_run n made s :
  after_calls made s →
  ∃ more rest, after_calls (made ++ more) (run n s) ∧
               scheduled_calls s = more ++ rest.
Proof.
  revert made s; induction n as [|n IH]; intros made s H.
  - exists [], (scheduled_calls s). by rewrite app_nil_r.
  - pose proof H as (Hh & Hf & Hj & Hc & Hs & Ht & Hm).
    rewrite run_S. unfold step. rewrite Hc, Hj.
    destruct (ticks s) as [|cb q] eqn:Et.
    + destruct (timers s) as [|[due cb] q] eqn:Em.
      { exists [], (scheduled_calls s). by rewrite app_nil_r. }
      apply Forall_cons in Hm as [Hcb Hq]. simpl in Hcb.
      destruct (after_calls_fire made cb
        (with_clock (Z.max (clock s) due) (with_timers q s))) as (H1 & E1 & E2);
        [|done|].
      { apply after_calls_with_clock. by apply after_calls_with_timers. }
      simpl in E1, E2. rewrite Et in E1.
      destruct (IH _ _ H1) as (more & rest & H2 & E).
      exists (body_calls cb ++ more), rest. rewrite app_assoc. split; [done|].
      unfold scheduled_calls in *. rewrite E1, E2 in E. rewrite Et, Em.
      simpl in *. rewrite <- app_assoc. f_equal. exact E.
    + apply Forall_cons in Ht as [Hcb Hq].
      destruct (after_calls_fire made cb (with_ticks q s)) as (H1 & E1 & E2);
        [by apply after_calls_with_ticks|done|].
      simpl in E1, E2.
      destruct (IH _ _ H1) as (more & rest & H2 & E).
      exists (body_calls cb ++ more), rest. rewrite app_assoc. split; [done|].
      unfold scheduled_calls in *. rewrite E1, E2 in E. rewrite Et.
      simpl in *. rewrite <- !app_assoc. f_equal. exact E.
Qed.

(** X6, double-fulfill.js: a construction function that calls the wrapped
    callbacks once in all, or not at all, is never reported, at no turn of the
    run; the promise is settled by that call, or stays pending. *)
Theorem single_call_is_never_reported (construct : script) :
  Forall (λ st, never_throws st = true) construct →
  (total_calls construct ≤ 1)%nat →
  let '(p, s0) := DoubleFulfill.createPromise construct init in
  let made := sync_calls construct ++ scheduled_calls s0 in
  let final := run (length (ticks s0) + length (timers s0)) s0 in
  (∀ n, sink (run n s0) = []) ∧
  quiescent final ∧ promise_state p final = Some (first_call made).
Proof.
  intros Hc HN.
  unfold DoubleFulfill.createPromise, detectDoubleFulfilledPromise, new_promise.
  cbn -[run_script run].
  set (s1 := with_flags _ _).
  assert (H1 : after_calls [] s1) by (by repeat split).
  pose proof (after_calls_script [] construct s1 Hc H1) as H0. simpl in H0.
  set (s0 := run_script _ _ _ _ _) in *.
  pose proof (scheduled_run_script (Wrap 0 (NativeResolve 0))
    (Wrap 0 (NativeReject 0)) None construct s1) as Hlen.
  fold s0 in Hlen. unfold scheduled in Hlen. simpl in Hlen.
  rewrite Nat.add_0_r in Hlen.
  split; [|split].
  - intros n. destruct (after_calls_run n _ s0 H0) as (more & rest & H2 & E).
    destruct H2 as (_ & _ & _ & _ & -> & _).
    rewrite E, length_app in Hlen. rewrite length_app.
    replace (length (sync_calls construct) + length more - 1)%nat with 0%nat
      by lia. done.
  - destruct (after_calls_loop _ s0 H0) as (Hf & Et & Em).
    destruct Hf as (Hh & Hfl & Hj & Hx & Hs & _ & _).
    unfold quiescent, step. by rewrite Hx, Et, Hj, Em.
  - destruct (after_calls_loop _ s0 H0) as (Hf & Et & Em).
    destruct Hf as (Hh & _). unfold promise_state. by rewrite Hh.
Qed.

Lemma single_call_is_never_reported_witness :
  let '(p, s0) := DoubleFulfill.createPromise ex_resolve_once init in
  let made := sync_calls ex_resolve_once ++ scheduled_calls s0 in
  let final := run (length (ticks s0) + length (timers s0)) s0 in
  (∀ n, sink (run n s0) = []) ∧
  quiescent final ∧ promise_state p final = Some (first_call made).
Proof.
  apply (single_call_is_never_reported ex_resolve_once).
  - repeat constructor.
  - simpl. lia.
Defined.

Lemma detect_sync (cs : list call) (s : state) :
  let '(p, s') := detectDoubleFulfilledPromise (Do <$> cs) s in
  p = length (heap s) ∧
  s' = State (clock s) (heap s ++ [PCell (first_call cs) []])
         (flags s ++ [match cs with [] => false | _ => true end])
         (ticks s) (jobs s) (timers s)
         (sink s ++ replicate (length cs - 1) (Reported multiple_fulfill))
         (crashed s).
Proof.
  unfold detectDoubleFulfilledPromise, new_promise.
  cbn -[run_calls fmap]. rewrite run_script_sync. split; [done|].
  destruct cs as [|c cs].
  - simpl. rewrite app_nil_r. by destruct s.
  - erewrite (wrapped_calls_fresh _ _ []).
    + simpl. rewrite Nat.sub_0_r, app_nil_r.
      rewrite with_heap_new_cell.
      f_equal. clear. induction (flags s) as [|b l IH]; simpl; [done|].
      by rewrite IH.
    + simpl. rewrite length_app; simpl; lia.
    + unfold flag; simpl. by rewrite lookup_app_r, Nat.sub_diag.
    + simpl. by rewrite lookup_app_r, Nat.sub_diag.
Qed.

(** X7, double-fulfill.js: each promise has a boolean of its own. Started in
    any state, with any number of promises and detectors around, a promise
    whose construction function makes the calls [cs] adds one promise, one
    boolean and a report for each call but the first, and leaves all else as
    it was; so two promises made one after the other are each reported for
    their own calls too many, and for no other. *)
Theorem detector_keeps_to_its_own_promise (cs1 cs2 : list call) (s : state) :
  let '(p, s1) := detectDoubleFulfilledPromise (Do <$> cs1) s in
  let '(q, s2) := detectDoubleFulfilledPromise (Do <$> cs2) s1 in
  p = length (heap s) ∧ q = S p ∧
  s1 = State (clock s) (heap s ++ [PCell (first_call cs1) []])
         (flags s ++ [match cs1 with [] => false | _ => true end])
         (ticks s) (jobs s) (timers s)
         (sink s ++ replicate (length cs1 - 1) (Reported multiple_fulfill))
         (crashed s) ∧
  heap s2
  = heap s ++ [PCell (first_call cs1) []; PCell (first_call cs2) []] ∧
  sink s2
  = sink s ++ replicate (length cs1 - 1) (Reported multiple_fulfill)
           ++ replicate (length cs2 - 1) (Reported multiple_fulfill) ∧
  clock s2 = clock s ∧ ticks s2 = ticks s ∧ jobs s2 = jobs s ∧
  timers s2 = timers s ∧ crashed s2 = crashed s.
Proof.
  pose proof (detect_sync cs1 s) as H1.
  destruct (detectDoubleFulfilledPromise (Do <$> cs1) s) as [p s1].
  destruct H1 as [-> ->].
  match goal with |- context [detectDoubleFulfilledPromise _ ?s1] =>
    pose proof (detect_sync cs2 s1) as H2;
    destruct (detectDoubleFulfilledPromise (Do <$> cs2) s1) as [q s2]
  end.
  destruct H2 as [-> ->]. cbn [clock heap flags ticks jobs timers sink crashed].
  rewrite length_app, <- !app_assoc. cbn [length app].
  repeat split; try done. lia.
Qed.

(** X8, double-fulfill.js: the consumer registered with [then] sees the first
    settlement and no other; the calls too many are reported while [construct]
    runs, before the consumer is called. *)
Theorem consumer_sees_the_first_call_only
  (c : call) (cs : list call)
  (onResolved onRejected : option (value → outcome)) (site : string) :
  let '(p, s) := DoubleFulfill.createPromise (Do <$> c :: cs) init in
  let '(q, s1) :=
    native_then p (UserFn <$> onResolved) (UserFn <$> onRejected) s in
  sink s1 = replicate (length cs) (Reported multiple_fulfill) ∧
  promise_state q s1 = Some Pending ∧
  quiescent (run 1 s1) ∧
  sink (run 1 s1) = replicate (length cs) (Reported multiple_fulfill) ∧
  promise_state p (run 1 s1) = Some (Settled (call_result c)) ∧
  promise_state q (run 1 s1)
  = Some (Settled (through (call_result c)
                     (Then onResolved onRejected site))).
Proof.
  pose proof (detect_sync (c :: cs) init) as H.
  unfold DoubleFulfill.createPromise.
  destruct (detectDoubleFulfilledPromise (Do <$> c :: cs) init) as [p s].
  destruct H as [-> ->]. cbn -[run replicate].
  rewrite Nat.sub_0_r. split; [done|]. split; [done|].
  unfold through.
  destruct c as [[] v], onResolved as [f|], onRejected as [g|]; cbn;
    try destruct (f v); try destruct (g v); done.
Qed.

(** * double-fulfill.js: a thenable handed to [resolve] *)

(** A call after the first is reported and changes nothing else. *)
Lemma settle_call_again c st n q :
  Thenables.settle_call (Thenables.Callbacks [1%nat] 0 0) c
    (Thenables.noted_state st n q)
  = Thenables.noted_state st (S n) q.
Proof.
  unfold Thenables.settle_call, Thenables.noted_state, Thenables.lift.
  cbn -[replicate note_call].
  by rewrite app_nil_r, replicate_S_end.
Qed.

Lemma run_xcalls_again cs st n q :
  Thenables.run_xcalls (Thenables.Callbacks [1%nat] 0 0) cs
    (Thenables.noted_state st n q)
  = Thenables.noted_state st (n + length cs) q.
Proof.
  revert n. induction cs as [|c cs IH]; intros n.
  - by rewrite Nat.add_0_r.
  - change (Thenables.run_xcalls ?cb (c :: cs) ?xs)
      with (Thenables.run_xcalls cb cs (Thenables.settle_call cb c xs)).
    rewrite settle_call_again, IH. simpl. by rewrite Nat.add_succ_r.
Qed.

(** The first call: a plain value settles the promise, a thenable leaves
    it pending with a job. *)
Lemma settle_call_first c :
  Thenables.settle_call (Thenables.Callbacks [1%nat] 0 0) c
    (Thenables.XState
       (State 0 [PCell Pending []] [false; false] [] [] [] [] None) [])
  = match c with
    | Thenables.Plainly c =>
        Thenables.noted_state (Settled (call_result c)) 0 []
    | Thenables.ResolveWith t =>
        Thenables.noted_state Pending 0 [Thenables.ResolveThenableJob 0 t]
    end.
Proof. by destruct c. Qed.







(** What [detectDoubleFulfilledPromise] leaves when the construction
    function returns. *)
Lemma thenable_detect (c : Thenables.xcall) (cs : list Thenables.xcall) :
  Thenables.detectDoubleFulfilledPromise (c :: cs) Thenables.xinit
  = (0%nat,
     match c with
     | Thenables.Plainly c =>
         Thenables.noted_state (Settled (call_result c)) (length cs) []
     | Thenables.ResolveWith t =>
         Thenables.noted_state Pending (length cs)
           [Thenables.ResolveThenableJob 0 t]
     end).
Proof.
  change (Thenables.detectDoubleFulfilledPromise (c :: cs) Thenables.xinit)
    with (0%nat,
          Thenables.run_xcalls (Thenables.Callbacks [1%nat] 0 0) cs
            (Thenables.settle_call (Thenables.Callbacks [1%nat] 0 0) c
               (Thenables.XState
                  (State 0 [PCell Pending []] [false; false] [] [] [] []
                     None) []))).
  rewrite settle_call_first.
  by destruct c; rewrite run_xcalls_again, Nat.add_0_l.
Qed.


(** With plain values the promise and the console are those of the model
    without thenables. *)
Lemma plain_calls_agree (cs : list call) :
  let '(p, xs) :=
    Thenables.detectDoubleFulfilledPromise (Thenables.Plainly <$> cs)
      Thenables.xinit in
  let '(q, s) := detectDoubleFulfilledPromise (Do <$> cs) init in
  p = q ∧ Thenables.queue xs = [] ∧ jobs s = [] ∧
  heap (Thenables.base xs) = heap s ∧ sink (Thenables.base xs) = sink s.
Proof.
  pose proof (detect_sync cs init) as H.
  destruct (detectDoubleFulfilledPromise (Do <$> cs) init) as [q s].
  destruct H as [-> ->].
  destruct cs as [|c cs]; [by repeat split|].
  rewrite fmap_cons, thenable_detect, length_fmap.
  cbn [length]. rewrite Nat.sub_succ, Nat.sub_0_r. by repeat split.
Qed.




(** * Construction functions that throw *)

(** For a construction function that returns, they are the wrappers of
    the two files as modelled above. *)
Lemma abrupt_none_timeout D construct s :
  Abrupt.timeoutPromise D construct None s = timeoutPromise D construct s.
Proof. reflexivity. Qed.

Lemma abrupt_none_double_fulfill construct s :
  Abrupt.detectDoubleFulfilledPromise construct None s
  = detectDoubleFulfilledPromise construct s.
Proof. reflexivity. Qed.

Lemma counted_settle n r s :
  counted n s → counted n (settle 0 r s) ∧
  ticks (settle 0 r s) = ticks s ∧ timers (settle 0 r s) = timers s.
Proof.
  intros ([st Hh] & Hf & Hj & Hx & Hs & Ht & Hm).
  unfold counted, settle. rewrite Hh. simpl.
  destruct st as [|r0]; simpl; rewrite ?Hj; repeat split; eauto.
Qed.

Lemma counted_do n c s :
  counted n s →
  let s' := do_call (Wrap 0 (NativeResolve 0)) (Wrap 0 (NativeReject 0)) s c in
  counted (S n) s' ∧ ticks s' = ticks s ∧ timers s' = timers s.
Proof.
  intros H. cbv zeta. rewrite do_call_wrapped.
  assert (H1 : counted (S n) (note_call 0 s) ∧
               ticks (note_call 0 s) = ticks s ∧
               timers (note_call 0 s) = timers s).
  { destruct H as (Hh & Hf & Hj & Hx & Hs & Ht & Hm).
    unfold note_call, flag, set_flag. rewrite Hf.
    destruct n as [|n]; simpl; repeat split; try done;
      try (simpl; by rewrite Hf).
    simpl. rewrite Hs. simpl. rewrite Nat.sub_0_r.
    by rewrite <- replicate_S_end. }
  destruct H1 as (H1 & Et & Em).
  destruct (counted_settle (S n) (call_result c) _ H1) as (H2 & Et' & Em').
  split; [done|]. split; congruence.
Qed.

Lemma counted_run_calls n cs s :
  counted n s →
  let s' :=
    run_calls (Wrap 0 (NativeResolve 0)) (Wrap 0 (NativeReject 0)) cs s in
  counted (n + length cs) s' ∧ ticks s' = ticks s ∧ timers s' = timers s.
Proof.
  revert n s; induction cs as [|c cs IH]; intros n s H; cbv zeta.
  - simpl. by rewrite Nat.add_0_r.
  - simpl. destruct (counted_do n c s H) as (H1 & Ht & Hm).
    destruct (IH (S n) _ H1) as (H2 & Ht' & Hm').
    replace (n + S (length cs))%nat with (S n + length cs)%nat by lia.
    by rewrite <- Ht, <- Hm.
Qed.

Lemma counted_with_ticks n q s :
  counted n s → Forall (wrapped_cb 0 0) q → counted n (with_ticks q s).
Proof. intros (?&?&?&?&?&?&?) Hq. by repeat split. Qed.

Lemma counted_with_timers n q s :
  counted n s → Forall (λ t : timer, wrapped_cb 0 0 t.2) q →
  counted n (with_timers q s).
Proof. intros (?&?&?&?&?&?&?) Hq. by repeat split. Qed.

Lemma counted_with_clock n t s : counted n s → counted n (with_clock t s).
Proof. intros (?&?&?&?&?&?&?). by repeat split. Qed.

Lemma counted_script n construct s :
  Forall (λ st, never_throws st = true) construct →
  counted n s →
  counted (n + length (sync_calls construct))
    (run_script (Wrap 0 (NativeResolve 0)) (Wrap 0 (NativeReject 0)) None
       construct s).
Proof.
  intros Hc. revert n s.
  induction Hc as [|st construct Hst _ IH]; intros n s H.
  - simpl. by rewrite Nat.add_0_r.
  - change (run_script ?r ?j None (st :: construct) s)
      with (run_script r j None construct (run_stmt r j None s st)).
    pose proof H as (_ & _ & _ & _ & _ & Ht & Hm).
    destruct st as [c|[cs th] delay|[cs th]]; cbn [sync_calls run_stmt length].
    + replace (n + S (length (sync_calls construct)))%nat
        with (S n + length (sync_calls construct))%nat by lia.
      apply IH. by apply counted_do.
    + destruct th; [done|]. apply IH.
      apply counted_with_timers; [done|].
      apply insert_timer_Forall; [by exists cs|done].
    + destruct th; [done|]. apply IH.
      apply counted_with_ticks; [done|].
      apply Forall_app. split; [done|]. repeat constructor. by exists cs.
Qed.

Lemma counted_loop n s :
  counted n s →
  let s' := run (length (ticks s) + length (timers s)) s in
  counted (n + scheduled s) s' ∧ ticks s' = [] ∧ timers s' = [].
Proof.
  remember (length (ticks s) + length (timers s))%nat as k eqn:Hk.
  revert n s Hk. induction k as [|k IH]; intros n s Hk H; cbv zeta.
  - destruct (ticks s) as [|? ?] eqn:Et; [|done].
    destruct (timers s) as [|? ?] eqn:Em; [|done].
    unfold scheduled, scheduled_calls. rewrite Et, Em. simpl.
    by rewrite Nat.add_0_r.
  - pose proof H as (Hh & Hf & Hj & Hc & Hs & Ht & Hm).
    rewrite run_S. unfold step. rewrite Hc, Hj.
    destruct (ticks s) as [|cb q] eqn:Et.
    + destruct (timers s) as [|[due cb] q] eqn:Em; [done|].
      apply Forall_cons in Hm as [Hcb Hq]. simpl in Hcb.
      destruct Hcb as [cs ->].
      destruct (counted_run_calls n cs
        (with_clock (Z.max (clock s) due) (with_timers q s))) as (H1 & E1 & E2).
      { apply counted_with_clock. by apply counted_with_timers. }
      simpl in E1, E2. rewrite Et in E1.
      destruct (IH (n + length cs)%nat _
        ltac:(simpl; rewrite E1, E2; simpl in *; lia) H1) as (H2 & ? & ?).
      split; [|done]. unfold scheduled, scheduled_calls in *.
      simpl in H2. rewrite E1, E2 in H2. rewrite Et, Em. simpl in *.
      rewrite length_app. by rewrite Nat.add_assoc.
    + apply Forall_cons in Ht as [[cs ->] Hq].
      destruct (counted_run_calls n cs (with_ticks q s)) as (H1 & E1 & E2);
        [by apply counted_with_ticks|].
      simpl in E1, E2.
      destruct (IH (n + length cs)%nat _
        ltac:(simpl; rewrite E1, E2; simpl in *; lia) H1) as (H2 & ? & ?).
      split; [|done]. unfold scheduled, scheduled_calls in *.
      simpl in H2. rewrite E1, E2 in H2. rewrite Et. simpl in *.
      rewrite !length_app in *. by rewrite !Nat.add_assoc in *.
Qed.

Lemma after_calls_counted made s : after_calls made s → counted (length made) s.
Proof.
  intros (Hh & Hf & Hj & Hx & Hs & Ht & Hm).
  split; [by eexists|]. repeat split; try done. rewrite Hf. by destruct made.
Qed.

Lemma scheduled_settle p r s : scheduled (settle p r s) = scheduled s.
Proof.
  unfold scheduled, scheduled_calls.
  by destruct (queues_settle p r s) as (_ & -> & ->).
Qed.

(** X9, double-fulfill.js: when [construct] throws, the [reject] that [new
    Promise] makes is the native one. The detector does not see it: a
    construction function that makes [N] calls and throws is reported [N - 1]
    times, none for [N = 1], as if it had not thrown; the promise is settled
    by its first synchronous call, or else by the exception. *)
Theorem thrown_construct_is_not_counted (construct : script) (err : value) :
  Forall (λ st, never_throws st = true) construct →
  let '(p, s0) :=
    Abrupt.detectDoubleFulfilledPromise construct (Some err) init in
  let final := run (length (ticks s0) + length (timers s0)) s0 in
  quiescent final ∧
  sink final
  = replicate (total_calls construct - 1) (Reported multiple_fulfill) ∧
  (∀ n, promise_state p (run n s0)
        = Some (first_call (sync_calls construct ++ [Call Reject err]))).
Proof.
  intros Hc.
  unfold Abrupt.detectDoubleFulfilledPromise, Abrupt.new_promise,
    Abrupt.run_construct.
  cbn -[run_script run].
  set (s1 := with_flags _ _).
  assert (H1 : after_calls [] s1) by (by repeat split).
  pose proof (after_calls_script [] construct s1 Hc H1) as H0. simpl in H0.
  pose proof (scheduled_run_script (Wrap 0 (NativeResolve 0))
    (Wrap 0 (NativeReject 0)) None construct s1) as Hlen.
  set (s2 := run_script _ _ _ _ _) in *.
  change (scheduled s1) with 0%nat in Hlen. rewrite Nat.add_0_r in Hlen.
  destruct (counted_settle _ (Rejected err) s2 (after_calls_counted _ _ H0))
    as (H2 & Et & Em).
  pose proof (scheduled_settle 0 (Rejected err) s2) as Hsch.
  set (s0 := settle 0 (Rejected err) s2) in *.
  destruct (counted_loop _ s0 H2) as (Hf & Et' & Em').
  set (final := run _ s0) in *.
  destruct Hf as (_ & _ & Hj & Hx & Hs & _ & _).
  split; [|split].
  - unfold quiescent, step. by rewrite Hx, Et', Hj, Em'.
  - by rewrite Hs, Hsch, Hlen.
  - intros n. rewrite first_call_app.
    destruct H0 as (Hh & _).
    destruct (first_call (sync_calls construct)) as [|r] eqn:E;
      apply evolves_run; unfold promise_state, s0, settle; rewrite Hh;
      simpl; [done|]. by rewrite Hh.
Qed.

Lemma thrown_construct_is_not_counted_witness :
  let '(p, s0) :=
    Abrupt.detectDoubleFulfilledPromise (ex_resolve_in 10)
      (Some (VError "oops")) init in
  let final := run (length (ticks s0) + length (timers s0)) s0 in
  quiescent final ∧
  sink final
  = replicate (total_calls (ex_resolve_in 10) - 1) (Reported multiple_fulfill) ∧
  (∀ n, promise_state p (run n s0)
        = Some (first_call (sync_calls (ex_resolve_in 10)
                            ++ [Call Reject (VError "oops")]))).
Proof.
  apply (thrown_construct_is_not_counted (ex_resolve_in 10) (VError "oops")).
  repeat constructor.
Defined.

(** X5, timeout.js: when [construct] throws, the executor is left before its
    [setTimeout]: no timeout is scheduled, where one is when [construct]
    returns; the queues hold what [construct] deferred and nothing else, and
    the promise is settled at once, by the first synchronous call or else by
    the exception. *)
Theorem thrown_construct_sets_no_timeout
  (D : Z) (construct : script) (err : value) :
  Forall (λ st, never_throws st = true) construct →
  let '(p, s0) := Abrupt.timeoutPromise D construct (Some err) init in
  let '(q, s1) :=
    new_promise (λ resolve reject, run_script resolve reject None construct)
      init in
  p = q ∧ ticks s0 = ticks s1 ∧ timers s0 = timers s1 ∧
  Forall (λ t : timer, ∀ reject, t.2 ≠ ForceReject reject) (timers s0) ∧
  (timer_delay D, ForceReject (NativeReject p))
  ∈ timers (Abrupt.timeoutPromise D construct None init).2 ∧
  (∀ n, promise_state p (run n s0)
        = Some (first_call (sync_calls construct ++ [Call Reject err]))).
Proof.
  intros Hc. pose proof (timeout_is_scheduled D construct) as Hin.
  unfold Abrupt.timeoutPromise, Abrupt.new_promise, Abrupt.run_construct,
    new_promise.
  cbn -[run_script run].
  set (s1 := with_heap _ _).
  assert (H1 : fresh_root s1).
  { exists Pending. repeat split; simpl; done || constructor. }
  assert (H2 : lone [] [] s1) by (by repeat split).
  pose proof (fresh_root_script construct s1 Hc H1) as Hfr.
  pose proof (lone_script [] [] None construct s1 ltac:(by right) H2) as H0.
  simpl in H0.
  set (s2 := run_script _ _ _ _ _) in *.
  destruct (queues_settle 0 (Rejected err) s2) as (_ & Et & Em).
  split; [done|]. split; [done|]. split; [done|].
  split; [|split; [exact Hin|]].
  - rewrite Em. destruct Hfr as (st & _ & _ & _ & _ & _ & _ & _ & Hm).
    eapply Forall_impl; [exact Hm|]. intros t [cs ->] reject. done.
  - intros n.
    destruct (lone_settle _ _ (Call Reject err) s2 H0) as ((Hh & _) & _).
    change (call_result (Call Reject err)) with (Rejected err) in Hh.
    destruct (first_call _) as [|r] eqn:E.
    { by rewrite first_call_app in E; destruct (first_call _). }
    apply evolves_run. unfold promise_state. by rewrite Hh.
Qed.

Lemma thrown_construct_sets_no_timeout_witness :
  let '(p, s0) :=
    Abrupt.timeoutPromise 1000 (ex_resolve_in 10) (Some (VError "oops")) init in
  let '(q, s1) :=
    new_promise (λ resolve reject,
      run_script resolve reject None (ex_resolve_in 10)) init in
  p = q ∧ ticks s0 = ticks s1 ∧ timers s0 = timers s1 ∧
  Forall (λ t : timer, ∀ reject, t.2 ≠ ForceReject reject) (timers s0) ∧
  (timer_delay 1000, ForceReject (NativeReject p))
  ∈ timers (Abrupt.timeoutPromise 1000 (ex_resolve_in 10) None init).2 ∧
  (∀ n, promise_state p (run n s0)
        = Some (first_call (sync_calls (ex_resolve_in 10)
                            ++ [Call Reject (VError "oops")]))).
Proof.
  apply (thrown_construct_sets_no_timeout 1000 (ex_resolve_in 10)
    (VError "oops")).
  repeat constructor.
Defined.

(** * uncaught.js: chains of any length *)

Lemma below_silent n cb fl :
  below n cb → (∀ j, (j < n)%nat → fl !! j = Some true) →
  due_report fl cb = [].
Proof.
  destruct cb as [j o pc stk| |]; simpl; try done.
  intros Hj Hfl. by rewrite (Hfl j Hj).
Qed.

Lemma below_mono n m cb : (n ≤ m)%nat → below n cb → below m cb.
Proof. destruct cb; simpl; lia || done. Qed.

Lemma lookup_all_set (n j : nat) (l : list bool) :
  (j < n)%nat → (replicate n true ++ l) !! j = Some true.
Proof.
  intros Hj. rewrite lookup_app_l by (by rewrite length_replicate).
  by apply lookup_replicate.
Qed.

Lemma set_last_flag (n : nat) :
  <[n := true]> (replicate n true ++ [false]) = replicate (S n) true.
Proof.
  induction n as [|n IH]; simpl; [done|]. by rewrite IH.
Qed.

Lemma replicate_snoc {A} (n : nat) (x : A) :
  replicate (S n) x = replicate n x ++ [x].
Proof. induction n as [|n IH]; simpl; [done|]. by rewrite <- IH. Qed.

Lemma quiet_native_then p f g s :
  quiet_store s →
  quiet_store (native_then p (UserFn <$> f) (UserFn <$> g) s).2.
Proof.
  intros [Hh Hj]. unfold native_then. simpl.
  assert (Hk : quiet_reaction
    (Reaction (UserFn <$> f) (UserFn <$> g) (length (heap s)))).
  { split; simpl; unfold user_handler; [by destruct f|by destruct g]. }
  assert (Hh' : Forall quiet_cell (heap s ++ [PCell Pending []])).
  { apply Forall_app. split; [done|]. repeat constructor. }
  destruct ((heap s ++ [PCell Pending []]) !! p) as [[[|r] ks]|] eqn:E;
    split; simpl; try done.
  - apply Forall_insert; [done|]. unfold quiet_cell. simpl.
    apply Forall_app. split; [|constructor; [exact Hk|constructor]].
    eapply Forall_lookup_1 in Hh'; [|exact E]. exact Hh'.
  - apply Forall_app. split; [done|]. constructor; [|constructor].
    by apply quiet_reaction_job.
Qed.

Lemma queues_native_then p f g s :
  let s' := (native_then p f g s).2 in
  clock s' = clock s ∧ flags s' = flags s ∧ ticks s' = ticks s ∧
  timers s' = timers s ∧ sink s' = sink s ∧ crashed s' = crashed s.
Proof.
  unfold native_then. simpl.
  by destruct ((heap s ++ [PCell Pending []]) !! p) as [[[] ?]|].
Qed.

(** A [then] without a rejection handler moves the open end to the new
    link. *)
Lemma open_end_then w stk f site s :
  open_end w stk s →
  open_end (register (w, s) (Then f None site)).1
    (link_stack (Then f None site)) (register (w, s) (Then f None site)).2.
Proof.
  intros (i & p & pc & l & -> & Hq & Hs & Hc & Hf & Ht & Hm & Hl).
  cbn [register fst snd obj_then fmap option_fmap option_map].
  pose proof (queues_native_then p (UserFn <$> f) None (set_flag i s))
    as (Ec & Ef & Et & Em & Es & Ex).
  pose proof (quiet_native_then p f None (set_flag i s)) as Hst.
  change (UserFn <$> None) with (@None handler) in Hst.
  destruct (native_then p (UserFn <$> f) None (set_flag i s)) as [q s2].
  cbn [fst snd] in *. unfold detectUncaughtPromise, new_flag, set_timeout.
  cbn [fst snd flags with_flags with_timers clock timers].
  rewrite Ef, Ec, Em. cbn [flags set_flag with_flags clock timers].
  rewrite Hf, Hc, Hm, set_last_flag, length_replicate.
  destruct Hq as (Hx & Hqs & Hqt & Hqm).
  change (0 + timer_delay 1000) with 1000.
  exists (S i), q, (Some false),
    (insert_timer (1000, DeadlineCheck i (Native p) pc stk) l).
  split; [done|]. split; [|split; [|split; [|split; [|split; [|split]]]]].
  - unfold quiet, quiet_store in *.
    cbn [crashed heap jobs ticks timers with_timers with_flags set_flag] in *.
    rewrite Ex, Et. split; [done|]. split; [by apply Hst|]. split; [done|].
    apply insert_timer_Forall; [done|]. by rewrite <- Hm.
  - cbn [sink with_timers with_flags]. by rewrite Es.
  - cbn [clock with_timers with_flags]. by rewrite Ec.
  - done.
  - cbn [ticks with_timers with_flags]. rewrite Et.
    cbn [ticks set_flag with_flags].
    eapply Forall_impl; [exact Ht|]. intros cb. apply below_mono. lia.
  - done.
  - apply insert_timer_Forall; [simpl; lia|].
    eapply Forall_impl; [exact Hl|]. intros cb. apply below_mono. lia.
Qed.

Lemma caught_false l : caught l = false → ∃ f site, l = Then f None site.
Proof. destruct l as [f [g|] site|h site]; try done. by exists f, site. Qed.

Lemma open_end_chain links w stk s :
  open_end w stk s → Forall (λ l, caught l = false) links →
  open_end (chain (w, s) links).1
    (default stk (link_stack <$> last links)) (chain (w, s) links).2.
Proof.
  intros H Hl. revert w stk s H.
  induction Hl as [|l links Hc _ IH]; intros w stk s H; [done|].
  destruct (caught_false l Hc) as (f & site & ->).
  pose proof (open_end_then w stk f site s H) as H1.
  unfold chain in *. cbn [foldl].
  destruct (register (w, s) (Then f None site)) as [w1 s1].
  specialize (IH w1 _ s1 H1).
  rewrite last_cons. by destruct (last links).
Qed.

Lemma open_end_outcome w stk s :
  open_end w stk s →
  (∀ n, sink (run_until 999 n s) = []) ∧
  quiescent (run (weight s) s) ∧
  (∀ n, (weight s ≤ n)%nat → run n s = run (weight s) s) ∧
  sink (run (weight s) s) = [UncaughtTerminal stk].
Proof.
  intros (i & p & pc & l & -> & Hq & Hs & Hc & Hf & Ht & Hm & Hl).
  assert (Hset : ∀ j, (j < i)%nat → flags s !! j = Some true).
  { intros j Hj. rewrite Hf. by apply lookup_all_set. }
  destruct (quiet_outcome s _ l Hq Hs Hm) as (H1 & H2 & H3 & H4).
  - eapply Forall_impl; [exact Ht|]. intros cb Hcb.
    by apply (below_silent i).
  - eapply Forall_impl; [exact Hl|]. intros cb Hcb.
    by apply (below_silent i).
  - done.
  - repeat split; try done. rewrite H4. simpl. rewrite Hf.
    rewrite lookup_app_r by (by rewrite length_replicate).
    by rewrite length_replicate, Nat.sub_diag.
Qed.

Lemma open_end_root construct site :
  Forall (λ st, never_throws st = true) construct →
  open_end (Uncaught.createPromise construct site init).1 (root_stack site)
    (Uncaught.createPromise construct site init).2.
Proof.
  intros Hc. unfold Uncaught.createPromise.
  pose proof (fresh_root_new_promise construct Hc) as H.
  destruct (new_promise _ init) as [p s0].
  destruct H as (-> & st & Hh & Hj & Hf & Hs & Hx & Hk & Ht & Hm).
  destruct s0 as [c h f tk jb tm sk cr]; simpl in * |-; subst.
  exists 0%nat, 0%nat, None, tm. cbn.
  split; [done|]. split; [|split; [done|split; [done|split; [done|split]]]].
  - split; [done|]. split; [split; simpl; repeat constructor|].
    split; simpl; [by eapply quiet_cb_users|].
    apply insert_timer_Forall; [done|by eapply quiet_timer_users].
  - eapply Forall_impl; [exact Ht|]. by intros cb [cs ->].
  - split; [done|]. eapply Forall_impl; [exact Hm|]. by intros cb [cs ->].
Qed.

(** X13, uncaught.js: a chain of [then]s, however long, with no rejection
    handler anywhere, on the promise of any construction function: exactly one
    report, at the deadline and not before, carrying the stack of the last
    [then]. *)
Theorem only_the_last_then_is_reported
  (construct : script) (site : string) (links : list link) (final : link) :
  Forall (λ st, never_throws st = true) construct →
  Forall (λ l, caught l = false) (links ++ [final]) →
  let '(w, s) :=
    chain (Uncaught.createPromise construct site init) (links ++ [final]) in
  (∀ n, sink (run_until 999 n s) = []) ∧
  quiescent (run (weight s) s) ∧
  (∀ n, (weight s ≤ n)%nat → run n s = run (weight s) s) ∧
  sink (run (weight s) s) = [UncaughtTerminal (link_stack final)].
Proof.
  intros Hc Hl.
  pose proof (open_end_root construct site Hc) as H0.
  destruct (Uncaught.createPromise construct site init) as [w0 s0].
  cbn [fst snd] in H0.
  pose proof (open_end_chain (links ++ [final]) _ _ _ H0 Hl) as H.
  rewrite last_snoc in H.
  destruct (chain (w0, s0) (links ++ [final])) as [w s].
  apply (open_end_outcome w). exact H.
Qed.

Lemma only_the_last_then_is_reported_witness :
  let '(w, s) :=
    chain (Uncaught.createPromise (ex_resolve_in 10) "a.js:1" init)
      ([Then (Some ex_logging) None "a.js:2"]
       ++ [Then (Some ex_logging) None "a.js:3"]) in
  (∀ n, sink (run_until 999 n s) = []) ∧
  quiescent (run (weight s) s) ∧
  (∀ n, (weight s ≤ n)%nat → run n s = run (weight s) s) ∧
  sink (run (weight s) s)
  = [UncaughtTerminal (link_stack (Then (Some ex_logging) None "a.js:3"))].
Proof.
  apply (only_the_last_then_is_reported (ex_resolve_in 10) "a.js:1"
    [Then (Some ex_logging) None "a.js:2"]
    (Then (Some ex_logging) None "a.js:3")).
  - repeat constructor.
  - repeat constructor.
Defined.

Lemma quiet_step_queues (P : callback → Prop) s s' :
  quiet s → step s = Some s' →
  Forall P (ticks s) → Forall (λ t : timer, P t.2) (timers s) →
  Forall P (ticks s') ∧ Forall (λ t : timer, P t.2) (timers s').
Proof.
  intros (Hx & Hst & Hqt & Hqm) Hs Ht Hm. unfold step in Hs. rewrite Hx in Hs.
  destruct (ticks s) as [|cb q] eqn:Et.
  - destruct (jobs s) as [|j js] eqn:Ej.
    + destruct (timers s) as [|[due cb] q] eqn:Em; [done|].
      injection Hs as <-. apply Forall_cons in Hqm as [Hcb _], Hm as [_ Hm].
      destruct (quiet_fire cb
        (with_clock (Z.max (clock s) due) (with_timers q s)) Hcb Hx)
        as (_ & _ & _ & -> & -> & _). simpl. by rewrite Et.
    + injection Hs as <-. destruct Hst as [_ Hj]. rewrite Ej in Hj.
      apply Forall_cons in Hj as [Hj _].
      destruct (quiet_run_job j (with_jobs js s) Hj)
        as (_ & _ & _ & -> & -> & _). simpl. by rewrite Et.
  - injection Hs as <-. apply Forall_cons in Hqt as [Hcb _], Ht as [_ Ht].
    destruct (quiet_fire cb (with_ticks q s) Hcb Hx)
      as (_ & _ & _ & -> & -> & _). by simpl.
Qed.

(** What a run without observers keeps. *)
Lemma quiet_run_keeps (P : callback → Prop) n s :
  quiet s → Forall P (ticks s) → Forall (λ t : timer, P t.2) (timers s) →
  quiet (run n s) ∧ flags (run n s) = flags s ∧
  sink (run n s) ++ pending_reports (run n s) = sink s ++ pending_reports s ∧
  Forall P (ticks (run n s)) ∧ Forall (λ t : timer, P t.2) (timers (run n s)).
Proof.
  revert s; induction n as [|n IH]; intros s Hq Ht Hm; [done|].
  simpl. destruct (step s) as [s'|] eqn:E; [|done].
  destruct (quiet_step s s' Hq E) as (Hq' & Hf & _ & Hs).
  destruct (quiet_step_queues P s s' Hq E Ht Hm) as [Ht' Hm'].
  destruct (IH s' Hq' Ht' Hm') as (H1 & H2 & H3 & H4 & H5).
  split; [done|]. split; [congruence|]. split; [congruence|]. done.
Qed.

Lemma bind_below n fl (l : list callback) :
  Forall (below n) l → (∀ j, (j < n)%nat → fl !! j = Some true) →
  l ≫= due_report fl = [].
Proof.
  intros Hl Hfl. apply bind_silent. eapply Forall_impl; [exact Hl|].
  intros cb Hcb. by apply (below_silent n).
Qed.

(** X14, uncaught.js: the deadline check reads [chained] once, when it fires.
    A promise that is chained only after that has been reported already, and
    stays reported; the late [then] makes a link that is checked, and
    reported, in its turn. *)
Theorem chaining_after_the_deadline_is_too_late
  (construct : script) (f : option (value → outcome))
  (rootSite thenSite : string) (n : nat) :
  Forall (λ st, never_throws st = true) construct →
  sink (run n (Uncaught.createPromise construct rootSite init).2) ≠ [] →
  let '(root, s0) := Uncaught.createPromise construct rootSite init in
  let '(link, s1) :=
    obj_then root (UserFn <$> f) None [AtSite thenSite] (run n s0) in
  sink (run n s0) = [UncaughtTerminal (root_stack rootSite)] ∧
  flag 0 s1 = true ∧
  quiescent (run (weight s1) s1) ∧
  sink (run (weight s1) s1)
  = [UncaughtTerminal (root_stack rootSite);
     UncaughtTerminal (then_stack thenSite)].
Proof.
  intros Hc.
  pose proof (open_end_root construct rootSite Hc) as H0.
  assert (Hw : (Uncaught.createPromise construct rootSite init).1
               = Wrapped 0 (Native 0) 1000).
  { unfold Uncaught.createPromise.
    pose proof (fresh_root_new_promise construct Hc) as H.
    destruct (new_promise _ init) as [p s0].
    destruct H as (-> & st & Hh & Hj & Hf & Hs & _). simpl. by rewrite Hf. }
  intros Hne.
  destruct (Uncaught.createPromise construct rootSite init) as [root s0].
  cbn [fst snd] in *. subst root.
  destruct H0 as (i & p & pc & l & [= <- <-] & Hq & Hs & Hk & Hf & Ht & Hm & Hl).
  simpl in Hf.
  set (dc0 := DeadlineCheck 0 (Native 0) pc (root_stack rootSite)) in *.
  assert (Hm1 : Forall (λ t : timer, below 1 t.2) (timers s0)).
  { rewrite Hm. apply insert_timer_Forall; [simpl; lia|].
    eapply Forall_impl; [exact Hl|]. intros cb. apply below_mono. lia. }
  assert (Ht1 : Forall (below 1) (ticks s0)).
  { eapply Forall_impl; [exact Ht|]. intros cb. apply below_mono. lia. }
  assert (Hp0 : pending_reports s0 = [UncaughtTerminal (root_stack rootSite)]).
  { rewrite (pending_reports_one s0 _ l Hm); [by rewrite Hf| |].
    - eapply Forall_impl; [exact Ht|]. intros cb Hcb.
      apply (below_silent 0); [done|lia].
    - eapply Forall_impl; [exact Hl|]. intros cb Hcb.
      apply (below_silent 0); [done|lia]. }
  destruct (quiet_run_keeps (below 1) n s0 Hq Ht1 Hm1)
    as (Hqn & Hfn & Hsn & Htn & Hmn).
  rewrite Hs, Hp0 in Hsn. simpl in Hsn.
  set (mid := run n s0) in *.
  assert (Hmid : sink mid = [UncaughtTerminal (root_stack rootSite)]).
  { destruct (sink mid) as [|r [|r' sk]]; [done| |].
    - simpl in Hsn. by injection Hsn as ->.
    - simpl in Hsn. injection Hsn as _ Hsn. by destruct sk. }
  cbn [obj_then].
  pose proof (queues_native_then 0 (UserFn <$> f) None (set_flag 0 mid))
    as (Ec & Ef & Et & Em & Es & Ex).
  pose proof (quiet_native_then 0 f None (set_flag 0 mid)) as Hst.
  change (UserFn <$> None) with (@None handler) in Hst.
  destruct (native_then 0 (UserFn <$> f) None (set_flag 0 mid)) as [q s2].
  cbn [fst snd] in *. unfold detectUncaughtPromise, new_flag, set_timeout.
  cbn [fst snd flags with_flags with_timers clock timers].
  rewrite Ef, Ec, Em. cbn [flags set_flag with_flags clock timers].
  rewrite Hfn, Hf. cbn [insert length app].
  set (dc1 := DeadlineCheck 1 (Native q) (Some false)
                [InDetectUncaught; InWrappedThen; AtSite thenSite]).
  set (s1 := with_timers _ _).
  destruct Hqn as (Hx & Hqs & Hqt & Hqm).
  assert (Hq1 : quiet s1).
  { unfold quiet, quiet_store in *.
    cbn [crashed heap jobs ticks timers with_timers with_flags set_flag s1]
      in *.
    rewrite Ex, Et. split; [done|]. split; [by apply Hst|]. split; [done|].
    apply insert_timer_Forall; done. }
  assert (Hset : ∀ j, (j < 1)%nat → [true; false] !! j = Some true).
  { intros [|j] Hj; [done|lia]. }
  assert (Hp1 : pending_reports s1 = [UncaughtTerminal (then_stack thenSite)]).
  { rewrite (pending_reports_one s1 (clock mid + timer_delay 1000, dc1)
      (timers mid)); [done|done| |].
    - cbn [ticks flags s1 with_timers with_flags]. rewrite Et.
      eapply Forall_impl; [exact Htn|]. intros cb Hcb.
      by apply (below_silent 1).
    - cbn [flags s1 with_timers with_flags].
      eapply Forall_impl; [exact Hmn|]. intros cb Hcb.
      by apply (below_silent 1). }
  destruct (quiet_run (weight s1) s1 Hq1 ltac:(done)) as (Hqu & _ & Hsink).
  split; [done|]. split; [done|]. split; [done|].
  rewrite Hsink, Hp1. cbn [sink s1 with_timers with_flags]. rewrite Es.
  change (sink (set_flag 0 mid)) with (sink mid). by rewrite Hmid.
Qed.

Lemma chaining_after_the_deadline_is_too_late_witness :
  let '(root, s0) := Uncaught.createPromise ex_reject1 "uncaught.js:46" init in
  let '(link, s1) :=
    obj_then root (UserFn <$> Some ex_logging) None [AtSite "late.js:1"]
      (run 1 s0) in
  sink (run 1 s0) = [UncaughtTerminal (root_stack "uncaught.js:46")] ∧
  flag 0 s1 = true ∧
  quiescent (run (weight s1) s1) ∧
  sink (run (weight s1) s1)
  = [UncaughtTerminal (root_stack "uncaught.js:46");
     UncaughtTerminal (then_stack "late.js:1")].
Proof.
  apply (chaining_after_the_deadline_is_too_late ex_reject1 (Some ex_logging)
    "uncaught.js:46" "late.js:1" 1).
  - repeat constructor.
  - by vm_compute.
Defined.

Lemma length_pending_from i links :
  length (pending_from i links) = S (length links).
Proof. revert i; induction links as [|l links IH]; intros i; simpl; auto. Qed.

Lemma pending_from_last i links :
  pending_from i links !! length links = Some (PCell Pending []).
Proof. revert i; induction links as [|l links IH]; intros i; simpl; auto. Qed.

Lemma pending_from_snoc i links l :
  <[length links := PCell Pending [link_reaction l (S (i + length links))]]>
    (pending_from i links ++ [PCell Pending []])
  = pending_from i (links ++ [l]).
Proof.
  revert i; induction links as [|l' links IH]; intros i; simpl.
  - by rewrite Nat.add_0_r.
  - f_equal. rewrite <- IH. by replace (S i + length links)%nat
      with (i + S (length links))%nat by lia.
Qed.

Lemma checks_from_snoc i links l :
  checks_from i (links ++ [l])
  = checks_from i links
    ++ [(1000, DeadlineCheck (S (i + length links))
                 (Native (S (i + length links))) (Some (caught l))
                 (link_stack l))].
Proof.
  revert i; induction links as [|l' links IH]; intros i; simpl.
  - by rewrite Nat.add_0_r.
  - f_equal. rewrite IH. by replace (S i + length links)%nat
      with (i + S (length links))%nat by lia.
Qed.

Lemma checks_from_due i links :
  Forall (λ u : timer, u.1 = 1000) (checks_from i links).
Proof.
  revert i; induction links as [|l links IH]; intros i; simpl;
    constructor; auto.
Qed.

Lemma insert_timer_back t l :
  Forall (λ u : timer, u.1 = t.1) l → insert_timer t l = l ++ [t].
Proof.
  induction 1 as [|u l Hu _ IH]; simpl; [done|].
  rewrite Hu, Z.leb_refl. by rewrite IH.
Qed.

(** A registration on the last promise of the chain. *)
Lemma native_then_end pre links l s :
  heap s = pre ++ pending_from (length pre) links →
  native_then (length pre + length links)
    (UserFn <$> on_fulfilled l) (UserFn <$> on_rejected l) s
  = (S (length pre + length links),
     with_heap (pre ++ pending_from (length pre) (links ++ [l])) s).
Proof.
  intros Hh. unfold native_then, new_cell. cbn [fst snd heap with_heap].
  rewrite Hh, <- app_assoc.
  rewrite lookup_app_r by lia.
  replace (length pre + length links - length pre)%nat with (length links)
    by lia.
  rewrite lookup_app_l by (rewrite length_pending_from; lia).
  rewrite pending_from_last. cbn [app].
  rewrite length_app, length_pending_from.
  f_equal; [lia|]. unfold with_heap. cbn. f_equal.
  rewrite insert_app_r_alt by lia.
  replace (length pre + length links - length pre)%nat with (length links)
    by lia.
  rewrite <- pending_from_snoc. do 4 f_equal. unfold link_reaction.
  f_equal. lia.
Qed.

Lemma register_wrapped i p l s :
  register (Wrapped i (Native p) 1000, s) l
  = detectUncaughtPromise
      (Native (native_then p (UserFn <$> on_fulfilled l)
                 (UserFn <$> on_rejected l) (set_flag i s)).1)
      1000 (Some (caught l)) (tail (link_stack l))
      (native_then p (UserFn <$> on_fulfilled l)
         (UserFn <$> on_rejected l) (set_flag i s)).2.
Proof.
  destruct l as [f g site|h site]; cbn [register fst snd obj_then obj_catch].
  - cbn [on_fulfilled on_rejected].
    destruct (native_then p (UserFn <$> f) (UserFn <$> g) (set_flag i s))
      as [q s2].
    by destruct g.
  - cbn [on_fulfilled on_rejected]. unfold native_catch.
    change (UserFn <$> None) with (@None handler).
    by destruct (native_then p None (UserFn <$> h) (set_flag i s)) as [q s2].
Qed.

Lemma wrap_link site links l s :
  clock s = 0 → flags s = replicate (S (length links)) true →
  timers s = (1000, DeadlineCheck 0 (Native 0) None (root_stack site))
             :: checks_from 0 links →
  detectUncaughtPromise (Native (S (length links))) 1000 (Some (caught l))
    (tail (link_stack l)) s
  = (Wrapped (S (length links)) (Native (S (length links))) 1000,
     State 0 (heap s) (replicate (length (links ++ [l])) true ++ [false])
       (ticks s) (jobs s)
       ((1000, DeadlineCheck 0 (Native 0) None (root_stack site))
        :: checks_from 0 (links ++ [l]))
       (sink s) (crashed s)).
Proof.
  intros Hc Hf Hm.
  unfold detectUncaughtPromise, new_flag, set_timeout.
  cbn [fst snd flags with_flags with_timers clock timers heap ticks jobs
       sink crashed].
  rewrite Hc, Hf, Hm, length_replicate.
  change (0 + timer_delay 1000) with 1000.
  rewrite insert_timer_back
    by (constructor; [done|apply checks_from_due]).
  rewrite checks_from_snoc, length_app. cbn [length app Nat.add].
  replace (length links + 1)%nat with (S (length links)) by lia.
  unfold with_timers, with_flags.
  cbn [fst snd flags clock timers heap ticks jobs sink crashed].
  rewrite Hc. do 4 f_equal. by destruct l.
Qed.

Lemma register_built site st links l :
  register (Wrapped (length links) (Native (length links)) 1000,
            built site st links) l
  = (Wrapped (S (length links)) (Native (S (length links))) 1000,
     built site st (links ++ [l])).
Proof.
  rewrite register_wrapped.
  destruct st as [|r]; [|destruct links as [|l1 links']].
  - rewrite (native_then_end [] links l) by done.
    cbn [fst snd length Nat.add].
    rewrite (wrap_link site links l); [done|done| |done].
    cbn. apply set_last_flag.
  - unfold detectUncaughtPromise, new_flag, set_timeout, built, native_then.
    cbn. by destruct l.
  - rewrite (native_then_end [PCell (Settled r) []] links' l) by done.
    cbn [fst snd length Nat.add].
    rewrite (wrap_link site (l1 :: links') l); [done|done| |done].
    cbn [flags built with_heap set_flag with_flags].
    apply (set_last_flag (S (length links'))).
Qed.

Lemma chain_built cs site links :
  chain (Uncaught.createPromise (Do <$> cs) site init) links
  = (Wrapped (length links) (Native (length links)) 1000,
     built site (first_call cs) links).
Proof.
  induction links as [|l links IH] using rev_ind.
  - rewrite createPromise_sync. unfold built. cbn.
    by destruct (first_call cs).
  - unfold chain in *. rewrite foldl_snoc, IH, register_built.
    rewrite length_app. cbn. by rewrite Nat.add_1_r.
Qed.

(** The job of a link does what [through] says. *)
Lemma run_job_link r l i s :
  run_job (reaction_job r (link_reaction l i)) s = settle i (through r l) s.
Proof.
  unfold through.
  destruct r as [v|e]; simpl.
  - destruct (on_fulfilled l) as [h|]; simpl; [|done]. by destruct (h v).
  - destruct (on_rejected l) as [h|]; simpl; [|done]. by destruct (h e).
Qed.

(** The settlement goes down the chain, one job a link. *)
Lemma job_phase rest l r pre c fl tm sk :
  run (S (length rest))
    (State c (pre ++ pending_from (length pre) rest) fl []
       [reaction_job r (link_reaction l (length pre))] tm sk None)
  = State c (pre ++ settled_cells (through r l) rest) fl [] [] tm sk None.
Proof.
  revert l r pre. induction rest as [|l' rest IH]; intros l r pre.
  - rewrite run_S. unfold step. cbn [crashed ticks jobs].
    rewrite run_job_link. unfold settle. cbn [heap with_jobs pending_from].
    rewrite lookup_app_r, Nat.sub_diag by done. cbn.
    rewrite insert_app_r_alt, Nat.sub_diag by done. done.
  - cbn [length]. rewrite run_S. unfold step. cbn [crashed ticks jobs].
    rewrite run_job_link. unfold settle. cbn [heap with_jobs pending_from].
    rewrite lookup_app_r, Nat.sub_diag by done.
    cbn [lookup list_lookup].
    unfold with_jobs, with_heap.
    cbn [clock heap flags ticks jobs timers sink crashed fmap list_fmap app].
    rewrite insert_app_r_alt, Nat.sub_diag by done. cbn [insert list_insert].
    specialize (IH l' (through r l)
      (pre ++ [PCell (Settled (through r l)) []])).
    rewrite length_app in IH. cbn [length] in IH.
    rewrite Nat.add_1_r, <- !app_assoc in IH. cbn [app] in IH.
    exact IH.
Qed.

Lemma settled_cells_last (pre : list pcell) r links :
  (pre ++ settled_cells r links) !! (length pre + length links)%nat
  = Some (PCell (Settled (foldl through r links)) []).
Proof.
  rewrite lookup_app_r by lia.
  replace (length pre + length links - length pre)%nat with (length links)
    by lia.
  revert r; induction links as [|l links IH]; intros r; [done|].
  simpl. apply IH.
Qed.

Lemma length_settled_cells r links :
  length (settled_cells r links) = S (length links).
Proof.
  revert r; induction links as [|l links IH]; intros r; simpl; [done|].
  by rewrite IH.
Qed.

(** The deadline checks of chained links fire and do nothing. *)
Lemma skip_chained checks rest c h fl sk :
  c ≤ 1000 →
  Forall (λ t : timer, t.1 = 1000 ∧
            ∃ i o pc stk, t.2 = DeadlineCheck i o pc stk ∧
                          fl !! i = Some true) checks →
  run (length checks) (State c h fl [] [] (checks ++ rest) sk None)
  = State (match checks with [] => c | _ => 1000 end) h fl [] [] rest sk None.
Proof.
  intros Hc Hall. revert c Hc.
  induction Hall as [|[due cb] checks (Hd & i & o & pc & stk & Hcb & Hi) _ IH];
    intros c Hc; [done|].
  simpl in Hd, Hcb. subst due cb.
  cbn [length app]. rewrite run_S. unfold step.
  cbn [crashed ticks jobs timers fire with_timers with_clock clock heap flags
       sink].
  rewrite deadline_check_chained by (unfold flag; simpl; by rewrite Hi).
  replace (Z.max c 1000) with 1000 by lia.
  change (with_clock 1000 (with_timers (checks ++ rest) _))
    with (State 1000 h fl [] [] (checks ++ rest) sk None).
  rewrite IH by lia. by destruct checks.
Qed.

(** The check of the last link, and the job of the observer it may
    attach. *)
Lemma last_check m b stk st h fl :
  h !! m = Some (PCell st []) → fl !! m = Some false →
  let s := State 1000 h fl [] []
             [(1000, DeadlineCheck m (Native m) (Some b) stk)] [] None in
  quiescent (run 2 s) ∧
  sink (run 2 s) = terminal_report (Some b) st stk ∧
  promise_state m (run 2 s) = Some st.
Proof.
  intros Hh Hf s.
  assert (Hlt : (m < length h)%nat) by (by eapply lookup_lt_Some).
  assert (Hq : (h ++ [PCell Pending []]) !! length h
               = Some (PCell Pending [])).
  { by rewrite lookup_app_r, Nat.sub_diag. }
  assert (Hm : (h ++ [PCell Pending []]) !! m = Some (PCell st [])).
  { by rewrite lookup_app_l. }
  rewrite run_S. unfold step, s. simpl.
  unfold deadline_check, flag. simpl. rewrite Hf. simpl.
  destruct b; simpl.
  - unfold native_catch, native_then. simpl. rewrite Hm.
    destruct st as [|[v|e]]; simpl.
    + repeat split; try done. unfold promise_state. simpl.
      rewrite list_lookup_insert_eq by (rewrite length_app; lia). done.
    + unfold settle. simpl. rewrite Hq. simpl.
      repeat split; try done. unfold promise_state. simpl.
      rewrite list_lookup_insert_ne by lia. by rewrite Hm.
    + unfold settle. simpl. rewrite Hq. simpl.
      repeat split; try done. unfold promise_state. simpl.
      rewrite list_lookup_insert_ne by lia. by rewrite Hm.
  - repeat split; try done. unfold promise_state. simpl. by rewrite Hh.
Qed.

(** Before the first timer is due only the jobs of the links run, and
    they write nothing. *)
Lemma hushed n s :
  ticks s = [] → crashed s = None → quiet_store s →
  Forall (λ t : timer, 999 < t.1) (timers s) →
  sink (run_until 999 n s) = sink s.
Proof.
  revert s; induction n as [|n IH]; intros s Ht Hx Hq Hm; [done|].
  rewrite run_until_S. unfold step_until, step. rewrite Ht, Hx.
  destruct (jobs s) as [|j js] eqn:Ej.
  - destruct (timers s) as [|[due cb] tm]; [done|].
    apply Forall_cons in Hm as [Hd _]. simpl in Hd.
    by destruct (Z.leb_spec due 999); [lia|].
  - assert (Hj : quiet_job j).
    { destruct Hq as [_ Hq]. rewrite Ej in Hq. by apply Forall_cons in Hq as [? _]. }
    destruct (quiet_run_job j (with_jobs js s) Hj)
      as (_ & Es & _ & Et & Em & Ec & Hst & _).
    assert (Hgo : sink (run_until 999 n (run_job j (with_jobs js s))) = sink s).
    { rewrite IH; try done.
      - by rewrite Et.
      - by rewrite Ec.
      - apply Hst. destruct Hq as [Hh Hq]. split; [done|]. simpl.
        rewrite Ej in Hq. by apply Forall_cons in Hq as [_ ?].
      - by rewrite Em. }
    by destruct (timers s) as [|[due cb] tm].
Qed.

Lemma quiet_pending_from i links : Forall quiet_cell (pending_from i links).
Proof.
  revert i; induction links as [|l links IH]; intros i; simpl.
  - repeat constructor.
  - constructor; [|apply IH]. unfold quiet_cell. simpl.
    constructor; [|constructor]. split; simpl; unfold user_handler.
    + by destruct (on_fulfilled l).
    + by destruct (on_rejected l).
Qed.

Lemma quiet_built site st links : quiet_store (built site st links).
Proof.
  unfold built, quiet_store. simpl.
  destruct st as [|r]; [|destruct links as [|l links]].
  - split; [apply quiet_pending_from|constructor].
  - split; repeat constructor.
  - split.
    + constructor; [constructor|apply quiet_pending_from].
    + constructor; [|constructor].
      destruct r; simpl; unfold user_handler.
      * by destruct (on_fulfilled l).
      * by destruct (on_rejected l).
Qed.

Lemma checks_from_chained i links (fl : list bool) :
  (∀ j, (j ≤ i + length links)%nat → fl !! j = Some true) →
  Forall (λ t : timer, t.1 = 1000 ∧
            ∃ i o pc stk, t.2 = DeadlineCheck i o pc stk ∧
                          fl !! i = Some true) (checks_from i links).
Proof.
  revert i; induction links as [|l links IH]; intros i Hfl; simpl;
    constructor.
  - split; [done|]. eexists _, _, _, _. split; [done|]. apply Hfl. simpl. lia.
  - apply IH. intros j Hj. apply Hfl. simpl. lia.
Qed.

(** The run of a chain on a promise settled, or left pending, by its
    construction function. *)
Lemma run_built site st links final :
  let s := built site st (links ++ [final]) in
  let m := S (length links) in
  let res := chain_result st (links ++ [final]) in
  (∀ n, sink (run_until 999 n s) = []) ∧
  quiescent (run (2 * m + 2) s) ∧
  promise_state m (run (2 * m + 2) s) = Some res ∧
  sink (run (2 * m + 2) s)
  = terminal_report (Some (caught final)) res (link_stack final).
Proof.
  intros s m res.
  set (fl := replicate (length (links ++ [final])) true ++ [false]).
  set (root := (1000, DeadlineCheck 0 (Native 0) None (root_stack site))).
  set (lastT := (1000, DeadlineCheck m (Native m) (Some (caught final))
                         (link_stack final))).
  assert (Hlen : length (links ++ [final]) = m).
  { rewrite length_app. simpl. unfold m. lia. }
  assert (Htm : root :: checks_from 0 (links ++ [final])
                = (root :: checks_from 0 links) ++ [lastT]).
  { by rewrite checks_from_snoc. }
  assert (Hset : ∀ j, (j ≤ 0 + length links)%nat → fl !! j = Some true).
  { intros j Hj. unfold fl. rewrite Hlen. apply lookup_all_set. unfold m. lia. }
  assert (Hch : Forall (λ t : timer, t.1 = 1000 ∧
            ∃ i o pc stk, t.2 = DeadlineCheck i o pc stk ∧
                          fl !! i = Some true) (root :: checks_from 0 links)).
  { constructor; [|by apply checks_from_chained].
    split; [done|]. eexists _, _, _, _. split; [done|]. apply Hset. lia. }
  assert (Hlast : fl !! m = Some false).
  { unfold fl. rewrite Hlen, lookup_app_r by (by rewrite length_replicate).
    by rewrite length_replicate, Nat.sub_diag. }
  assert (Hcl : length (root :: checks_from 0 links) = m).
  { simpl. f_equal. clear. generalize 0%nat.
    induction links as [|l links IH]; intros i; simpl; [done|].
    by rewrite IH. }
  split.
  { intros n. rewrite hushed; try done.
    - apply quiet_built.
    - unfold s, built. cbn [timers]. constructor; [simpl; lia|].
      eapply Forall_impl; [apply checks_from_due|]. simpl. intros; lia. }
  assert (Hend : ∀ h st',
    h !! m = Some (PCell st' []) →
    let s2 := State 1000 h fl [] [] [lastT] [] None in
    quiescent (run 2 s2) ∧ promise_state m (run 2 s2) = Some st' ∧
    sink (run 2 s2)
    = terminal_report (Some (caught final)) st' (link_stack final)).
  { intros h st' Hh.
    destruct (last_check m (caught final) (link_stack final) st' h fl Hh Hlast)
      as (? & ? & ?). done. }
  destruct st as [|r].
  - (* the promise is pending: only the timers run *)
    assert (Hrun : run m s = State 1000 (pending_from 0 (links ++ [final])) fl
                               [] [] [lastT] [] None).
    { unfold s, built. fold fl root. rewrite Htm, <- Hcl.
      rewrite skip_chained by done. done. }
    destruct (Hend (pending_from 0 (links ++ [final])) Pending)
      as (Hq & Hp & Hs).
    { rewrite <- Hlen. apply pending_from_last. }
    rewrite <- Hrun, <- run_add in Hq, Hp, Hs.
    rewrite (run_settled (m + 2) (2 * m + 2)) by (done || lia).
    done.
  - (* the promise is settled: the jobs of the links run first *)
    destruct (links ++ [final]) as [|l1 rest] eqn:EL.
    { by destruct links. }
    assert (Hr : m = S (length rest)) by (by simpl in Hlen).
    assert (Hjobs : run m s =
      State 0 ([PCell (Settled r) []] ++ settled_cells (through r l1) rest)
        fl [] [] ((root :: checks_from 0 links) ++ [lastT]) [] None).
    { unfold s, built. fold fl root. rewrite Htm, Hr.
      apply (job_phase rest l1 r [PCell (Settled r) []]). }
    assert (Hrun : run (m + m) s =
      State 1000
        ([PCell (Settled r) []] ++ settled_cells (through r l1) rest)
        fl [] [] [lastT] [] None).
    { rewrite run_add, Hjobs. rewrite <- Hcl at 1.
      rewrite skip_chained by done. done. }
    destruct (Hend ([PCell (Settled r) []]
                    ++ settled_cells (through r l1) rest)
                (Settled (foldl through r (l1 :: rest))))
      as (Hq & Hp & Hs).
    { rewrite Hr.
      apply (settled_cells_last [PCell (Settled r) []] (through r l1) rest). }
    rewrite <- Hrun, <- run_add in Hq, Hp, Hs.
    replace (2 * m + 2)%nat with (m + m + 2)%nat by lia.
    done.
Qed.

(** X12, uncaught.js: a chain of [then]s and [catch]es on the promise of
    [createPromise], settled or not by its construction function, is judged at
    its last link alone. Nothing is written before the deadline. If the last
    link has no rejection handler there is one "uncaught terminal promise"
    report with its stack, whatever the promises came to; if it has one, or is
    a [catch], there is one "exception occured inside error handler" report
    when the last promise is rejected, with what it is rejected with, and no
    report otherwise. The promises settle as the promise contract says. *)
Theorem chain_is_judged_at_its_last_link
  (cs : list call) (site : string) (links : list link) (final : link) :
  let '(w, s) :=
    chain (Uncaught.createPromise (Do <$> cs) site init) (links ++ [final]) in
  let m := S (length links) in
  let res := chain_result (first_call cs) (links ++ [final]) in
  w = Wrapped m (Native m) 1000 ∧
  (∀ n, sink (run_until 999 n s) = []) ∧
  quiescent (run (2 * m + 2) s) ∧
  promise_state m (run (2 * m + 2) s) = Some res ∧
  sink (run (2 * m + 2) s)
  = terminal_report (Some (caught final)) res (link_stack final).
Proof.
  rewrite chain_built. split.
  - rewrite length_app. simpl. by rewrite Nat.add_1_r.
  - apply run_built.
Qed.

(** X15, uncaught.js: [wrappedPromise.catch] hands [true] on as [prevCaught]
    whether or not it was given a handler. On a rejected promise [.catch()]
    and [.then()] both let the rejection through, but the first is reported as
    an exception inside an error handler, with the rejection itself, and the
    second as an uncaught terminal promise. *)
Theorem catch_without_handler_counts_as_caught
  (e : value) (rest : list call) (rootSite site : string) :
  let root :=
    Uncaught.createPromise (Do <$> Call Reject e :: rest) rootSite init in
  let with_catch := (chain root [Catch None site]).2 in
  let with_then := (chain root [Then None None site]).2 in
  quiescent (run 4 with_catch) ∧ quiescent (run 4 with_then) ∧
  promise_state 1 (run 4 with_catch) = Some (Settled (Rejected e)) ∧
  promise_state 1 (run 4 with_then) = Some (Settled (Rejected e)) ∧
  sink (run 4 with_catch) = [HandlerFault e] ∧
  sink (run 4 with_then) = [UncaughtTerminal (then_stack site)].
Proof.
  intros root with_catch with_then. subst root with_catch with_then.
  rewrite (chain_built (Call Reject e :: rest) rootSite [Catch None site]).
  rewrite (chain_built (Call Reject e :: rest) rootSite [Then None None site]).
  destruct (run_built rootSite (Settled (Rejected e)) [] (Catch None site))
    as (_ & H1 & H2 & H3).
  destruct (run_built rootSite (Settled (Rejected e)) [] (Then None None site))
    as (_ & H4 & H5 & H6).
  done.
Qed.

(** X16, uncaught.js: [then(onResolved, onRejected)] counts as caught because
    of [onRejected] alone. When the promise is fulfilled and [onResolved]
    throws, [onRejected] never runs, and what is reported is an exception
    inside an error handler, with what [onResolved] threw. *)
Theorem throw_of_onResolved_is_laid_on_the_error_handler
  (v x : value) (rest : list call) (onResolved onRejected : value → outcome)
  (rootSite site : string) :
  onResolved v = Throw x →
  let '(w, s) :=
    chain (Uncaught.createPromise (Do <$> Call Resolve v :: rest) rootSite init)
      [Then (Some onResolved) (Some onRejected) site] in
  quiescent (run 4 s) ∧
  promise_state 1 (run 4 s) = Some (Settled (Rejected x)) ∧
  sink (run 4 s) = [HandlerFault x].
Proof.
  intros Hx.
  rewrite (chain_built (Call Resolve v :: rest) rootSite
    [Then (Some onResolved) (Some onRejected) site]).
  destruct (run_built rootSite (Settled (Fulfilled v)) []
    (Then (Some onResolved) (Some onRejected) site)) as (_ & H1 & H2 & H3).
  cbn [chain_result app foldl] in H2, H3. unfold through in H2, H3.
  cbn [on_fulfilled settled_value] in H2, H3. rewrite Hx in H2, H3. done.
Qed.

Lemma throw_of_onResolved_is_laid_on_the_error_handler_witness :
  let '(w, s) :=
    chain (Uncaught.createPromise (Do <$> Call Resolve (VNum 1) :: [])
             "a.js:1" init)
      [Then (Some ex_throwing) (Some ex_recovering) "a.js:2"] in
  quiescent (run 4 s) ∧
  promise_state 1 (run 4 s)
  = Some (Settled (Rejected (VError "error inside error handler"))) ∧
  sink (run 4 s) = [HandlerFault (VError "error inside error handler")].
Proof.
  exact (throw_of_onResolved_is_laid_on_the_error_handler (VNum 1)
    (VError "error inside error handler") [] ex_throwing ex_recovering
    "a.js:1" "a.js:2" eq_refl).
Defined.

(** *** A handler that throws, whenever the rejection arrives

    The promise is rejected from a [setTimeout] callback set with
    [delay]; [catch(errHandler)] is chained at once and [errHandler]
    throws. *)

(** The state after the construction and the [catch]. *)
Lemma late_built (delay : Z) (b : body) (h : value → outcome)
  (rootSite site : string) :
  chain (Uncaught.createPromise [SetTimeout b delay] rootSite init)
    [Catch (Some h) site]
  = (Wrapped 1 (Native 1) 1000,
     State 0
       [PCell Pending [Reaction None (Some (UserFn h)) 1]; PCell Pending []]
       [true; false] [] []
       (insert_timer
          (1000, DeadlineCheck 1 (Native 1) (Some true)
                   (link_stack (Catch (Some h) site)))
          (insert_timer
             (1000, DeadlineCheck 0 (Native 0) None (root_stack rootSite))
             [(timer_delay delay,
               Deferred (NativeResolve 0) (NativeReject 0) None b)]))
       [] None).
Proof. reflexivity. Qed.

(** The two deadline checks keep their order, and the rejection is before
    them exactly when it is due by the deadline. *)
Lemma two_checks (dl : Z) (df dc0 dc1 : callback) :
  insert_timer (1000, dc1) (insert_timer (1000, dc0) [(dl, df)])
  = if dl <=? 1000 then [(dl, df); (1000, dc0); (1000, dc1)]
    else [(1000, dc0); (1000, dc1); (dl, df)].
Proof.
  cbn [insert_timer fst]. destruct (dl <=? 1000) eqn:E;
    cbn [insert_timer fst]; rewrite ?E; reflexivity.
Qed.

(** A deferred callback that calls [reject] first, on a pending promise
    with one registration. *)
Lemma fire_reject_first e rest k dom c post fl tk jb tm sk cr :
  fire (Deferred (NativeResolve 0) (NativeReject 0) dom
          (Body (Call Reject e :: rest) None))
    (State c (PCell Pending [k] :: post) fl tk jb tm sk cr)
  = State c (PCell (Settled (Rejected e)) [] :: post) fl tk
      (jb ++ [reaction_job (Rejected e) k]) tm sk cr.
Proof.
  unfold fire. cbn [calls throws].
  by rewrite (run_calls_registered k rest (Call Reject e) _ [] post).
Qed.

(** The job of a handler that throws. *)
Lemma run_job_throw h e x q s :
  h e = Throw x →
  run_job (Job (Some (UserFn h)) (Rejected e) q) s = settle q (Rejected x) s.
Proof. intros Hx. cbn [run_job run_handler settled_value]. by rewrite Hx. Qed.

(** Replace the result of a callback, a settlement or a job by its value. *)
Ltac fires_to r :=
  match goal with
  | |- context [fire ?cb ?s] => replace (fire cb s) with r by reflexivity
  end.

Ltac settles_to r :=
  match goal with
  | |- context [settle ?q ?o ?s] => replace (settle q o s) with r by reflexivity
  end.

Ltac runs_to r :=
  match goal with
  | |- context [run_job ?j ?s] => replace (run_job j s) with r by reflexivity
  end.

(** The rejection comes first, the deadline after it. *)
Lemma run_rejected_in_time dl e x rest h stk0 stk1 :
  h e = Throw x → dl ≤ 1000 →
  run 5
    (State 0 [PCell Pending [Reaction None (Some (UserFn h)) 1];
              PCell Pending []] [true; false] [] []
       [(dl, Deferred (NativeResolve 0) (NativeReject 0) None
               (Body (Call Reject e :: rest) None));
        (1000, DeadlineCheck 0 (Native 0) None stk0);
        (1000, DeadlineCheck 1 (Native 1) (Some true) stk1)] [] None)
  = State 1000
      [PCell (Settled (Rejected e)) []; PCell (Settled (Rejected x)) [];
       PCell (Settled (Fulfilled VUndefined)) []]
      [true; false] [] [] [] [HandlerFault x] None.
Proof.
  intros Hx Hle.
  rewrite run_S, step_timer, fire_reject_first.
  replace (Z.max 0 dl) with (Z.max 0 dl `min` 1000) by lia.
  generalize (Z.max 0 dl `min` 1000) (Z.le_min_r (Z.max 0 dl) 1000).
  intros c Hc.
  cbn [app reaction_job onRejected derived].
  rewrite run_S, step_job, (run_job_throw h e x) by done.
  settles_to (State c [PCell (Settled (Rejected e)) [];
                    PCell (Settled (Rejected x)) []] [true; false] [] []
             [(1000, DeadlineCheck 0 (Native 0) None stk0);
              (1000, DeadlineCheck 1 (Native 1) (Some true) stk1)] [] None).
  rewrite run_S, step_timer.
  replace (Z.max c 1000) with 1000 by lia.
  fires_to (State 1000 [PCell (Settled (Rejected e)) [];
                     PCell (Settled (Rejected x)) []] [true; false] [] []
           [(1000, DeadlineCheck 1 (Native 1) (Some true) stk1)] [] None).
  rewrite run_S, step_timer.
  fires_to (State 1000 [PCell (Settled (Rejected e)) [];
                     PCell (Settled (Rejected x)) []; PCell Pending []]
           [true; false] [] [Job (Some FaultObserver) (Rejected x) 2]
           [] [] None).
  rewrite run_S, step_job.
  runs_to (State 1000 [PCell (Settled (Rejected e)) [];
                   PCell (Settled (Rejected x)) [];
                   PCell (Settled (Fulfilled VUndefined)) []]
         [true; false] [] [] [] [HandlerFault x] None).
  reflexivity.
Qed.

(** The deadline comes first, the rejection after it. *)
Lemma run_rejected_late dl e x rest h stk0 stk1 :
  h e = Throw x → 1000 < dl →
  run 5
    (State 0 [PCell Pending [Reaction None (Some (UserFn h)) 1];
              PCell Pending []] [true; false] [] []
       [(1000, DeadlineCheck 0 (Native 0) None stk0);
        (1000, DeadlineCheck 1 (Native 1) (Some true) stk1);
        (dl, Deferred (NativeResolve 0) (NativeReject 0) None
               (Body (Call Reject e :: rest) None))] [] None)
  = State dl
      [PCell (Settled (Rejected e)) []; PCell (Settled (Rejected x)) [];
       PCell (Settled (Fulfilled VUndefined)) []]
      [true; false] [] [] [] [HandlerFault x] None.
Proof.
  intros Hx Hlt.
  set (df := Deferred (NativeResolve 0) (NativeReject 0) None
               (Body (Call Reject e :: rest) None)).
  rewrite run_S, step_timer.
  fires_to (State 1000 [PCell Pending [Reaction None (Some (UserFn h)) 1];
                     PCell Pending []] [true; false] [] []
           [(1000, DeadlineCheck 1 (Native 1) (Some true) stk1); (dl, df)]
           [] None).
  rewrite run_S, step_timer.
  fires_to (State 1000 [PCell Pending [Reaction None (Some (UserFn h)) 1];
                     PCell Pending [Reaction None (Some FaultObserver) 2];
                     PCell Pending []] [true; false] [] []
           [(dl, df)] [] None).
  rewrite run_S, step_timer.
  replace (Z.max 1000 dl) with dl by lia.
  subst df. rewrite fire_reject_first.
  cbn [app reaction_job onRejected derived].
  rewrite run_S, step_job, (run_job_throw h e x) by done.
  settles_to (State dl [PCell (Settled (Rejected e)) [];
                     PCell (Settled (Rejected x)) []; PCell Pending []]
             [true; false] [] [Job (Some FaultObserver) (Rejected x) 2]
             [] [] None).
  rewrite run_S, step_job.
  runs_to (State dl [PCell (Settled (Rejected e)) [];
                 PCell (Settled (Rejected x)) [];
                 PCell (Settled (Fulfilled VUndefined)) []]
         [true; false] [] [] [] [HandlerFault x] None).
  reflexivity.
Qed.

(** X17, uncaught.js: a promise is rejected from a [setTimeout] callback
    set with [delay], and [catch(errHandler)] is chained on it at once,
    where [errHandler] throws [x] on the rejection value. Then, whether the
    rejection arrives before or after the one-second deadline, nothing is
    printed at construction, the loop stops after five turns, exactly one
    report has been printed, the report of the handler's exception [x]; it
    is printed at the later of the deadline and the rejection, which comes
    at the delay the timer runs with, and the promise of the [catch] is
    rejected with [x]. *)
Theorem late_handler_fault_is_still_reported
  (delay : Z) (e x : value) (rest : list call) (errHandler : value → outcome)
  (rootSite site : string) :
  errHandler e = Throw x →
  let construct := [SetTimeout (Body (Call Reject e :: rest) None) delay] in
  let '(w, s) :=
    chain (Uncaught.createPromise construct rootSite init)
      [Catch (Some errHandler) site] in
  sink s = [] ∧
  quiescent (run 5 s) ∧
  sink (run 5 s) = [HandlerFault x] ∧
  clock (run 5 s) = Z.max 1000 (timer_delay delay) ∧
  promise_state 1 (run 5 s) = Some (Settled (Rejected x)).
Proof.
  intros Hx construct. subst construct.
  rewrite late_built, two_checks.
  destruct (timer_delay delay <=? 1000) eqn:E.
  - apply Z.leb_le in E. rewrite (run_rejected_in_time _ e x) by done.
    repeat split. cbn [clock]. lia.
  - apply Z.leb_gt in E. rewrite (run_rejected_late _ e x) by done.
    repeat split. cbn [clock]. lia.
Qed.

Lemma late_handler_fault_is_still_reported_witness :
  let '(w, s) :=
    chain (Uncaught.createPromise
             [SetTimeout (Body [Call Reject (VError "late")] None) 1500]
             "root" init)
      [Catch (Some (λ _, Throw (VError "handler"))) "site"] in
  sink s = [] ∧
  quiescent (run 5 s) ∧
  sink (run 5 s) = [HandlerFault (VError "handler")] ∧
  clock (run 5 s) = Z.max 1000 (timer_delay 1500) ∧
  promise_state 1 (run 5 s) = Some (Settled (Rejected (VError "handler"))).
Proof.
  exact (late_handler_fault_is_still_reported 1500 (VError "late")
           (VError "handler") [] (λ _, Throw (VError "handler")) "root" "site"
           eq_refl).
Defined.

(** * The programs at the end of the four files *)

(** timeout.js:
    [createPromise(function(resolve, reject) { }).then(f, g)]. *)
Example timeout_js_program :
  let '(p, s) := Timeout.createPromise ex_forgets init in
  let '(q, s1) :=
    native_then p (Some (UserFn ex_logging)) (Some (UserFn ex_logging)) s in
  quiescent (run 2 s1) ∧ clock (run 2 s1) = 1000 ∧
  promise_state p (run 2 s1) = Some (Settled (Rejected timeout_error)) ∧
  promise_state q (run 2 s1) = Some (Settled (Fulfilled VUndefined)).
Proof. by vm_compute. Qed.

(** double-fulfill.js:
    [createPromise(function(resolve, reject) { resolve(1); resolve(2) })
       .then(f)]. *)
Example double_fulfill_js_program :
  let '(p, s) := DoubleFulfill.createPromise ex_double_resolve init in
  let '(q, s1) := native_then p (Some (UserFn ex_logging)) None s in
  quiescent (run 1 s1) ∧
  sink (run 1 s1) = [Reported multiple_fulfill] ∧
  promise_state p (run 1 s1) = Some (Settled (Fulfilled (VNum 1))).
Proof. by vm_compute. Qed.

(** domain.js: the construction function defers a callback that throws
    before it reaches [resolve(1)]. *)
Example domain_js_program :
  let '(p, s) := Domain.createPromise ex_async_error init in
  let '(q, s1) :=
    native_then p (Some (UserFn ex_logging)) (Some (UserFn ex_logging)) s in
  quiescent (run 2 s1) ∧
  sink (run 2 s1) = [Reported (VError "async error")] ∧
  promise_state p (run 2 s1)
  = Some (Settled (Rejected (VError "async error"))).
Proof. by vm_compute. Qed.

(** uncaught.js: the two chains of the file, in one run. *)
Example uncaught_js_program :
  let '(w1, s1) := Uncaught.createPromise ex_reject1 "uncaught.js:46" init in
  let '(_, s2) :=
    obj_then w1 (Some (UserFn ex_logging)) None [AtSite "uncaught.js:48"] s1 in
  let '(w2, s3) := Uncaught.createPromise ex_reject1 "uncaught.js:52" s2 in
  let '(_, s4) :=
    obj_catch w2 (Some (UserFn ex_throwing)) [AtSite "uncaught.js:54"] s3 in
  sink (run_until 999 20 s4) = [] ∧
  quiescent (run 20 s4) ∧
  sink (run 20 s4)
  = [UncaughtTerminal (then_stack "uncaught.js:48");
     HandlerFault (VError "error inside error handler")].
Proof. by vm_compute. Qed.

(** A delay out of range runs as one millisecond:
    [setTimeout(function() { resolve(1) }, 2147483648)] comes before
    [setTimeout(function() { reject(2) }, 5)]. *)
Example delay_out_of_range_runs_first :
  let '(p, s0) :=
    detectDoubleFulfilledPromise
      [SetTimeout (Body [Call Resolve (VNum 1)] None) 2147483648;
       SetTimeout (Body [Call Reject (VNum 2)] None) 5] init in
  promise_state p (run 2 s0) = Some (Settled (Fulfilled (VNum 1))) ∧
  sink (run 2 s0) = [Reported multiple_fulfill] ∧
  clock (run 2 s0) = 5.
Proof. by vm_compute. Qed.
